(** * avecado post-processing: the unionizer and the adminizer

    A shallow embedding of [src/post_process/unionizer.cpp] and
    [src/post_process/adminizer.cpp], and the properties of the
    specification that concern them.

    Conventions of the embedding.
    - A C++ [double] is the rational it denotes ([Q]).  The comparisons [<],
      [>], [==] of the code are the boolean functions [dlt], [dgt], [deq].
      Where the code computes a direction or a score, each operation gives
      the double nearest to its exact result ([dadd], [dmul], [ddiv]: IEEE
      754 binary64, ties to even), and [None] stands for a result that is
      no finite double (an infinity or NaN).  The budget of
      [curve_approximator::consume], the sample distance and the
      differences the adminizer compares are computed exactly.
    - [unsigned int] is [N] with the wrap-around at [2^32] written out.
    - A [mapnik::feature_ptr] is an address into a heap of features, so that
      two candidates of one feature share their parent.
    - Code whose behaviour C++ leaves undefined (indexing or erasing outside
      a container, converting an out-of-range double to a byte) and code
      that throws returns [None] (or an error value). *)

From Stdlib Require Import ZArith NArith QArith Qabs Qround Qpower Lqa Lia List Bool Sorted Ascii String.
From stdpp Require Import base option functions gmap strings list fin_maps.

Local Open Scope Z_scope.

(** ** The mapnik side of the boundary *)

Module Mapnik.

Definition double := Q.

Definition dlt (a b : double) : bool := negb (Qle_bool b a).
Definition dgt (a b : double) : bool := dlt b a.
Definition dle (a b : double) : bool := Qle_bool a b.
Definition deq (a b : double) : bool := Qeq_bool a b.

(** The arithmetic of doubles.  A double has 53 significant bits and no
    exponent below -1074; the result of an operation is the double
    nearest to the exact result, the one with the even last bit of two
    that are equally near. *)

(** The integer nearest to a rational, the even one of two that are
    equally near. *)
Definition nearest_even (q : Q) : Z :=
  let n := Qfloor q in
  match (q - inject_Z n ?= 1 # 2)%Q with
  | Lt => n
  | Gt => n + 1
  | Eq => if Z.even n then n else n + 1
  end.

(** The exponent [l] with [2^l <= q < 2^(l+1)], for a positive [q]. *)
Definition binade (q : Q) : Z :=
  let k := Z.log2 (Qnum q) - Z.log2 (Zpos (Qden q)) in
  if Qle_bool (2 ^ k)%Q q then k else k - 1.

(** The exponent of the unit in the last place of the doubles around [q]. *)
Definition ulp_exponent (q : Q) : Z := Z.max (binade (Qabs q) - 52) (-1074).

(** [q] on the grid of spacing [2^e]. *)
Definition grid (q : Q) (e : Z) : Q :=
  (inject_Z (nearest_even (q / 2 ^ e)) * 2 ^ e)%Q.

(** The nearest number with 53 significant bits. *)
Definition nearest_double (q : Q) : Q :=
  if Qeq_bool q 0 then 0%Q else Qred (grid q (ulp_exponent q)).

(** The largest finite double. *)
Definition max_double : Q := (inject_Z (2 ^ 53 - 1) * 2 ^ 971)%Q.

(** The double an exact result rounds to, when it is finite. *)
Definition rounded (q : Q) : option double :=
  let r := nearest_double q in
  if Qle_bool (Qabs r) max_double then Some r else None.

Definition dadd (a b : double) : option double := rounded (a + b)%Q.
Definition dmul (a b : double) : option double := rounded (a * b)%Q.

(** A quotient by zero is an infinity or NaN. *)
Definition ddiv (a b : double) : option double :=
  if Qeq_bool b 0 then None else rounded (a / b)%Q.

(** [mapnik::value]: the variant stored under an attribute key. *)
Inductive value :=
| value_null
| value_integer (i : Z)
| value_double (d : double)
| value_bool (b : bool)
| value_unicode_string (s : string).

(** The comparison operators of [mapnik::value] belong to mapnik; the
    code uses [!=] (tag reconciliation) and [<], [>] (candidate order). *)
Class ValueOps := {
  value_ne : value → value → bool;
  value_lt : value → value → bool;
  value_gt : value → value → bool
}.

(** Vertex commands of the path iteration protocol. *)
Inductive command := SEG_END | SEG_MOVETO | SEG_LINETO | SEG_CLOSE.

Definition command_eqb (a b : command) : bool :=
  match a, b with
  | SEG_END, SEG_END | SEG_MOVETO, SEG_MOVETO
  | SEG_LINETO, SEG_LINETO | SEG_CLOSE, SEG_CLOSE => true
  | _, _ => false
  end.

Inductive geometry_types := Unknown | Point | LineString | Polygon.

Definition geometry_types_eqb (a b : geometry_types) : bool :=
  match a, b with
  | Unknown, Unknown | Point, Point
  | LineString, LineString | Polygon, Polygon => true
  | _, _ => false
  end.

Record vertex := mk_vertex { v_x : double; v_y : double; v_cmd : command }.

(** [mapnik::geometry_type]: a type tag and the stored vertices. *)
Record geometry_type := mk_geometry {
  g_type : geometry_types;
  g_vertices : list vertex
}.

(** [geometry_type()] : no vertices, type tag [Unknown]. *)
Definition geometry_new : geometry_type := mk_geometry Unknown [].

Definition g_size (g : geometry_type) : nat := length (g_vertices g).

Definition move_to (g : geometry_type) (x y : double) : geometry_type :=
  mk_geometry (g_type g) (g_vertices g ++ [mk_vertex x y SEG_MOVETO]).

Definition line_to (g : geometry_type) (x y : double) : geometry_type :=
  mk_geometry (g_type g) (g_vertices g ++ [mk_vertex x y SEG_LINETO]).

(** [vertex(pos, &x, &y)]: the command stored at [pos], and [SEG_END]
    with [x], [y] untouched when [pos] is not a stored position. *)
Definition vertex_at (g : geometry_type) (pos : nat) (x y : double)
  : command * double * double :=
  match g_vertices g !! pos with
  | Some v => (v_cmd v, v_x v, v_y v)
  | None => (SEG_END, x, y)
  end.

(** [mapnik::box2d<double>] *)
Record box2d := mk_box2d {
  minx : double; miny : double; maxx : double; maxy : double
}.

(** The default constructed box is the invalid box [(0,0,-1,-1)]. *)
Definition box2d_default : box2d := mk_box2d 0%Q 0%Q (-1)%Q (-1)%Q.

Definition expand_to_include (b other : box2d) : box2d :=
  mk_box2d
    (if dlt (minx other) (minx b) then minx other else minx b)
    (if dlt (miny other) (miny b) then miny other else miny b)
    (if dgt (maxx other) (maxx b) then maxx other else maxx b)
    (if dgt (maxy other) (maxy b) then maxy other else maxy b).

(** [mapnik::feature_impl], as far as the post-processors use it: the
    id, the geometry container [paths()] and the attributes.  The
    attributes are the map from the keys the feature has to their
    values, with lookup, existence test, replacement and insertion; each
    feature has a map of its own. *)
Record feature := mk_feature {
  f_id : Z;
  f_paths : list geometry_type;
  f_attrs : gmap string value
}.

Definition has_key (f : feature) (key : string) : bool :=
  bool_decide (is_Some (f_attrs f !! key)).

(** [get(key)]: the stored value, and the null value for a missing key. *)
Definition get (f : feature) (key : string) : value :=
  default value_null (f_attrs f !! key).

(** [put(key, v)] replaces the value of an existing key and throws
    [std::out_of_range] for a missing one. *)
Definition put (f : feature) (key : string) (v : value) : option feature :=
  if has_key f key
  then Some (mk_feature (f_id f) (f_paths f) (<[key := v]> (f_attrs f)))
  else None.

(** [put_new(key, v)] replaces or inserts. *)
Definition put_new (f : feature) (key : string) (v : value) : feature :=
  mk_feature (f_id f) (f_paths f) (<[key := v]> (f_attrs f)).

Definition num_geometries (f : feature) : nat := length (f_paths f).

Definition set_paths (f : feature) (ps : list geometry_type) : feature :=
  mk_feature (f_id f) ps (f_attrs f).

End Mapnik.

(** ** Exceptions and the property tree of the configuration *)

Module Ptree.

Inductive exception :=
| runtime_error (what : string)
| ptree_bad_path (path : string)
| ptree_bad_data (path : string)
| datasource_exception (what : string).

(** The outcome of code that may throw. *)
Inductive result (A : Type) :=
| Ok (a : A)
| Throw (e : exception).
Arguments Ok {A} a.
Arguments Throw {A} e.

Definition is_ok {A} (r : result A) : bool :=
  match r with Ok _ => true | Throw _ => false end.

(** [boost::property_tree::ptree]: the data of a node and its children
    in order. *)
#[warnings="-register-all"] Inductive ptree :=
  Node (data : string) (children : list (string * ptree)).

Definition data (pt : ptree) : string := let 'Node d _ := pt in d.
Definition children (pt : ptree) : list (string * ptree) := let 'Node _ cs := pt in cs.

Fixpoint find_child (key : string) (cs : list (string * ptree)) : option ptree :=
  match cs with
  | [] => None
  | (k, c) :: cs' => if String.eqb k key then Some c else find_child key cs'
  end.

(** The keys of the processors have no separator, so a path is one key. *)
Definition get_child_optional (pt : ptree) (key : string) : option ptree :=
  find_child key (children pt).

(** The stream translators that turn the data of a node into a number
    belong to boost. *)
Class Translators := {
  to_double : string → option Mapnik.double;
  to_size_t : string → option N
}.

(** [get_optional<string>(key)] *)
Definition get_optional_string (pt : ptree) (key : string) : option string :=
  data <$> get_child_optional pt key.

(** [get<string>(key, default)] *)
Definition get_string_or (pt : ptree) (key default_ : string) : string :=
  default default_ (get_optional_string pt key).

(** [get<string>(key)]: throws when there is no such child. *)
Definition get_string (pt : ptree) (key : string) : result string :=
  match get_optional_string pt key with
  | Some s => Ok s
  | None => Throw (ptree_bad_path key)
  end.

(** [get<double>(key, default)] and [get<size_t>(key, default)]: the
    default also stands in for data that does not translate. *)
Definition get_double_or `{Translators} (pt : ptree) (key : string)
    (default_ : Mapnik.double) : Mapnik.double :=
  default default_ (get_child_optional pt key ≫= λ c, to_double (data c)).

Definition get_size_t_or `{Translators} (pt : ptree) (key : string)
    (default_ : N) : N :=
  default default_ (get_child_optional pt key ≫= λ c, to_size_t (data c)).

(** [std::set<string>]: the elements in ascending order, each once. *)
Fixpoint set_insert (s : string) (l : list string) : list string :=
  match l with
  | [] => [s]
  | s' :: l' =>
      match String.compare s s' with
      | Lt => s :: l
      | Eq => l
      | Gt => s' :: set_insert s l'
      end
  end.

End Ptree.

(** ** The unionizer ([src/post_process/unionizer.cpp]) *)

Module Unionizer.
Import Mapnik Ptree.

Inductive union_heuristic := GREEDY | OBTUSE | ACUTE.

Definition string_to_heuristic (s : string) : option union_heuristic :=
  if String.eqb s "greedy" then Some GREEDY
  else if String.eqb s "obtuse" then Some OBTUSE
  else if String.eqb s "acute" then Some ACUTE
  else None.

Inductive tag_strategy := INTERSECT | ACCUMULATE.

Definition string_to_strategy (s : string) : option tag_strategy :=
  if String.eqb s "intersect" then Some INTERSECT
  else if String.eqb s "accumulate" then Some ACCUMULATE
  else None.

(** A [feature_ptr] is an address; the heap gives the feature it points
    to.  The pointers of the code are shared pointers and never dangle,
    so the heap is total. *)
Abbreviation ptr := nat (only parsing).
Abbreviation heap := (nat → feature) (only parsing).

(** *** [struct curve_approximator] *)
Module curve_approximator.

Record t := mk {
  m_x : double; m_y : double;
  m_consume_x : double; m_consume_y : double;
  m_total_length : double;
  m_points : list (double * double * double)
}.

Definition init (x y consume_x consume_y : double) : t :=
  mk x y consume_x consume_y 0%Q [].

(** [consume(x, y)]: the updated approximator and the returned flag.
    The quotients are those of [Q]; a zero divisor needs a negative
    budget. *)
Definition consume (a : t) (x y : double) : t * bool :=
  let x_offset := (m_x a - x)%Q in
  let y_offset := (m_y a - y)%Q in
  let x_diff := Qabs x_offset in
  let y_diff := Qabs y_offset in
  let '(x_diff, y_diff) :=
    if dlt (m_consume_x a - x_diff)%Q 0%Q
    then (m_consume_x a, ((y_diff / x_diff) * m_consume_x a)%Q)
    else (x_diff, y_diff) in
  let '(x_diff, y_diff) :=
    if dlt (m_consume_y a - y_diff)%Q 0%Q
    then (((x_diff / y_diff) * m_consume_y a)%Q, m_consume_y a)
    else (x_diff, y_diff) in
  let consume_x := (m_consume_x a - x_diff)%Q in
  let consume_y := (m_consume_y a - y_diff)%Q in
  let x_offset := if dlt x_offset 0%Q then ((-1) * x_diff)%Q else x_diff in
  let y_offset := if dlt y_offset 0%Q then ((-1) * y_diff)%Q else y_diff in
  let len := (x_offset * x_offset + y_offset * y_offset)%Q in
  (mk (m_x a) (m_y a) consume_x consume_y
      (m_total_length a + len)%Q
      (m_points a ++ [(x_offset, y_offset, len)]),
   dgt consume_x 0%Q && dgt consume_y 0%Q).

(** The literal [.00001]. *)
Definition sq_length_tolerance : double := nearest_double (1 # 100000).

(** [x += w * wl * scale] *)
Definition add_weighted (x scale : option double) (w wl : double) : option double :=
  x ← x; scale ← scale; p ← dmul w wl; q ← dmul p scale; dadd x q.

(** [get_approximation(x, y)]: the pair written to [x] and [y], each a
    double or, as [None], an infinity or NaN. *)
Definition get_approximation (a : t) : option double * option double :=
  if dlt (Qabs (m_total_length a)) sq_length_tolerance
  then (Some 0%Q, Some 0%Q)
  else
    let scale := ddiv 1%Q (m_total_length a) in
    foldl (λ xy wp,
             let '(wx, wy, wl) := wp in
             (add_weighted (fst xy) scale wx wl, add_weighted (snd xy) scale wy wl))
          (Some 0%Q, Some 0%Q) (m_points a).

End curve_approximator.

(** *** [struct candidate] *)
Inductive position := FRONT | BACK.

Definition position_eqb (a b : position) : bool :=
  match a, b with
  | FRONT, FRONT | BACK, BACK => true
  | _, _ => false
  end.

(** [m_dx], [m_dy] start as [NAN], written [None]. *)
Record candidate := mk_candidate {
  m_position : position;
  m_index : nat;
  m_parent : ptr;
  m_directional : bool;
  m_x : double; m_y : double;
  m_dx : option double; m_dy : option double
}.

(** The loop of the constructor that feeds the approximator: [i] runs
    over [idxs]; [x], [y] keep their value when [vertex] finds nothing. *)
Fixpoint consume_vertices (pos : position) (g : geometry_type)
    (appx : curve_approximator.t) (x y : double) (idxs : list nat)
  : curve_approximator.t :=
  match idxs with
  | [] => appx
  | i :: idxs' =>
      let at_ := match pos with
                 | FRONT => i
                 | BACK => (g_size g - i) - 1
                 end%nat in
      let '(_, x', y') := vertex_at g at_ x y in
      let '(appx', more) := curve_approximator.consume appx x' y' in
      if more then consume_vertices pos g appx' x' y' idxs' else appx'
  end.

(** The constructor.  It reads the end vertex into the uninitialised
    [m_x], [m_y]: without such a vertex the result is undefined. *)
Definition candidate_new (h : heap) (position_ : position) (index_ : nat)
    (feature_ : ptr) (directional : bool) (heuristic_ : union_heuristic)
    (xy_distance : double * double) : option candidate :=
  geometry ← f_paths (h feature_) !! index_;
  v ← g_vertices geometry !! (match position_ with
                              | FRONT => 0
                              | BACK => g_size geometry - 1
                              end)%nat;
  let x := v_x v in
  let y := v_y v in
  match heuristic_ with
  | GREEDY =>
      Some (mk_candidate position_ index_ feature_ directional x y None None)
  | OBTUSE | ACUTE =>
      let appx := curve_approximator.init x y (fst xy_distance) (snd xy_distance) in
      let appx := consume_vertices position_ geometry appx x y
                    (seq 1 (g_size geometry - 1)) in
      let '(dx, dy) := curve_approximator.get_approximation appx in
      Some (mk_candidate position_ index_ feature_ directional x y dx dy)
  end.

(** *** [class candidate_comparator]; [tags] in the order of the set. *)
Fixpoint compare_tags `{ValueOps} (h : heap) (a b : candidate) (tags : list string) : bool :=
  match tags with
  | [] => false
  | tag :: tags' =>
      let a_val := get (h (m_parent a)) tag in
      let b_val := get (h (m_parent b)) tag in
      if value_lt a_val b_val then true
      else if value_gt a_val b_val then false
      else compare_tags h a b tags'
  end.

Definition candidate_comparator `{ValueOps} (tags : list string) (h : heap)
    (a b : candidate) : bool :=
  if dlt (m_x a) (m_x b) then true
  else if dgt (m_x a) (m_x b) then false
  else if dlt (m_y a) (m_y b) then true
  else if dgt (m_y a) (m_y b) then false
  else compare_tags h a b tags.

(** [multiset::emplace]: the new element goes after the last element
    that is not greater than it. *)
Fixpoint multiset_emplace (cmp : candidate → candidate → bool)
    (c : candidate) (cs : list candidate) : list candidate :=
  match cs with
  | [] => [c]
  | c' :: cs' => if cmp c c' then c :: cs else c' :: multiset_emplace cmp c cs'
  end.

Fixpoint add_candidates_from (cmp : candidate → candidate → bool) (h : heap)
    (feature_ : ptr) (heuristic : union_heuristic) (preserve_direction : bool)
    (distance : double * double) (idxs : list nat) (candidates : list candidate)
  : option (list candidate) :=
  match idxs with
  | [] => Some candidates
  | i :: idxs' =>
      geometry ← f_paths (h feature_) !! i;
      candidates' ←
        (if geometry_types_eqb (g_type geometry) LineString
            && (1 <? g_size geometry)%nat
         then
           front ← candidate_new h FRONT i feature_ preserve_direction heuristic distance;
           back ← candidate_new h BACK i feature_ preserve_direction heuristic distance;
           Some (multiset_emplace cmp back (multiset_emplace cmp front candidates))
         else Some candidates);
      add_candidates_from cmp h feature_ heuristic preserve_direction distance idxs' candidates'
  end.

Definition add_candidates (cmp : candidate → candidate → bool) (h : heap)
    (feature_ : ptr) (candidates : list candidate) (heuristic : union_heuristic)
    (preserve_direction : bool) (distance : double * double)
  : option (list candidate) :=
  add_candidates_from cmp h feature_ heuristic preserve_direction distance
    (seq 0 (num_geometries (h feature_))) candidates.

Definition unionable (f : feature) (tags : list string) : bool :=
  if (num_geometries f =? 0)%nat then false
  else forallb (has_key f) tags.

Fixpoint get_candidates_from `{ValueOps} (h : heap) (tags directional_tags : list string)
    (heuristic : union_heuristic) (distance : double * double)
    (layer : list ptr) (candidates : list candidate) : option (list candidate) :=
  match layer with
  | [] => Some candidates
  | feature_ :: layer' =>
      candidates' ←
        (if negb (unionable (h feature_) tags) then Some candidates
         else
           let preserve_direction := existsb (has_key (h feature_)) directional_tags in
           add_candidates (candidate_comparator tags h) h feature_ candidates
             heuristic preserve_direction distance);
      get_candidates_from h tags directional_tags heuristic distance layer' candidates'
  end.

Definition get_candidates `{ValueOps} (h : heap) (layer : list ptr)
    (tags directional_tags : list string) (heuristic : union_heuristic)
    (distance : double * double) : option (list candidate) :=
  get_candidates_from h tags directional_tags heuristic distance layer [].

(** *** Couples and scores *)
Definition score_t := Z.
Definition MAX_SCORE : score_t := 255.
Definition couple_t := (candidate * candidate)%type.

Definition make_couple (a b : candidate) : option couple_t :=
  if (m_index a =? m_index b)%nat && (m_parent a =? m_parent b)%nat then None
  else if negb (Bool.eqb (m_directional a) (m_directional b)) then None
  else if m_directional a && position_eqb (m_position a) (m_position b) then None
  else Some (a, b).

Definition greedy_score (couple : couple_t) : score_t :=
  if negb (position_eqb (m_position (fst couple)) (m_position (snd couple))) then 0
  else if position_eqb (m_position (fst couple)) BACK then MAX_SCORE / 2
  else MAX_SCORE.

(** [d == 0] on a double that may be [NAN]. *)
Definition is_zero (d : option double) : bool :=
  match d with
  | Some q => deq q 0%Q
  | None => false
  end.

(** The test that opens both angular scorers. *)
Definition degenerate (couple : couple_t) : bool :=
  (is_zero (m_dx (fst couple)) && is_zero (m_dy (fst couple)))
  || (is_zero (m_dx (snd couple)) && is_zero (m_dy (snd couple))).

(** The truncation of a rational towards zero. *)
Definition truncate (d : double) : Z := Z.quot (Qnum d) (Zpos (Qden d)).

(** The implicit conversion of a [double] to [score_t]: the fractional
    part is dropped, and the result is undefined when the truncated
    value is not that of an unsigned byte. *)
Definition double_to_score (d : double) : option score_t :=
  let t := truncate d in
  if (0 <=? t) && (t <=? MAX_SCORE) then Some t else None.

(** [dot] of the two direction vectors, as the code computes it: two
    products and their sum, each rounded; [None] when a component or a
    result is no finite double. *)
Definition dot (couple : couple_t) : option double :=
  dx1 ← m_dx (fst couple); dy1 ← m_dy (fst couple);
  dx2 ← m_dx (snd couple); dy2 ← m_dy (snd couple);
  xx ← dmul dx1 dx2; yy ← dmul dy1 dy2; dadd xx yy.

(** [MAX_SCORE * ((dot + 1) * .5)] *)
Definition scaled (d : double) : option double :=
  s ← dadd d 1%Q; h ← dmul s (1 # 2)%Q; dmul (inject_Z MAX_SCORE) h.

Definition obtuse_score (couple : couple_t) : option score_t :=
  if degenerate couple then Some MAX_SCORE
  else
    d ← dot couple;
    v ← scaled d;
    double_to_score v.

Definition acute_score (couple : couple_t) : option score_t :=
  if degenerate couple then Some MAX_SCORE
  else
    s ← obtuse_score couple;
    Some ((MAX_SCORE - s) mod 256).

(** [std::map<score_t, couple_t>]: the entries in ascending key order,
    one entry per key.  [emplace] leaves the map as it is when the key
    is taken. *)
Definition score_map := list (score_t * couple_t).

Fixpoint map_emplace (k : score_t) (v : couple_t) (m : score_map) : score_map :=
  match m with
  | [] => [(k, v)]
  | (k', v') :: m' =>
      if k <? k' then (k, v) :: m
      else if k =? k' then m
      else (k', v') :: map_emplace k v m'
  end.

(** The inner [while] of [score_candidates]: [rest] are the candidates
    after [c] in the multiset. *)
Fixpoint score_adjacent (cmp : candidate → candidate → bool)
    (scorer : couple_t → option score_t) (c : candidate)
    (rest : list candidate) (pairs : score_map) : option score_map :=
  match rest with
  | [] => Some pairs
  | next_candidate :: rest' =>
      if cmp c next_candidate then Some pairs
      else
        pairs' ← match make_couple c next_candidate with
                 | Some couple => s ← scorer couple; Some (map_emplace s couple pairs)
                 | None => Some pairs
                 end;
        score_adjacent cmp scorer c rest' pairs'
  end.

Fixpoint score_candidates_from (cmp : candidate → candidate → bool)
    (scorer : couple_t → option score_t) (candidates : list candidate)
    (pairs : score_map) : option score_map :=
  match candidates with
  | [] => Some pairs
  | c :: rest =>
      pairs' ← score_adjacent cmp scorer c rest pairs;
      score_candidates_from cmp scorer rest pairs'
  end.

Definition score_candidates (cmp : candidate → candidate → bool)
    (candidates : list candidate) (scorer : couple_t → option score_t)
  : option score_map :=
  score_candidates_from cmp scorer candidates [].

(** *** [do_union] *)

(** [paths().erase(paths().begin() + i)]; undefined unless [i] is a
    position of the container. *)
Definition erase_path (h : heap) (p : ptr) (i : nat) : option heap :=
  let paths := f_paths (h p) in
  if (i <? length paths)%nat
  then Some (<[p := set_paths (h p) (delete i paths)]> h)
  else None.

(** One turn of a copy loop: the vertex of [src] at [pos], when there is
    one, is added to [dst] by [move_to] or [line_to]. *)
Definition copy_vertex (src : geometry_type) (pos : nat) (moveto : bool)
    (dst : geometry_type) : geometry_type :=
  match g_vertices src !! pos with
  | Some v =>
      if command_eqb (v_cmd v) SEG_END then dst
      else if moveto then move_to dst (v_x v) (v_y v)
      else line_to dst (v_x v) (v_y v)
  | None => dst
  end.

(** The geometry the front to front case builds: the vertices of
    [src1] in reverse, the first by [move_to], then those of [src2]
    from its second one on. *)
Definition front_to_front (src1 src2 : geometry_type) : geometry_type :=
  let dst := foldl (λ d i, copy_vertex src1 ((g_size src1 - i) - 1) (i =? 0)%nat d)
               geometry_new (seq 0 (g_size src1)) in
  foldl (λ d i, copy_vertex src2 i false d) dst (seq 1 (g_size src2 - 1)).

Definition same_geometry (a b : candidate) : bool :=
  (m_index a =? m_index b)%nat && (m_parent a =? m_parent b)%nat.

(** The couple comes back as well: the first branch may swap it in
    place.  On a couple of one and the same geometry the appending loops
    would not end ([src.size()] grows with [dst]); [make_couple] never
    builds one, and the result is [None]. *)
Definition do_union (couple : couple_t) (h : heap) : option (couple_t * heap) :=
  if negb (position_eqb (m_position (fst couple)) (m_position (snd couple))) then
    let couple := if position_eqb (m_position (snd couple)) BACK
                  then (snd couple, fst couple) else couple in
    let '(first, second) := couple in
    if same_geometry first second then None else
    dst ← f_paths (h (m_parent first)) !! m_index first;
    src ← f_paths (h (m_parent second)) !! m_index second;
    let dst := foldl (λ d i, copy_vertex src i false d) dst
                 (seq 1 (g_size src - 1)) in
    let h := <[m_parent first :=
                 set_paths (h (m_parent first))
                   (<[m_index first := dst]> (f_paths (h (m_parent first))))]> h in
    h ← erase_path h (m_parent second) (m_index second);
    Some (couple, h)
  else
    let '(first, second) := couple in
    if position_eqb (m_position first) BACK then
      if same_geometry first second then None else
      dst ← f_paths (h (m_parent first)) !! m_index first;
      src ← f_paths (h (m_parent second)) !! m_index second;
      let dst := foldl (λ d i, copy_vertex src ((g_size src - i) - 1) false d) dst
                   (seq 1 (g_size src - 1)) in
      let h := <[m_parent first :=
                   set_paths (h (m_parent first))
                     (<[m_index first := dst]> (f_paths (h (m_parent first))))]> h in
      h ← erase_path h (m_parent second) (m_index second);
      Some (couple, h)
    else
      src1 ← f_paths (h (m_parent first)) !! m_index first;
      src2 ← f_paths (h (m_parent second)) !! m_index second;
      let dst := front_to_front src1 src2 in
      h ← erase_path h (m_parent first) (m_index first);
      h ← erase_path h (m_parent second) (m_index second);
      let h := <[m_parent first :=
                   set_paths (h (m_parent first))
                     (f_paths (h (m_parent first)) ++ [dst])]> h in
      Some (couple, h).

(** *** [sanitize_tags] *)

Fixpoint foldlM {A B} (f : A → B → option A) (a : A) (l : list B) : option A :=
  match l with
  | [] => Some a
  | b :: l' => a' ← f a b; foldlM f a' l'
  end.

(** The body of the first loop, at the entry of the first partner under
    [key]; [value] is the value the iterator reads there. *)
Definition sanitize_first `{ValueOps} (strategy : tag_strategy) (p1 p2 : ptr)
    (h : heap) (key : string) : option heap :=
  value ← f_attrs (h p1) !! key;
  if negb (has_key (h p2) key) then
    match strategy with
    | INTERSECT => f ← put (h p1) key value_null; Some (<[p1 := f]> h)
    | ACCUMULATE => Some h
    end
  else if value_ne value (get (h p2) key) then
    f ← put (h p1) key value_null; Some (<[p1 := f]> h)
  else Some h.

(** The body of the second loop, at the entry of the second partner. *)
Definition sanitize_second (p1 p2 : ptr) (h : heap) (key : string) : option heap :=
  value ← f_attrs (h p2) !! key;
  if negb (has_key (h p1) key)
  then Some (<[p1 := put_new (h p1) key value]> h)
  else Some h.

Definition keys (f : feature) : list string := (map_to_list (f_attrs f)).*1.

Definition sanitize_tags `{ValueOps} (strategy : tag_strategy) (couple : couple_t)
    (h : heap) : option heap :=
  let p1 := m_parent (fst couple) in
  let p2 := m_parent (snd couple) in
  h ← foldlM (sanitize_first strategy p1 p2) h (keys (h p1));
  match strategy with
  | ACCUMULATE => foldlM (sanitize_second p1 p2) h (keys (h p2))
  | INTERSECT => Some h
  end.

(** *** [union_candidates] *)

(** The state of the walk over the scored couples: the features, the
    set [unioned], and, as ghost state, the couples that went through
    [do_union], oldest first. *)
Record walk := mk_walk {
  w_heap : heap;
  w_unioned : gset Z;
  w_done : list couple_t
}.

Definition union_entry `{ValueOps} (strategy : tag_strategy) (w : walk)
    (entry : score_t * couple_t) : option walk :=
  let couple := snd entry in
  let h := w_heap w in
  if bool_decide (f_id (h (m_parent (fst couple))) ∈ w_unioned w)
     || bool_decide (f_id (h (m_parent (snd couple))) ∈ w_unioned w)
  then Some w
  else
    '(couple, h) ← do_union couple h;
    h ← sanitize_tags strategy couple h;
    Some (mk_walk h
            ({[f_id (h (m_parent (snd couple)))]}
               ∪ ({[f_id (h (m_parent (fst couple)))]} ∪ w_unioned w))
            (w_done w ++ [couple])).

Definition union_walk `{ValueOps} (scored : score_map) (strategy : tag_strategy)
    (h : heap) : option walk :=
  foldlM (union_entry strategy) (mk_walk h ∅ []) scored.

(** The returned count is [unioned.size()]. *)
Definition union_candidates `{ValueOps} (scored : score_map) (strategy : tag_strategy)
    (ids_tag : option string) (h : heap) : option (nat * heap) :=
  w ← union_walk scored strategy h;
  Some (size (w_unioned w), w_heap w).

Definition cull (h : heap) (layer : list ptr) : list ptr :=
  filter (λ p, num_geometries (h p) ≠ 0%nat) layer.

(** *** [class unionizer] *)
Record unionizer := mk_unionizer {
  m_heuristic : union_heuristic;
  m_strategy : tag_strategy;
  m_keep_ids_tag : option string;
  m_max_iterations : N;
  m_match_tags : list string;
  m_preserve_direction_tags : list string;
  m_angle_union_sample_ratio : double
}.

Definition scorer_of (heuristic : union_heuristic) : couple_t → option score_t :=
  match heuristic with
  | GREEDY => λ c, Some (greedy_score c)
  | OBTUSE => obtuse_score
  | ACUTE => acute_score
  end.

Fixpoint process_loop `{ValueOps} (u : unionizer) (distance : double * double)
    (iterations : nat) (layer : list ptr) (h : heap) : option (list ptr * heap) :=
  match iterations with
  | O => Some (cull h layer, h)
  | S iterations' =>
      candidates ← get_candidates h layer (m_match_tags u)
                     (m_preserve_direction_tags u) (m_heuristic u) distance;
      scored ← score_candidates (candidate_comparator (m_match_tags u) h)
                 candidates (scorer_of (m_heuristic u));
      '(count, h) ← union_candidates scored (m_strategy u) (m_keep_ids_tag u) h;
      if (count =? 0)%nat then Some (cull h layer, h)
      else process_loop u distance iterations' layer h
  end.

(** [process(layer, map)]; the map gives the width and the height of
    its current extent. *)
Definition process `{ValueOps} (u : unionizer) (layer : list ptr) (h : heap)
    (extent_width extent_height : double) : option (list ptr * heap) :=
  let width_units := (extent_width * m_angle_union_sample_ratio u)%Q in
  let height_units := (extent_height * m_angle_union_sample_ratio u)%Q in
  process_loop u (width_units, height_units) (N.to_nat (m_max_iterations u)) layer h.

(** *** [create_unionizer] *)

Definition collect_tags (child : option ptree) : list string :=
  match child with
  | Some c => foldl (λ acc kv, set_insert (data (snd kv)) acc) [] (children c)
  | None => []
  end.

Definition size_t_max : N := 2 ^ 64 - 1.

Definition create_unionizer `{Translators} (config : ptree) : result unionizer :=
  let requested_heuristic := get_string_or config "union_heuristic" "greedy" in
  match string_to_heuristic requested_heuristic with
  | None =>
      Throw (runtime_error
               (requested_heuristic ++ " is not supported, try `greedy, obtuse or acute'"))
  | Some heuristic =>
      let requested_strategy := get_string_or config "tag_strategy" "intersect" in
      match string_to_strategy requested_strategy with
      | None =>
          Throw (runtime_error
                   (requested_strategy ++ " is not supported, try `intersect'"))
      | Some strategy =>
          let keep_ids_tag := get_optional_string config "keep_ids_tag" in
          let max_iterations := get_size_t_or config "max_iterations" size_t_max in
          let match_ := collect_tags (get_child_optional config "match_tags") in
          let direction :=
            collect_tags (get_child_optional config "preserve_direction_tags") in
          let angle_union_sample_ratio :=
            get_double_or config "angle_union_sample_ratio" (1 # 10)%Q in
          if dle angle_union_sample_ratio 0%Q || dgt angle_union_sample_ratio (1 # 2)%Q
          then Throw (runtime_error "Please make sure 0 < angle_union_sample_ratio <= .5")
          else Ok (mk_unionizer heuristic strategy keep_ids_tag max_iterations
                     match_ direction angle_union_sample_ratio)
      end
  end.

End Unionizer.

(** ** The adminizer ([src/post_process/adminizer.cpp]) *)

Module Adminizer.
Import Mapnik Ptree.

(** *** The boost::geometry models the code instantiates *)
Definition point_2d := (double * double)%type.
Definition box_2d := (point_2d * point_2d)%type.
Definition linestring_2d := list point_2d.
Definition multi_point_2d := list point_2d.
Definition multi_linestring_2d := list linestring_2d.
Record polygon_2d := mk_polygon {
  outer : list point_2d;
  inners : list (list point_2d)
}.

(** [typedef std::pair<box_2d, unsigned int> value] *)
Definition value_t := (box_2d * N)%type.

(** The three instances of [GeomType]. *)
Inductive geom :=
| multi_point (g : multi_point_2d)
| multi_linestring (g : multi_linestring_2d)
| polygon (g : polygon_2d).

(** What boost::geometry provides: the [intersects] predicate, the
    envelope of a geometry, and the packed R-tree with its [intersects]
    query, which gives back values that were packed, in an order of its
    own. *)
Class BoostGeometry := {
  bg_intersects_point : point_2d → polygon_2d → bool;
  bg_intersects_linestring : linestring_2d → polygon_2d → bool;
  bg_intersects_polygon : polygon_2d → polygon_2d → bool;
  return_envelope : geom → box_2d;
  rtree : Type;
  rtree_pack : list value_t → rtree;
  rtree_query : rtree → box_2d → list value_t;
  rtree_query_packed : ∀ values box v,
    v ∈ rtree_query (rtree_pack values) box → v ∈ values
}.

(** [mapnik::datasource]: the features a query returns, in iteration
    order; [datasource_cache::create] may throw. *)
Definition datasource := box2d → list feature.

Class DatasourceCache := {
  create : gmap string string → result datasource
}.

Definition uint_max : N := 2 ^ 32 - 1.
Definition uint_incr (n : N) : N := ((n + 1) mod 2 ^ 32)%N.

(** *** [struct entry] *)
Record entry := mk_entry {
  e_polygon : polygon_2d;
  e_value : value;
  e_index : N
}.

(** *** [struct param_updater] *)
Record param_updater := mk_updater {
  m_feature : feature;
  m_param_name : string;
  m_index : N;
  m_finished : bool
}.

Definition param_updater_new (feat : feature) (param_name : string) : param_updater :=
  mk_updater feat param_name uint_max false.

(** [operator()(const entry &e)] *)
Definition update (u : param_updater) (e : entry) : param_updater :=
  if (e_index e <? m_index u)%N
  then mk_updater (put_new (m_feature u) (m_param_name u) (e_value e))
                  (m_param_name u) (e_index e) (e_index e =? 0)%N
  else u.

(** *** [intersects_iterator<GeomType>] *)
Definition intersects `{BoostGeometry} (g : geom) (poly : polygon_2d) : bool :=
  match g with
  | multi_point ps => existsb (λ point, bg_intersects_point point poly) ps
  | multi_linestring ls => existsb (λ line, bg_intersects_linestring line poly) ls
  | polygon p => bg_intersects_polygon p poly
  end.

(** [operator=(const value &v)]; [m_entries[v.second]] is undefined
    outside the vector. *)
Definition assign `{BoostGeometry} (g : geom) (entries : list entry)
    (u : param_updater) (v : value_t) : option param_updater :=
  e ← entries !! N.to_nat (snd v);
  Some (if intersects g (e_polygon e) then update u e else u).

Definition try_update `{BoostGeometry} (index : rtree) (g : geom)
    (entries : list entry) (u : param_updater) : option param_updater :=
  Unionizer.foldlM (assign g entries) u (rtree_query index (return_envelope g)).

(** *** Lifting mapnik geometries *)

(** The vertices the iteration [rewind(0)], [vertex(&x, &y)] gives
    before it answers [SEG_END]. *)
Fixpoint iterate (vs : list vertex) : list vertex :=
  match vs with
  | [] => []
  | v :: vs' => if command_eqb (v_cmd v) SEG_END then [] else v :: iterate vs'
  end.

Definition make_boost_point (g : geometry_type) : multi_point_2d :=
  map (λ v, (v_x v, v_y v)) (iterate (g_vertices g)).

Definition close_to (x y prev_x prev_y : double) : bool :=
  dlt (Qabs (x - prev_x)) (1 # 1000000000000)%Q
  && dlt (Qabs (y - prev_y)) (1 # 1000000000000)%Q.

(** [rings.back().push_back(pt)]; undefined on no ring at all. *)
Definition push_back_last (rings : list (list point_2d)) (pt : point_2d)
  : option (list (list point_2d)) :=
  match reverse rings with
  | [] => None
  | last_ :: before => Some (reverse before ++ [last_ ++ [pt]])
  end.

(** The state of the loop of [make_boost_linestring]: [line], [prev_x],
    [prev_y]. *)
Definition linestring_step (st : multi_linestring_2d * double * double) (v : vertex)
  : option (multi_linestring_2d * double * double) :=
  let '(line, prev_x, prev_y) := st in
  let x := v_x v in
  let y := v_y v in
  match v_cmd v with
  | SEG_MOVETO => Some (line ++ [[(x, y)]], x, y)
  | SEG_LINETO =>
      if close_to x y prev_x prev_y then Some (line, prev_x, prev_y)
      else line' ← push_back_last line (x, y); Some (line', x, y)
  | _ => Some (line, x, y)
  end.

Definition make_boost_linestring (g : geometry_type) : option multi_linestring_2d :=
  st ← Unionizer.foldlM linestring_step ([], 0%Q, 0%Q) (iterate (g_vertices g));
  Some (fst (fst st)).

(** The state of the loop of [make_boost_polygon]: [poly], [prev_x],
    [prev_y], [ring_count]. *)
Definition polygon_step (st : polygon_2d * double * double * N) (v : vertex)
  : option (polygon_2d * double * double * N) :=
  let '(poly, prev_x, prev_y, ring_count) := st in
  let x := v_x v in
  let y := v_y v in
  match v_cmd v with
  | SEG_MOVETO =>
      let poly' :=
        if (ring_count =? 0)%N
        then mk_polygon (outer poly ++ [(x, y)]) (inners poly)
        else mk_polygon (outer poly) (inners poly ++ [[(x, y)]]) in
      Some (poly', x, y, uint_incr ring_count)
  | SEG_LINETO =>
      if close_to x y prev_x prev_y then Some (poly, prev_x, prev_y, ring_count)
      else if (ring_count =? 1)%N
      then Some (mk_polygon (outer poly ++ [(x, y)]) (inners poly), x, y, ring_count)
      else
        inners' ← push_back_last (inners poly) (x, y);
        Some (mk_polygon (outer poly) inners', x, y, ring_count)
  | _ => Some (poly, x, y, ring_count)
  end.

Definition make_boost_polygon (g : geometry_type) : option polygon_2d :=
  st ← Unionizer.foldlM polygon_step (mk_polygon [] [], 0%Q, 0%Q, 0%N)
         (iterate (g_vertices g));
  Some (fst (fst (fst st))).

(** *** [class adminizer] *)
Record adminizer := mk_adminizer {
  a_param_name : string;
  a_datasource : datasource
}.

(** The constructor: [param_name] is read without a default. *)
Definition adminizer_new `{DatasourceCache} (config : ptree) : result adminizer :=
  match get_string config "param_name" with
  | Throw e => Throw e
  | Ok param_name =>
      let params :=
        match get_child_optional config "datasource" with
        | Some datasource_config =>
            foldl (λ (params : gmap string string) kv,
                     <[fst kv := data (snd kv)]> params)
                  ∅ (children datasource_config)
        | None => ∅
        end in
      match create params with
      | Throw e => Throw e
      | Ok ds => Ok (mk_adminizer param_name ds)
      end
  end.

Definition create_adminizer `{DatasourceCache} (config : ptree) : result adminizer :=
  adminizer_new config.

(** The inner loop of [make_entries], over the paths of one feature of
    the featureset; the state is [entries] and [index].  The entry
    copies [param]: its constructor builds [value] from a named
    reference. *)
Definition entry_step (param : value) (st : list entry * N) (g : geometry_type)
  : option (list entry * N) :=
  let '(entries, index) := st in
  if geometry_types_eqb (g_type g) Polygon
  then poly ← make_boost_polygon g;
       Some (entries ++ [mk_entry poly param index], uint_incr index)
  else Some (entries, index).

Definition feature_entries (a : adminizer) (st : list entry * N) (f : feature)
  : option (list entry * N) :=
  let param := get f (a_param_name a) in
  Unionizer.foldlM (entry_step param) st (f_paths f).

Definition make_entries (a : adminizer) (env : box2d) : option (list entry) :=
  let fset := a_datasource a env in
  st ← Unionizer.foldlM (feature_entries a) ([], 0%N) fset;
  Some (fst st).

(** [make_index]: the position [i] is stored as an [unsigned int]. *)
Definition make_index `{BoostGeometry} (entries : list entry) : rtree :=
  rtree_pack
    (imap (λ i e, (return_envelope (polygon (e_polygon e)),
                   (N.of_nat i mod 2 ^ 32)%N))
          entries).

(** The body of the loop of [adminize_feature] before its quick exit. *)
Definition adminize_geometry `{BoostGeometry} (index : rtree) (entries : list entry)
    (updater : param_updater) (g : geometry_type) : option param_updater :=
  match g_type g with
  | Point => try_update index (multi_point (make_boost_point g)) entries updater
  | LineString =>
      multi_line ← make_boost_linestring g;
      try_update index (multi_linestring multi_line) entries updater
  | Polygon =>
      poly ← make_boost_polygon g;
      try_update index (polygon poly) entries updater
  | Unknown => Some updater
  end.

Fixpoint adminize_paths `{BoostGeometry} (index : rtree) (entries : list entry)
    (updater : param_updater) (paths : list geometry_type) : option param_updater :=
  match paths with
  | [] => Some updater
  | g :: paths' =>
      updater' ← adminize_geometry index entries updater g;
      if m_finished updater' then Some updater'
      else adminize_paths index entries updater' paths'
  end.

Definition adminize_feature `{BoostGeometry} (a : adminizer) (f : feature)
    (index : rtree) (entries : list entry) : option feature :=
  updater ← adminize_paths index entries
               (param_updater_new f (a_param_name a)) (f_paths f);
  Some (m_feature updater).

(** [envelope(layer)]: [feature_envelope] is [feature->envelope()] of
    mapnik.  The state of the loop is [result] and [first]. *)
Definition envelope_step (feature_envelope : feature → box2d)
    (st : box2d * bool) (f : feature) : box2d * bool :=
  let '(result, first) := st in
  if first then (feature_envelope f, first)
  else (expand_to_include result (feature_envelope f), first).

Definition envelope (feature_envelope : feature → box2d) (layer : list feature) : box2d :=
  fst (foldl (envelope_step feature_envelope) (box2d_default, true) layer).

(** [process(layer)]: the features of the layer after the pass. *)
Definition process `{BoostGeometry} (feature_envelope : feature → box2d)
    (a : adminizer) (layer : list feature) : option (list feature) :=
  let env := envelope feature_envelope layer in
  entries ← make_entries a env;
  let index := make_index entries in
  mapM (λ f, adminize_feature a f index entries) layer.

End Adminizer.

(** ** What the specification says, where it is compared with the code *)

Module Spec.
Import Mapnik Unionizer.

(** "Compute the layer envelope as the union of per-feature envelopes":
    the first envelope expanded by every later one. *)
Definition envelope_union (feature_envelope : feature → box2d)
    (layer : list feature) : box2d :=
  match layer with
  | [] => box2d_default
  | f :: rest => foldl (λ b g, expand_to_include b (feature_envelope g))
                   (feature_envelope f) rest
  end.

(** "For every attribute key in A: if B does not have the key, or the
    values differ, set A's value to null." *)
Definition intersect_pass `{ValueOps} (a b : gmap string value) : gmap string value :=
  map_imap (λ key v,
              match b !! key with
              | None => Some value_null
              | Some w => Some (if value_ne v w then value_null else v)
              end) a.

(** "then for every attribute key in B not present in A, copy it onto A" *)
Definition copy_missing (a b : gmap string value) : gmap string value := a ∪ b.

Definition accumulate `{ValueOps} (a b : gmap string value) : gmap string value :=
  copy_missing (intersect_pass a b) b.

(** "dot of the two direction vectors" *)
Definition dot_product (couple : couple_t) : option Q :=
  dx1 ← m_dx (fst couple); dy1 ← m_dy (fst couple);
  dx2 ← m_dx (snd couple); dy2 ← m_dy (snd couple);
  Some (dx1 * dx2 + dy1 * dy2)%Q.

(** "255 when either direction vector is (0, 0), and otherwise 255 times
    half of (dot plus 1)" *)
Definition obtuse_value (couple : couple_t) : option Q :=
  if degenerate couple then Some (inject_Z 255)
  else d ← dot_product couple; Some (255 * ((d + 1) / 2))%Q.

(** The claim about the obtuse score: the score is that value and lies
    in the range of an unsigned byte. *)
Definition obtuse_claim (couple : couple_t) : Prop :=
  ∃ s v, obtuse_score couple = Some s
         ∧ obtuse_value couple = Some v
         ∧ (inject_Z s == v)%Q
         ∧ 0 ≤ s ≤ 255.

(** "255 minus the obtuse score of the same pair" *)
Definition acute_claim (couple : couple_t) : Prop :=
  acute_score couple = (λ s, 255 - s) <$> obtuse_score couple.

(** "every compatible pair drawn from every adjacency group is
    collected, together with its score": the couples of a candidate with
    the later candidates of its group, group after group. *)
Fixpoint adjacent_pairs (cmp : candidate → candidate → bool)
    (scorer : couple_t → option score_t) (c : candidate) (rest : list candidate)
  : list (option score_t * couple_t) :=
  match rest with
  | [] => []
  | n :: rest' =>
      if cmp c n then []
      else match make_couple c n with
           | Some couple => [(scorer couple, couple)]
           | None => []
           end ++ adjacent_pairs cmp scorer c rest'
  end.

Fixpoint compatible_pairs (cmp : candidate → candidate → bool)
    (scorer : couple_t → option score_t) (candidates : list candidate)
  : list (option score_t * couple_t) :=
  match candidates with
  | [] => []
  | c :: rest => adjacent_pairs cmp scorer c rest ++ compatible_pairs cmp scorer rest
  end.

End Spec.

(** ** Concrete inputs *)

Module Examples.
Import Mapnik Ptree Unionizer.

(** Structural comparison of values, for the examples. *)
Definition value_eqb (a b : value) : bool :=
  match a, b with
  | value_null, value_null => true
  | value_integer i, value_integer j => (i =? j)%Z
  | value_double d, value_double e => deq d e
  | value_bool x, value_bool y => Bool.eqb x y
  | value_unicode_string s, value_unicode_string t => String.eqb s t
  | _, _ => false
  end.

Definition value_ltb (a b : value) : bool :=
  match a, b with
  | value_integer i, value_integer j => (i <? j)%Z
  | value_double d, value_double e => dlt d e
  | value_unicode_string s, value_unicode_string t => String.ltb s t
  | _, _ => false
  end.

#[export] Instance example_value_ops : ValueOps := {|
  value_ne a b := negb (value_eqb a b);
  value_lt := value_ltb;
  value_gt a b := value_ltb b a
|}.

(** A linestring through the given points. *)
Definition linestring (pts : list (double * double)) : geometry_type :=
  mk_geometry LineString
    (imap (λ i pt, mk_vertex (fst pt) (snd pt)
                     (if (i =? 0)%nat then SEG_MOVETO else SEG_LINETO)) pts).

Definition ring (pts : list (double * double)) : geometry_type :=
  mk_geometry Polygon
    (imap (λ i pt, mk_vertex (fst pt) (snd pt)
                     (if (i =? 0)%nat then SEG_MOVETO else SEG_LINETO)) pts).

Definition point (x y : double) : geometry_type :=
  mk_geometry Point [mk_vertex x y SEG_MOVETO].

Definition str (s : string) : value := value_unicode_string s.

(** The bounding box of all vertices of a feature, standing in for
    [feature->envelope()]. *)
Definition vertex_box (v : vertex) : box2d :=
  mk_box2d (v_x v) (v_y v) (v_x v) (v_y v).

Definition feature_box (f : feature) : box2d :=
  match flat_map g_vertices (f_paths f) with
  | [] => box2d_default
  | v :: vs => foldl (λ b w, expand_to_include b (vertex_box w)) (vertex_box v) vs
  end.

(** A heap over a list of features: address [i] holds the [i]-th one. *)
Definition empty_feature : feature := mk_feature 0 [] ∅.
Definition heap_of (fs : list feature) : nat → feature :=
  λ p, default empty_feature (fs !! p).

(** A reader of unsigned decimal numbers, standing in for the stream
    translators of boost. *)
Definition digit (a : ascii) : option N :=
  let n := N_of_ascii a in
  if (48 <=? n)%N && (n <=? 57)%N then Some (n - 48)%N else None.

Fixpoint digits (s : string) (acc : N) : option N :=
  match s with
  | EmptyString => Some acc
  | String a s' => d ← digit a; digits s' (10 * acc + d)%N
  end.

Definition read_size_t (s : string) : option N :=
  match s with
  | EmptyString => None
  | _ => digits s 0%N
  end.

Fixpoint split_dot (s : string) : string * option string :=
  match s with
  | EmptyString => (EmptyString, None)
  | String a s' =>
      if Ascii.eqb a "."%char then (EmptyString, Some s')
      else let '(i, f) := split_dot s' in (String a i, f)
  end.

Definition read_unsigned (s : string) : option double :=
  let '(i, f) := split_dot s in
  n ← read_size_t i;
  match f with
  | None => Some (inject_Z (Z.of_N n))
  | Some fs =>
      m ← digits fs 0%N;
      Some (inject_Z (Z.of_N n)
            + inject_Z (Z.of_N m) / inject_Z (10 ^ Z.of_nat (String.length fs)))%Q
  end.

Definition read_double (s : string) : option double :=
  match s with
  | String "-"%char s' => Qopp <$> read_unsigned s'
  | _ => read_unsigned s
  end.

#[export] Instance example_translators : Translators := {|
  to_double := read_double;
  to_size_t := read_size_t
|}.

(** A datasource cache whose only plugin, [list], serves a fixed list
    of features; without a [type] the factory throws. *)
Definition example_cache (served : list feature) : Adminizer.DatasourceCache := {|
  Adminizer.create params :=
    match params !! "type" with
    | Some "list" => Ok (λ _, served)
    | _ => Throw (datasource_exception "Could not create datasource")
    end
|}.

(** A spatial backend on bounding boxes, standing in for boost::geometry:
    a geometry meets a polygon when one of its points lies in the box of
    the outer ring; the R-tree is the list of its values. *)
Definition point_box (pt : Adminizer.point_2d) : Adminizer.box_2d := (pt, pt).

Definition box_join (a b : Adminizer.box_2d) : Adminizer.box_2d :=
  ((if dlt (fst (fst b)) (fst (fst a)) then fst (fst b) else fst (fst a),
    if dlt (snd (fst b)) (snd (fst a)) then snd (fst b) else snd (fst a)),
   (if dgt (fst (snd b)) (fst (snd a)) then fst (snd b) else fst (snd a),
    if dgt (snd (snd b)) (snd (snd a)) then snd (snd b) else snd (snd a))).

Definition points_box (pts : list Adminizer.point_2d) : Adminizer.box_2d :=
  match pts with
  | [] => ((0, 0), (-1, -1))%Q
  | pt :: pts' => foldl (λ b q, box_join b (point_box q)) (point_box pt) pts'
  end.

Definition box_meets (a b : Adminizer.box_2d) : bool :=
  dle (fst (fst a)) (fst (snd b)) && dle (fst (fst b)) (fst (snd a))
  && dle (snd (fst a)) (snd (snd b)) && dle (snd (fst b)) (snd (snd a)).

Definition geom_points (g : Adminizer.geom) : list Adminizer.point_2d :=
  match g with
  | Adminizer.multi_point ps => ps
  | Adminizer.multi_linestring ls => concat ls
  | Adminizer.polygon p => Adminizer.outer p
  end.

Definition in_polygon_box (pt : Adminizer.point_2d) (poly : Adminizer.polygon_2d) : bool :=
  box_meets (point_box pt) (points_box (Adminizer.outer poly)).

#[export] Instance example_backend : Adminizer.BoostGeometry := {|
  Adminizer.bg_intersects_point := in_polygon_box;
  Adminizer.bg_intersects_linestring line poly :=
    existsb (λ pt, in_polygon_box pt poly) line;
  Adminizer.bg_intersects_polygon p poly :=
    box_meets (points_box (Adminizer.outer p)) (points_box (Adminizer.outer poly));
  Adminizer.return_envelope g := points_box (geom_points g);
  Adminizer.rtree := list Adminizer.value_t;
  Adminizer.rtree_pack values := values;
  Adminizer.rtree_query index box :=
    List.filter (λ v, box_meets (fst v) box) index;
  Adminizer.rtree_query_packed values box v Hv :=
    proj2 (list_elem_of_In _ _)
      (proj1 (proj1 (List.filter_In _ _ _) (proj1 (list_elem_of_In _ _) Hv)))
|}.

End Examples.

Module Inputs.
Import Mapnik Unionizer Examples.

(** Two features far apart. *)
Definition near : feature :=
  mk_feature 1 [linestring [(0, 0); (1, 1)]%Q] ∅.
Definition far : feature :=
  mk_feature 2 [linestring [(5, 5); (6, 6)]%Q] ∅.

(** Four linestrings that leave the origin, and a fifth with no length. *)
Definition star : list feature :=
  [ mk_feature 1 [linestring [(0, 0); (2, 0)]%Q] ∅;
    mk_feature 2 [linestring [(0, 0); (4, 0)]%Q] ∅;
    mk_feature 3 [linestring [(0, 0); (1, 0)]%Q] ∅;
    mk_feature 4 [linestring [(0, 0); (0, 1)]%Q] ∅;
    mk_feature 5 [linestring [(0, 0); (0, 0)]%Q] ∅ ].

(** The sample budget of a map of extent 100 by 100 at the default ratio. *)
Definition budget : double * double := (100 * (1 # 10), 100 * (1 # 10))%Q.

(** The couple of the front ends of the features at [p] and [q] of
    [star], as the constructor and [make_couple] build it. *)
Definition front_couple (heuristic : union_heuristic) (p q : nat) : option couple_t :=
  a ← candidate_new (heap_of star) FRONT 0 p false heuristic budget;
  b ← candidate_new (heap_of star) FRONT 0 q false heuristic budget;
  make_couple a b.

Definition front (p : nat) (dx dy : double) : candidate :=
  mk_candidate FRONT 0 p false 0%Q 0%Q (Some dx) (Some dy).

(** Two linestrings with a bend that leave the origin, and the couple of
    their front ends. *)
Definition bent : list feature :=
  [ mk_feature 1 [linestring [(0, 0); (0, 1); (0, 2)]%Q] ∅;
    mk_feature 2 [linestring [(0, 0); (2, -1); (0, 2)]%Q] ∅ ].

Definition bent_couple : option couple_t :=
  a ← candidate_new (heap_of bent) FRONT 0 0 false OBTUSE budget;
  b ← candidate_new (heap_of bent) FRONT 0 1 false OBTUSE budget;
  make_couple a b.

(** The couples of features 2 and 3, and 2 and 4, of [star]. *)
Definition right_angle : couple_t :=
  (front 2%nat (-1) 0, front 3%nat 0 (-1))%Q.
Definition with_point : couple_t :=
  (front 2%nat (-1) 0, front 4%nat 0 0)%Q.
(** A couple whose directions are the double nearest to 3/5 along the
    x axis, and the unit vector of that axis. *)
Definition slanted : couple_t :=
  (front 2%nat (nearest_double (3 # 5)) 0, front 3%nat 1 0)%Q.

(** The two roads of the accumulate scenario; the back end of the first
    meets the front end of the second. *)
Definition tags_a : gmap string value :=
  {[ "road" := str "main"; "ref" := str "A1" ]}.
Definition tags_b : gmap string value :=
  {[ "road" := str "main"; "name" := str "X" ]}.

Definition roads : list feature :=
  [ mk_feature 1 [linestring [(0, 0); (1, 0)]%Q] tags_a;
    mk_feature 2 [linestring [(1, 0); (2, 0)]%Q] tags_b ].

Definition roads_couple : couple_t :=
  (mk_candidate BACK 0 0 false 1%Q 0%Q None None,
   mk_candidate FRONT 0 1 false 1%Q 0%Q None None).

(** Two separate pairs of linestrings that continue one another. *)
Definition chains : list feature :=
  [ mk_feature 1 [linestring [(0, 0); (1, 0)]%Q] ∅;
    mk_feature 2 [linestring [(1, 0); (2, 0)]%Q] ∅;
    mk_feature 3 [linestring [(5, 0); (6, 0)]%Q] ∅;
    mk_feature 4 [linestring [(6, 0); (7, 0)]%Q] ∅ ].

Definition greedy (c : couple_t) : option score_t := Some (greedy_score c).

(** The end at [(x, 0)] of the only linestring of the feature at [p]. *)
Definition end_of (pos : position) (p : nat) (x : double) : candidate :=
  mk_candidate pos 0 p false x 0%Q None None.

Definition greedy_once : unionizer :=
  mk_unionizer GREEDY INTERSECT None 1 [] [] (1 # 10)%Q.

(** Three linestrings in a row, the last one drawn backwards. *)
Definition row : list feature :=
  [ mk_feature 1 [linestring [(0, 0); (1, 0)]%Q] ∅;
    mk_feature 2 [linestring [(1, 0); (2, 0)]%Q] ∅;
    mk_feature 3 [linestring [(3, 0); (2, 0)]%Q] ∅ ].

Definition row_scored : option score_map :=
  candidates ← get_candidates (heap_of row) [0; 1; 2]%nat [] [] GREEDY budget;
  score_candidates (candidate_comparator [] (heap_of row)) candidates greedy.

(** One feature with three, and one with two, linestrings that start at
    the origin. *)
Definition spoke (x y : double) : geometry_type := linestring [(0, 0); (x, y)]%Q.

Definition east : geometry_type := spoke 1%Q 0%Q.
Definition north : geometry_type := spoke 0%Q 1%Q.
Definition west : geometry_type := spoke (-1)%Q 0%Q.

Definition fork3 : list feature := [ mk_feature 1 [east; north; west] ∅ ].
Definition fork2 : list feature := [ mk_feature 1 [east; north] ∅ ].

Definition spoke_front (index : nat) : candidate :=
  mk_candidate FRONT index 0 false 0%Q 0%Q None None.

(** The administrative polygons of the lowest-index scenario, and a
    line that no entry comes from. *)
Definition square (side : double) : geometry_type :=
  ring [(0, 0); (side, 0); (side, side); (0, side); (0, 0)]%Q.

Definition regions : list feature :=
  [ mk_feature 10 [square 1; point 9 9; square 2]%Q {[ "iso" := str "P0" ]};
    mk_feature 11 [spoke 3 3; square 4]%Q {[ "iso" := str "P1" ]} ].

Definition admin : Adminizer.adminizer :=
  Adminizer.mk_adminizer "iso" (λ _, regions).

Definition place : feature :=
  mk_feature 7 [point (1 # 2) (1 # 2); point (3 # 2) (3 # 2)]%Q ∅.

Definition entry_of (side : double) (name : string) (index : N) : Adminizer.entry :=
  Adminizer.mk_entry
    (Adminizer.mk_polygon [(0, 0); (side, 0); (side, side); (0, side)]%Q [])
    (str name) index.

(** Configurations. *)
Definition config_of (settings : list (string * string)) : Ptree.ptree :=
  Ptree.Node "" (map (λ kv, (fst kv, Ptree.Node (snd kv) [])) settings).

End Inputs.

(** ** Notions the properties are stated with *)

Module Notions.
Import Mapnik Unionizer.

(** [h'] is [h] but for the attributes of the feature at [p1]. *)
Definition attrs_frame (p1 : nat) (h h' : nat → feature) : Prop :=
  (∀ q, q ≠ p1 → h' q = h q)
  ∧ f_id (h' p1) = f_id (h p1)
  ∧ f_paths (h' p1) = f_paths (h p1).

(** What the first loop of [sanitize_tags] leaves under [key]. *)
Definition first_pass `{ValueOps} (p1 p2 : nat) (strategy : tag_strategy)
    (h : nat → feature) (key : string) : option value :=
  match f_attrs (h p1) !! key with
  | Some v =>
      match f_attrs (h p2) !! key with
      | Some w => Some (if value_ne v w then value_null else v)
      | None => Some (match strategy with INTERSECT => value_null | ACCUMULATE => v end)
      end
  | None => None
  end.

(** No feature changes its id from [h] to [h']. *)
Definition same_ids (h h' : nat → feature) : Prop := ∀ q, f_id (h' q) = f_id (h q).

(** The ids and the addresses of the two features of a couple. *)
Definition couple_ids (h : nat → feature) (c : couple_t) : list Z :=
  [f_id (h (m_parent (fst c))); f_id (h (m_parent (snd c)))].

Definition couple_ptrs (c : couple_t) : list nat :=
  [m_parent (fst c); m_parent (snd c)].

(** The merges among [done] that a feature takes part in, found by its
    id and by its address. *)
Definition merges_of_id (h : nat → feature) (id : Z) (done : list couple_t)
  : list couple_t :=
  filter (λ c, id ∈ couple_ids h c) done.

Definition merges_of (p : nat) (done : list couple_t) : list couple_t :=
  filter (λ c, p ∈ couple_ptrs c) done.

(** The invariant of the walk that started in [h0]. *)
Definition walk_inv (h0 : nat → feature) (w : walk) : Prop :=
  same_ids h0 (w_heap w)
  ∧ (∀ id, id ∈ w_unioned w ↔ ∃ c, c ∈ w_done w ∧ id ∈ couple_ids h0 c)
  ∧ (∀ id, (length (merges_of_id h0 id (w_done w)) ≤ 1)%nat).

(** The entries, among those handed to the updater in turn, on which it
    writes. *)
Fixpoint written (u : Adminizer.param_updater) (es : list Adminizer.entry)
  : list Adminizer.entry :=
  match es with
  | [] => []
  | e :: es' =>
      (if (Adminizer.e_index e <? Adminizer.m_index u)%N then [e] else [])
      ++ written (Adminizer.update u e) es'
  end.

(** Each number is below the one before it, the first below [bound]. *)
Fixpoint decreasing (bound : N) (ks : list N) : Prop :=
  match ks with
  | [] => True
  | k :: ks' => (k < bound)%N ∧ decreasing k ks'
  end.

(** [m_finished] says that index 0 has been written. *)
Definition updater_inv (u : Adminizer.param_updater) : Prop :=
  Adminizer.m_finished u = (Adminizer.m_index u =? 0)%N.

(** The polygon geometries of a featureset in iteration order, each
    with the value its feature has under [param_name]. *)
Definition polygon_sources (param_name : string) (fset : list feature)
  : list (geometry_type * value) :=
  flat_map (λ f, map (λ g, (g, get f param_name))
                   (List.filter (λ g, geometry_types_eqb (g_type g) Polygon)
                      (f_paths f)))
           fset.

(** A polygon that begins with [SEG_MOVETO], or has no vertex. *)
Definition starts_with_moveto (g : geometry_type) : Prop :=
  match Adminizer.iterate (g_vertices g) with
  | [] => True
  | v :: _ => v_cmd v = SEG_MOVETO
  end.

(** The inner rings can take a point whenever the ring count is not 1. *)
Definition rings_inv (st : Adminizer.polygon_2d * double * double * N) : Prop :=
  let '(poly, _, _, ring_count) := st in
  ring_count = 1%N ∨ Adminizer.inners poly ≠ [].

(** One turn of the collection: the couple is emplaced under its score. *)
Definition collect (pairs : score_map) (sc : option score_t * couple_t)
  : option score_map :=
  s ← fst sc; Some (map_emplace s (snd sc) pairs).

(** The index of the [i]-th entry, as an [unsigned int]. *)
Definition nth_index (i : nat) : N := (N.of_nat i mod 2 ^ 32)%N.

(** An entry and the polygon geometry, with its value, it comes from. *)
Definition comes_from (e : Adminizer.entry) (src : geometry_type * value) : Prop :=
  Adminizer.make_boost_polygon (fst src) = Some (Adminizer.e_polygon e)
  ∧ Adminizer.e_value e = snd src.

(** The invariant of the loops of [make_entries], with the polygon
    geometries seen so far. *)
Definition entries_inv (st : list Adminizer.entry * N)
    (sources : list (geometry_type * value)) : Prop :=
  snd st = nth_index (length (fst st))
  ∧ Adminizer.e_index <$> fst st = nth_index <$> seq 0 (length (fst st))
  ∧ Forall2 comes_from (fst st) sources.

Definition source_of (param : value) (g : geometry_type)
  : list (geometry_type * value) :=
  if geometry_types_eqb (g_type g) Polygon then [(g, param)] else [].

End Notions.

(** ** Notions the further properties are stated with *)

Module Further.
Import Mapnik Unionizer Notions.

(** The vertex as [line_to] and [move_to] store it. *)
Definition as_line_to (v : vertex) : vertex := mk_vertex (v_x v) (v_y v) SEG_LINETO.
Definition as_move_to (v : vertex) : vertex := mk_vertex (v_x v) (v_y v) SEG_MOVETO.

(** A geometry none of whose stored commands is [SEG_END]. *)
Definition no_end (g : geometry_type) : Prop :=
  Forall (λ v, v_cmd v ≠ SEG_END) (g_vertices g).

(** [dst] with the vertices [vs] added at its end. *)
Definition extended (dst : geometry_type) (vs : list vertex) : geometry_type :=
  mk_geometry (g_type dst) (g_vertices dst ++ vs).

(** The geometry of the back to front splice, of the back to back splice. *)
Definition appended (dst src : geometry_type) : geometry_type :=
  extended dst (as_line_to <$> drop 1 (g_vertices src)).
Definition appended_reversed (dst src : geometry_type) : geometry_type :=
  extended dst (as_line_to <$> reverse (take (g_size src - 1) (g_vertices src))).

(** The first vertex by [move_to], the others by [line_to]. *)
Definition relabel (vs : list vertex) : list vertex :=
  match vs with
  | [] => []
  | v :: vs' => as_move_to v :: (as_line_to <$> vs')
  end.

(** What a splice that appends leaves behind: [merged] at the place of the
    destination and the source of [second] gone. *)
Definition spliced (h h' : nat → feature) (first second : candidate)
    (merged : geometry_type) : Prop :=
  let p1 := m_parent first in
  let p2 := m_parent second in
  (p1 ≠ p2 →
     f_paths (h' p1) = <[m_index first := merged]> (f_paths (h p1))
     ∧ f_paths (h' p2) = delete (m_index second) (f_paths (h p2)))
  ∧ (p1 = p2 →
     f_paths (h' p1)
     = delete (m_index second) (<[m_index first := merged]> (f_paths (h p1))))
  ∧ (∀ q, q ≠ p1 → q ≠ p2 → h' q = h q)
  ∧ (∀ q, f_id (h' q) = f_id (h q) ∧ f_attrs (h' q) = f_attrs (h q)).

(** The couple that [pairs] has first under the score [s]. *)
Fixpoint first_scored (s : score_t) (pairs : list (option score_t * couple_t))
  : option couple_t :=
  match pairs with
  | [] => None
  | (s', c) :: pairs' => if decide (s' = Some s) then Some c else first_scored s pairs'
  end.

(** The invariant of the collection, over the pairs emplaced so far. *)
Definition collected (m : score_map) (done : list (option score_t * couple_t)) : Prop :=
  Sorted Z.lt m.*1
  ∧ (∀ s, s ∈ m.*1 ↔ Some s ∈ done.*1)
  ∧ ∀ s c, (s, c) ∈ m ↔ first_scored s done = Some c.

(** The entries that the values of a query stand for and that meet the
    geometry, in the order of the query. *)
Definition hits `{Adminizer.BoostGeometry} (g : Adminizer.geom)
    (entries : list Adminizer.entry) (vs : list Adminizer.value_t)
  : list Adminizer.entry :=
  omap (λ v, e ← entries !! N.to_nat (snd v);
             if Adminizer.intersects g (Adminizer.e_polygon e) then Some e else None)
       vs.

(** [e] has the lowest index among [es]. *)
Definition lowest (e : Adminizer.entry) (es : list Adminizer.entry) : Prop :=
  e ∈ es ∧ ∀ e', e' ∈ es → (Adminizer.e_index e ≤ Adminizer.e_index e')%N.

(** The updater once it has written the entry [e]. *)
Definition wrote (u : Adminizer.param_updater) (e : Adminizer.entry)
  : Adminizer.param_updater :=
  Adminizer.mk_updater
    (put_new (Adminizer.m_feature u) (Adminizer.m_param_name u) (Adminizer.e_value e))
    (Adminizer.m_param_name u) (Adminizer.e_index e) (Adminizer.e_index e =? 0)%N.

(** [f'] is [f] but for the attribute [name], which, where the feature
    changed, holds the value of one of the entries. *)
Definition adminized (name : string) (entries : list Adminizer.entry)
    (f f' : feature) : Prop :=
  f_id f' = f_id f
  ∧ f_paths f' = f_paths f
  ∧ (∀ key, key ≠ name → f_attrs f' !! key = f_attrs f !! key)
  ∧ (f' = f
     ∨ ∃ e, e ∈ entries ∧ f_attrs f' = <[name := Adminizer.e_value e]> (f_attrs f)).

(** The geometries the adminizer lifts with a loop that needs a ring or
    a line to add to begin with a move-to. *)
Definition liftable (g : geometry_type) : Prop :=
  g_type g = LineString ∨ g_type g = Polygon → starts_with_moveto g.

(** The position of the end vertex of a geometry. *)
Definition end_position (pos : position) (g : geometry_type) : nat :=
  match pos with
  | FRONT => 0
  | BACK => g_size g - 1
  end.

(** The geometries whose ends become candidates: the linestrings of
    more than one vertex. *)
Definition eligible (g : geometry_type) : bool :=
  geometry_types_eqb (g_type g) LineString && (1 <? g_size g)%nat.

(** [c] sits at the end vertex of an eligible geometry of its parent. *)
Definition line_end (h : nat → feature) (c : candidate) : Prop :=
  ∃ g v, f_paths (h (m_parent c)) !! m_index c = Some g
         ∧ eligible g = true
         ∧ g_vertices g !! end_position (m_position c) g = Some v
         ∧ m_x c = v_x v ∧ m_y c = v_y v.

(** [c] is such an end in a unionable feature of the layer, directional
    when the feature has a direction tag. *)
Definition end_of_line (h : nat → feature) (layer : list nat)
    (tags directional_tags : list string) (c : candidate) : Prop :=
  m_parent c ∈ layer
  ∧ unionable (h (m_parent c)) tags = true
  ∧ m_directional c = existsb (has_key (h (m_parent c))) directional_tags
  ∧ line_end h c.

(** What a pass of the unionizer over [layer] keeps of the features:
    the ids, every feature outside the layer, and, of the features of
    the layer, the attribute keys; no feature gains a geometry. *)
Definition kept (layer : list nat) (h h' : nat → feature) : Prop :=
  (∀ q, f_id (h' q) = f_id (h q))
  ∧ (∀ q, q ∉ layer → h' q = h q)
  ∧ (∀ q, (num_geometries (h' q) ≤ num_geometries (h q))%nat)
  ∧ (∀ q key, is_Some (f_attrs (h q) !! key) → is_Some (f_attrs (h' q) !! key)).

(** [a] does not come after [b] in the order of the end points: by [x],
    then by [y]. *)
Definition before (a b : candidate) : Prop :=
  (m_x a < m_x b)%Q ∨ ((m_x a == m_x b)%Q ∧ (m_y a <= m_y b)%Q).

End Further.


(** * Properties *)

Lemma foldlM_cons {A B} (f : A → B → option A) (a : A) (b : B) (l : list B) :
  Unionizer.foldlM f a (b :: l) = f a b ≫= λ a', Unionizer.foldlM f a' l.
Proof. reflexivity. Qed.

Lemma foldlM_app {A B} (f : A → B → option A) (l1 l2 : list B) : ∀ a,
  Unionizer.foldlM f a (l1 ++ l2) = Unionizer.foldlM f a l1 ≫= λ a', Unionizer.foldlM f a' l2.
Proof.
  induction l1 as [|b l1 IH]; intros a; simpl; [done|].
  destruct (f a b) as [a1|]; simpl; [apply IH|done].
Qed.

(** ** Layer envelope *)

Section EnvelopeProps.
Import Mapnik Adminizer.
Variable feature_envelope : feature → box2d.

Lemma envelope_flag (layer : list feature) (b : box2d) :
  snd (foldl (envelope_step feature_envelope) (b, true) layer) = true.
Proof.
  revert b. induction layer as [|f layer IH]; intros b; simpl; [done|].
  apply IH.
Qed.

(** The loop never clears [first]: the result is the envelope of the
    feature visited last. *)
Lemma envelope_app_last (layer : list feature) (f : feature) :
  envelope feature_envelope (layer ++ [f]) = feature_envelope f.
Proof.
  unfold envelope. rewrite foldl_app. simpl.
  pose proof (envelope_flag layer box2d_default) as Hflag.
  destruct (foldl _ _ layer) as [result first]. simpl in Hflag. subst first.
  reflexivity.
Qed.
End EnvelopeProps.

(** C1.  On the layer of the two features [near] and [far] the envelope
    the adminizer computes is the envelope of [far] alone, the box from
    (5,5) to (6,6), while the union of the two envelopes is the box from
    (0,0) to (6,6): the code does not compute the union. *)
Theorem envelope_of_two_is_last :
  Adminizer.envelope Examples.feature_box [Inputs.near; Inputs.far]
    = Mapnik.mk_box2d 5%Q 5%Q 6%Q 6%Q
  ∧ Spec.envelope_union Examples.feature_box [Inputs.near; Inputs.far]
    = Mapnik.mk_box2d 0%Q 0%Q 6%Q 6%Q
  ∧ Adminizer.envelope Examples.feature_box [Inputs.near; Inputs.far]
    ≠ Spec.envelope_union Examples.feature_box [Inputs.near; Inputs.far].
Proof.
  split; [|split].
  - vm_compute. reflexivity.
  - vm_compute. reflexivity.
  - vm_compute. intros H. discriminate H.
Qed.

(** ** The arithmetic of doubles *)

Section RoundingProps.
Import Mapnik.
Local Open Scope Q_scope.

Lemma nearest_even_bounds (q : Q) :
  (Qfloor q <= nearest_even q)%Z ∧ (nearest_even q <= Qfloor q + 1)%Z.
Proof.
  unfold nearest_even. destruct (q - inject_Z (Qfloor q) ?= 1 # 2);
    [destruct (Z.even _)|..]; lia.
Qed.

Lemma nearest_even_mono (a b : Q) : a <= b → (nearest_even a <= nearest_even b)%Z.
Proof.
  intros Hab. pose proof (Qfloor_resp_le a b Hab) as Hfloor.
  destruct (nearest_even_bounds a) as [_ Ha]. destruct (nearest_even_bounds b) as [Hb _].
  destruct (decide (Qfloor a = Qfloor b)) as [Heq|Hne]; [|lia].
  unfold nearest_even. rewrite <- Heq.
  destruct (a - inject_Z (Qfloor a) ?= 1 # 2) eqn:Hca;
    destruct (b - inject_Z (Qfloor a) ?= 1 # 2) eqn:Hcb;
    try (destruct (Z.even (Qfloor a)); lia).
  all: exfalso.
  all: first [apply Qeq_alt in Hca|apply Qlt_alt in Hca|apply Qgt_alt in Hca].
  all: first [apply Qeq_alt in Hcb|apply Qlt_alt in Hcb|apply Qgt_alt in Hcb].
  all: lra.
Qed.

Lemma nearest_even_Z (z : Z) : nearest_even (inject_Z z) = z.
Proof.
  unfold nearest_even. rewrite Qfloor_Z.
  assert ((inject_Z z - inject_Z z ?= 1 # 2) = Lt) as ->; [|done].
  apply Qlt_alt. assert (inject_Z z - inject_Z z == 0) as -> by ring. reflexivity.
Qed.

Lemma pow2_pos (e : Z) : 0 < 2 ^ e.
Proof. by apply Qpower_0_lt. Qed.

Lemma pow2_split (l e : Z) : (e <= l)%Z → 2 ^ l == inject_Z (2 ^ (l - e)) * 2 ^ e.
Proof.
  intros Hle. rewrite Zpower_Qpower by lia.
  rewrite <- Qpower_plus by done. by replace (l - e + e)%Z with l by lia.
Qed.

Lemma grid_le (q : Q) (e m : Z) :
  q <= inject_Z m * 2 ^ e → grid q e <= inject_Z m * 2 ^ e.
Proof.
  intros Hq. unfold grid. pose proof (pow2_pos e) as Hpos.
  apply Qmult_le_compat_r; [|lra]. rewrite <- Zle_Qle.
  assert (nearest_even (q / 2 ^ e) <= nearest_even (inject_Z m))%Z as Hle.
  { apply nearest_even_mono. apply Qle_shift_div_r; done. }
  by rewrite nearest_even_Z in Hle.
Qed.

Lemma grid_ge (q : Q) (e m : Z) :
  inject_Z m * 2 ^ e <= q → inject_Z m * 2 ^ e <= grid q e.
Proof.
  intros Hq. unfold grid. pose proof (pow2_pos e) as Hpos.
  apply Qmult_le_compat_r; [|lra]. rewrite <- Zle_Qle.
  assert (nearest_even (inject_Z m) <= nearest_even (q / 2 ^ e))%Z as Hle.
  { apply nearest_even_mono. apply Qle_shift_div_l; done. }
  by rewrite nearest_even_Z in Hle.
Qed.

Lemma grid_mono (a b : Q) (e : Z) : a <= b → grid a e <= grid b e.
Proof.
  intros Hab. unfold grid. pose proof (pow2_pos e) as Hpos.
  apply Qmult_le_compat_r; [|lra]. rewrite <- Zle_Qle.
  apply nearest_even_mono. apply Qmult_le_compat_r; [done|].
  apply Qinv_le_0_compat. lra.
Qed.

Lemma binade_spec (q : Q) : 0 < q → 2 ^ binade q <= q ∧ q < 2 ^ (binade q + 1).
Proof.
  intros Hq. unfold binade.
  set (n := Qnum q). set (d := Zpos (Qden q)).
  assert (0 < n)%Z as Hn by (unfold Qlt in Hq; simpl in Hq; lia).
  assert (0 < d)%Z as Hd by done.
  destruct (Z.log2_spec n Hn) as [Hn1 Hn2]. destruct (Z.log2_spec d Hd) as [Hd1 Hd2].
  set (ln := Z.log2 n) in *. set (ld := Z.log2 d) in *.
  assert (0 <= ln)%Z as Hln by apply Z.log2_nonneg.
  assert (0 <= ld)%Z as Hld by apply Z.log2_nonneg.
  assert (q == inject_Z n / inject_Z d) as Hqnd by (destruct q; apply Qmake_Qdiv).
  assert (∀ (m l : Z), (0 <= l)%Z → (2 ^ l <= m < 2 ^ Z.succ l)%Z →
            2 ^ l <= inject_Z m ∧ inject_Z m < 2 * 2 ^ l) as Hbits.
  { intros m l Hl [Hm1 Hm2]. pose proof (Zpower_Qpower 2 l Hl) as Hpow.
    change (inject_Z 2) with 2 in Hpow. rewrite <- Hpow.
    rewrite Z.pow_succ_r in Hm2 by done.
    rewrite Zle_Qle in Hm1. rewrite Zlt_Qlt in Hm2. rewrite inject_Z_mult in Hm2.
    change (inject_Z 2) with 2 in Hm2. done. }
  destruct (Hbits n ln Hln (conj Hn1 Hn2)) as [HA1 HA2].
  destruct (Hbits d ld Hld (conj Hd1 Hd2)) as [HB1 HB2].
  pose proof (pow2_pos ln) as HA. pose proof (pow2_pos ld) as HB.
  assert (0 < inject_Z d) as Hdq by (rewrite Zlt_Qlt in Hd; done).
  assert (∀ k, 2 ^ (k + 1) == 2 * 2 ^ k) as Hsucc.
  { intros k. rewrite Qpower_plus by done. change (2 ^ 1) with 2. ring. }
  assert (2 ^ (ln - ld) == 2 ^ ln / 2 ^ ld) as Hk by (by apply Qpower_minus).
  assert (q < 2 ^ (ln - ld + 1)) as Hupper.
  { rewrite Hsucc, Hk, Hqnd. apply Qlt_shift_div_r; [done|].
    assert (2 * (2 ^ ln / 2 ^ ld) * inject_Z d == 2 * 2 ^ ln * (inject_Z d / 2 ^ ld)) as ->
      by (field; lra).
    assert (1 <= inject_Z d / 2 ^ ld) by (apply Qle_shift_div_l; lra).
    nra. }
  assert (2 ^ (ln - ld - 1) <= q) as Hlower.
  { assert (2 ^ (ln - ld) == 2 * 2 ^ (ln - ld - 1)) as Hpred.
    { rewrite <- Hsucc. by replace (ln - ld - 1 + 1)%Z with (ln - ld)%Z by lia. }
    assert (2 ^ (ln - ld) <= 2 * q); [|lra].
    rewrite Hk, Hqnd. apply Qle_shift_div_r; [done|].
    assert (2 * (inject_Z n / inject_Z d) * 2 ^ ld
            == inject_Z n * (2 * 2 ^ ld / inject_Z d)) as -> by (field; lra).
    assert (1 <= 2 * 2 ^ ld / inject_Z d) by (apply Qle_shift_div_l; lra).
    nra. }
  destruct (Qle_bool (2 ^ (ln - ld)) q) eqn:Hle.
  - apply Qle_bool_iff in Hle. done.
  - split; [done|]. replace (ln - ld - 1 + 1)%Z with (ln - ld)%Z by lia.
    apply Qnot_le_lt. intros Hc. apply Qle_bool_iff in Hc. congruence.
Qed.

Lemma binade_mono (a b : Q) : 0 < a → a <= b → (binade a <= binade b)%Z.
Proof.
  intros Ha Hab. destruct (binade_spec a Ha) as [Hla _].
  destruct (binade_spec b) as [_ Hlb]; [lra|].
  assert (binade a < binade b + 1)%Z; [|lia].
  apply (Qpower_lt_compat_l_inv 2); [lra|reflexivity].
Qed.

Lemma Qabs_of_pos (q : Q) : 0 < q → Qabs q = q.
Proof.
  destruct q as [n d]. unfold Qlt, Qabs. simpl. intros Hn. f_equal. lia.
Qed.

Lemma Qabs_of_neg (q : Q) : q < 0 → Qabs q = - q.
Proof.
  destruct q as [n d]. unfold Qlt, Qabs, Qopp. simpl. intros Hn. f_equal. lia.
Qed.

Lemma nearest_grid (q : Q) : ¬ q == 0 → nearest_double q == grid q (ulp_exponent q).
Proof.
  intros Hq. unfold nearest_double. destruct (Qeq_bool q 0) eqn:Hzero.
  - by apply Qeq_bool_iff in Hzero.
  - apply Qred_correct.
Qed.

Lemma nearest_zero (q : Q) : q == 0 → nearest_double q = 0.
Proof. intros Hq. unfold nearest_double. apply Qeq_bool_iff in Hq. by rewrite Hq. Qed.

Lemma nearest_nonneg (q : Q) : 0 <= q → 0 <= nearest_double q.
Proof.
  intros Hq. destruct (Qeq_dec q 0) as [Hzero|Hne].
  - rewrite (nearest_zero q Hzero). lra.
  - rewrite (nearest_grid q Hne).
    pose proof (grid_ge q (ulp_exponent q) 0) as Hgrid.
    assert (inject_Z 0 * 2 ^ ulp_exponent q == 0) as Hz by ring.
    rewrite Hz in Hgrid. by apply Hgrid.
Qed.

Lemma nearest_nonpos (q : Q) : q <= 0 → nearest_double q <= 0.
Proof.
  intros Hq. destruct (Qeq_dec q 0) as [Hzero|Hne].
  - rewrite (nearest_zero q Hzero). lra.
  - rewrite (nearest_grid q Hne).
    pose proof (grid_le q (ulp_exponent q) 0) as Hgrid.
    assert (inject_Z 0 * 2 ^ ulp_exponent q == 0) as Hz by ring.
    rewrite Hz in Hgrid. by apply Hgrid.
Qed.

Lemma nearest_mono_pos (a b : Q) : 0 < a → a <= b → nearest_double a <= nearest_double b.
Proof.
  intros Ha Hab. assert (0 < b) as Hb by lra.
  rewrite (nearest_grid a), (nearest_grid b) by lra.
  unfold ulp_exponent. rewrite (Qabs_of_pos a Ha), (Qabs_of_pos b Hb).
  destruct (binade_spec a Ha) as [Ha1 Ha2]. destruct (binade_spec b Hb) as [Hb1 Hb2].
  pose proof (binade_mono a b Ha Hab) as Hbinade.
  set (la := binade a) in *. set (lb := binade b) in *.
  destruct (decide (Z.max (la - 52) (-1074) = Z.max (lb - 52) (-1074))) as [->|Hne].
  { by apply grid_mono. }
  assert (la < lb ∧ Z.max (lb - 52) (-1074) = lb - 52)%Z as [Hlt ->] by lia.
  set (ea := Z.max (la - 52) (-1074)).
  assert (ea <= lb)%Z as Hea by lia.
  apply (Qle_trans _ (2 ^ lb)).
  - rewrite (pow2_split lb ea Hea). apply grid_le. rewrite <- (pow2_split lb ea Hea).
    apply (Qle_trans _ (2 ^ (la + 1))); [lra|].
    apply Qpower_le_compat_l; [lia|discriminate].
  - assert (lb - 52 <= lb)%Z as Heb by lia.
    rewrite (pow2_split lb (lb - 52) Heb). apply grid_ge.
    by rewrite <- (pow2_split lb (lb - 52) Heb).
Qed.

Lemma nearest_mono_neg (a b : Q) : b < 0 → a <= b → nearest_double a <= nearest_double b.
Proof.
  intros Hb Hab. assert (a < 0) as Ha by lra.
  rewrite (nearest_grid a), (nearest_grid b) by lra.
  unfold ulp_exponent. rewrite (Qabs_of_neg a Ha), (Qabs_of_neg b Hb).
  destruct (binade_spec (- a)) as [Ha1 Ha2]; [lra|].
  destruct (binade_spec (- b)) as [Hb1 Hb2]; [lra|].
  pose proof (binade_mono (- b) (- a)) as Hbinade.
  set (la := binade (- a)) in *. set (lb := binade (- b)) in *.
  assert (lb <= la)%Z as Hle by (apply Hbinade; lra).
  destruct (decide (Z.max (la - 52) (-1074) = Z.max (lb - 52) (-1074))) as [->|Hne].
  { by apply grid_mono. }
  assert (lb < la ∧ Z.max (la - 52) (-1074) = la - 52)%Z as [Hlt ->] by lia.
  set (eb := Z.max (lb - 52) (-1074)).
  assert (eb <= la)%Z as Heb by lia.
  assert (la - 52 <= la)%Z as Hea by lia.
  apply (Qle_trans _ (- 2 ^ la)).
  - assert (- 2 ^ la == inject_Z (- 2 ^ (la - (la - 52))) * 2 ^ (la - 52)) as Hgrid.
    { rewrite inject_Z_opp, (pow2_split la (la - 52) Hea) at 1. ring. }
    rewrite Hgrid. apply grid_le. rewrite <- Hgrid. lra.
  - assert (- 2 ^ la == inject_Z (- 2 ^ (la - eb)) * 2 ^ eb) as Hgrid.
    { rewrite inject_Z_opp, (pow2_split la eb Heb) at 1. ring. }
    rewrite Hgrid. apply grid_ge. rewrite <- Hgrid.
    assert (2 ^ (lb + 1) <= 2 ^ la); [|lra].
    apply Qpower_le_compat_l; [lia|discriminate].
Qed.

Lemma nearest_mono (a b : Q) : a <= b → nearest_double a <= nearest_double b.
Proof.
  intros Hab. destruct (Qlt_le_dec 0 a) as [Ha|Ha].
  { by apply nearest_mono_pos. }
  destruct (Qlt_le_dec b 0) as [Hb|Hb].
  { by apply nearest_mono_neg. }
  apply (Qle_trans _ 0); [by apply nearest_nonpos|by apply nearest_nonneg].
Qed.

Lemma rounded_between (lo hi q : Q) :
  nearest_double lo == lo → nearest_double hi == hi →
  - max_double <= lo → hi <= max_double →
  lo <= q → q <= hi →
  ∃ r, rounded q = Some r ∧ lo <= r ∧ r <= hi.
Proof.
  intros Hlo Hhi Hmin Hmax Hq1 Hq2.
  pose proof (nearest_mono lo q Hq1) as H1. pose proof (nearest_mono q hi Hq2) as H2.
  rewrite Hlo in H1. rewrite Hhi in H2.
  exists (nearest_double q). split; [|done]. unfold rounded.
  assert (Qle_bool (Qabs (nearest_double q)) max_double = true) as ->; [|done].
  apply Qle_bool_iff, Qabs_Qle_condition. split; lra.
Qed.

Lemma rounded_Some (q r : Q) : rounded q = Some r → r = nearest_double q.
Proof. unfold rounded. destruct (Qle_bool _ _); [by intros [= <-]|done]. Qed.
End RoundingProps.

(** ** Scores *)

Section ScoreProps.
Import Mapnik Unionizer.

Lemma truncate_range (q : Q) :
  (0 <= q)%Q → (q <= 255)%Q → 0 ≤ truncate q ≤ 255.
Proof.
  destruct q as [n d]. unfold Qle, truncate. simpl. intros Hlo Hhi.
  assert (0 ≤ n) by lia.
  rewrite Z.quot_div_nonneg by lia.
  split.
  - apply Z.div_pos; lia.
  - apply Z.div_le_upper_bound; lia.
Qed.

Lemma scaled_range (d : Q) :
  (-1 <= d)%Q → (d <= 1)%Q →
  ∃ v, scaled d = Some v ∧ (0 <= v)%Q ∧ (v <= 255)%Q.
Proof.
  intros Hlo Hhi. unfold scaled, dadd, dmul.
  assert (- max_double <= 0)%Q as Hmin by (vm_compute; intros Hc; discriminate Hc).
  assert (255 <= max_double)%Q as Hmax by (vm_compute; intros Hc; discriminate Hc).
  assert (nearest_double 0 == 0)%Q as H0 by (vm_compute; reflexivity).
  assert (nearest_double 1 == 1)%Q as H1 by (vm_compute; reflexivity).
  assert (nearest_double 2 == 2)%Q as H2 by (vm_compute; reflexivity).
  assert (nearest_double 255 == 255)%Q as H255 by (vm_compute; reflexivity).
  destruct (rounded_between 0 2 (d + 1)) as (s & -> & Hs1 & Hs2);
    [done|done|done|lra|lra|lra|]. simpl.
  destruct (rounded_between 0 1 (s * (1 # 2))) as (h & -> & Hh1 & Hh2);
    [done|done|done|lra|lra|lra|]. simpl.
  change (inject_Z MAX_SCORE) with 255%Q.
  destruct (rounded_between 0 255 (255 * h)) as (v & -> & Hv1 & Hv2);
    [done|done|done|lra|lra|lra|].
  exists v. split; [reflexivity|]. split; assumption.
Qed.

Lemma scaled_rounds (d v : Q) :
  scaled d = Some v →
  v = nearest_double (255 * nearest_double (nearest_double (d + 1) * (1 # 2))).
Proof.
  unfold scaled, dadd, dmul. intros Hv.
  destruct (rounded (d + 1)) as [s|] eqn:Hs; simpl in Hv; [|discriminate Hv].
  destruct (rounded (s * (1 # 2))) as [h|] eqn:Hh; simpl in Hv; [|discriminate Hv].
  apply rounded_Some in Hs, Hh, Hv. by subst.
Qed.

Lemma dot_rounds (c : couple_t) (d dx1 dy1 dx2 dy2 : Q) :
  m_dx (fst c) = Some dx1 → m_dy (fst c) = Some dy1 →
  m_dx (snd c) = Some dx2 → m_dy (snd c) = Some dy2 →
  dot c = Some d →
  d = nearest_double (nearest_double (dx1 * dx2) + nearest_double (dy1 * dy2)).
Proof.
  unfold dot, dadd, dmul. intros -> -> -> ->. simpl. intros Hd.
  destruct (rounded (dx1 * dx2)) as [xx|] eqn:Hxx; simpl in Hd; [|discriminate Hd].
  destruct (rounded (dy1 * dy2)) as [yy|] eqn:Hyy; simpl in Hd; [|discriminate Hd].
  apply rounded_Some in Hxx, Hyy, Hd. by subst.
Qed.

Lemma double_to_score_range (q : Q) (s : score_t) :
  double_to_score q = Some s → 0 ≤ s ≤ 255.
Proof.
  unfold double_to_score, MAX_SCORE. intros Hq.
  destruct (0 <=? truncate q) eqn:Hlo; destruct (truncate q <=? 255) eqn:Hhi;
    simpl in Hq; try discriminate.
  injection Hq as <-. lia.
Qed.

Lemma double_to_score_in_range (q : Q) :
  0 ≤ truncate q ≤ 255 → double_to_score q = Some (truncate q).
Proof.
  intros [Hlo Hhi]. unfold double_to_score, MAX_SCORE.
  apply Z.leb_le in Hlo, Hhi. rewrite Hlo, Hhi. reflexivity.
Qed.

Lemma obtuse_score_range (c : couple_t) (s : score_t) :
  obtuse_score c = Some s → 0 ≤ s ≤ 255.
Proof.
  unfold obtuse_score. destruct (degenerate c).
  - intros [= <-]. unfold MAX_SCORE. lia.
  - destruct (dot c) as [d|]; simpl; [|discriminate].
    destruct (scaled d) as [v|]; simpl; [|discriminate].
    apply double_to_score_range.
Qed.
End ScoreProps.

(** C4, as amended.  The obtuse score is 255 when either direction vector
    is (0, 0).  Otherwise the code computes, in double arithmetic, the
    dot [d] of the two direction vectors (two products and their sum,
    each rounded to the nearest double) and the product
    255 * ((d + 1) * 0.5) (again each operation rounded); the score is
    that double truncated towards zero whenever the truncated value lies
    within 0 to 255, as it does whenever [d] lies between -1 and 1.
    Every score the function returns lies within 0 to 255. *)
Theorem obtuse_score_truncates (c : Unionizer.couple_t) :
  (Unionizer.degenerate c = true → Unionizer.obtuse_score c = Some 255)
  ∧ (∀ d, Unionizer.degenerate c = false → Unionizer.dot c = Some d →
       (∀ v, Unionizer.scaled d = Some v →
             v = Mapnik.nearest_double
                   (255 * Mapnik.nearest_double
                            (Mapnik.nearest_double (d + 1) * (1 # 2)))%Q
             ∧ (0 ≤ Unionizer.truncate v ≤ 255 →
                Unionizer.obtuse_score c = Some (Unionizer.truncate v)))
       ∧ ((-1 <= d)%Q → (d <= 1)%Q →
          ∃ v, Unionizer.scaled d = Some v ∧ 0 ≤ Unionizer.truncate v ≤ 255))
  ∧ (∀ d dx1 dy1 dx2 dy2,
       Unionizer.m_dx (fst c) = Some dx1 → Unionizer.m_dy (fst c) = Some dy1 →
       Unionizer.m_dx (snd c) = Some dx2 → Unionizer.m_dy (snd c) = Some dy2 →
       Unionizer.dot c = Some d →
       d = Mapnik.nearest_double
             (Mapnik.nearest_double (dx1 * dx2)
              + Mapnik.nearest_double (dy1 * dy2))%Q)
  ∧ (∀ s, Unionizer.obtuse_score c = Some s → 0 ≤ s ≤ 255).
Proof.
  split; [|split; [|split]].
  - intros Hdeg. unfold Unionizer.obtuse_score. rewrite Hdeg. reflexivity.
  - intros d Hdeg Hdot. split.
    + intros v Hv. split; [by apply scaled_rounds|].
      intros Ht. unfold Unionizer.obtuse_score. rewrite Hdeg, Hdot. simpl.
      rewrite Hv. simpl. apply double_to_score_in_range. exact Ht.
    + intros Hlo Hhi. destruct (scaled_range d Hlo Hhi) as (v & Hv & H0 & H255).
      exists v. split; [exact Hv|]. apply truncate_range; assumption.
  - intros d dx1 dy1 dx2 dy2. apply dot_rounds.
  - apply obtuse_score_range.
Qed.

(** Two linestrings that leave the origin at a right angle: the dot is 0
    and the score is 127.  The front ends of the two bent linestrings:
    the dot is the double next below 3/5 and the product is the double
    next below 204, so that the score is 203.  The directions (0.6, 0)
    and (1, 0): the dot is the double nearest to 3/5, which lies below
    3/5, and yet the product is 204 and so is the score. *)
Lemma obtuse_score_truncates_witness :
  (let c := Inputs.right_angle in
   Unionizer.degenerate c = false
   ∧ Unionizer.dot c = Some 0%Q
   ∧ Unionizer.obtuse_score c = Some 127)
  ∧ (∃ c d v,
      Inputs.bent_couple = Some c
      ∧ Unionizer.dot c = Some d
      ∧ Unionizer.scaled d = Some v
      ∧ (d < 3 # 5)%Q ∧ (v < 204)%Q
      ∧ Unionizer.obtuse_score c = Some 203)
  ∧ (let c := Inputs.slanted in
     let d := Mapnik.nearest_double (3 # 5) in
     Unionizer.dot c = Some d
     ∧ (d < 3 # 5)%Q
     ∧ Unionizer.scaled d = Some 204%Q
     ∧ Unionizer.obtuse_score c = Some 204).
Proof.
  split; [|split].
  - intros c. split; [reflexivity|]. split; [reflexivity|].
    destruct (obtuse_score_truncates c) as (_ & Hscore & _).
    destruct (Hscore 0%Q eq_refl eq_refl) as [Hvalue Hrange].
    destruct Hrange as (v & Hv & Ht); [unfold Qle; simpl; lia..|].
    destruct (Hvalue v Hv) as [-> Hobtuse]. apply Hobtuse in Ht as ->.
    vm_compute. reflexivity.
  - destruct Inputs.bent_couple as [c|] eqn:Hc; [|vm_compute in Hc; discriminate Hc].
    vm_compute in Hc. injection Hc as <-.
    match goal with
    | |- ∃ c d v, Some ?couple = Some c ∧ _ =>
        exists couple; destruct (Unionizer.dot couple) as [d|] eqn:Hd;
          [|vm_compute in Hd; discriminate Hd];
        exists d; destruct (Unionizer.scaled d) as [v|] eqn:Hv;
          [|vm_compute in Hd; injection Hd as <-; vm_compute in Hv; discriminate Hv];
        exists v; split; [reflexivity|]; split; [reflexivity|]; split; [reflexivity|];
        destruct (obtuse_score_truncates couple) as (_ & Hscore & _);
        destruct (Hscore d eq_refl Hd) as [Hvalue _];
        destruct (Hvalue v Hv) as [_ Hobtuse]
    end.
    vm_compute in Hd. injection Hd as <-. vm_compute in Hv. injection Hv as <-.
    split; [reflexivity|]. split; [reflexivity|].
    apply Hobtuse. vm_compute. split; intros Hc; discriminate Hc.
  - intros c d.
    assert (Unionizer.dot c = Some d) as Hd by (vm_compute; reflexivity).
    assert (Unionizer.scaled d = Some 204%Q) as Hv by (vm_compute; reflexivity).
    split; [exact Hd|]. split; [reflexivity|]. split; [exact Hv|].
    destruct (obtuse_score_truncates c) as (_ & Hscore & _).
    destruct (Hscore d eq_refl Hd) as [Hvalue _].
    destruct (Hvalue 204%Q Hv) as [_ Hobtuse].
    apply Hobtuse. vm_compute. split; intros Hc; discriminate Hc.
Defined.

(** C4, as stated, fails.  For the linestrings from the origin to (2, 0)
    and to (4, 0) the dot is 8 and 255 * (8 + 1) / 2 is no byte: the
    conversion is undefined.  For the linestrings from the origin to
    (1, 0) and to (0, 1) the score is 127, not 255 / 2. *)
Lemma obtuse_score_not_the_claimed_value :
  (∃ c, Inputs.front_couple Unionizer.OBTUSE 0 1 = Some c
        ∧ (∃ v, Spec.obtuse_value c = Some v ∧ (255 < v)%Q)
        ∧ Unionizer.obtuse_score c = None
        ∧ ¬ Spec.obtuse_claim c)
  ∧ (∃ c, Inputs.front_couple Unionizer.OBTUSE 2 3 = Some c
          ∧ Unionizer.obtuse_score c = Some 127
          ∧ ¬ Spec.obtuse_claim c).
Proof.
  split.
  - eexists. split; [vm_compute; reflexivity|]. split; [|split].
    + eexists. split; [vm_compute; reflexivity|]. reflexivity.
    + vm_compute. reflexivity.
    + intros (s & v & Hs & _). vm_compute in Hs. discriminate Hs.
  - eexists. split; [vm_compute; reflexivity|]. split.
    + vm_compute. reflexivity.
    + intros (s & v & Hs & Hv & Heq & _). vm_compute in Hs, Hv.
      injection Hs as <-. injection Hv as <-.
      unfold Qeq in Heq. simpl in Heq. lia.
Qed.

(** C5, as amended.  When neither direction vector is (0, 0) the acute
    score is 255 minus the obtuse score of the same pair (and undefined
    where the obtuse score is); when either is (0, 0) the acute score is
    255, as is the obtuse score. *)
Theorem acute_score_complements (c : Unionizer.couple_t) :
  (Unionizer.degenerate c = false →
     Unionizer.acute_score c = (λ s, 255 - s) <$> Unionizer.obtuse_score c)
  ∧ (Unionizer.degenerate c = true →
     Unionizer.acute_score c = Some 255 ∧ Unionizer.obtuse_score c = Some 255).
Proof.
  split; intros Hdeg.
  - unfold Unionizer.acute_score. rewrite Hdeg.
    destruct (Unionizer.obtuse_score c) as [s|] eqn:Hs; simpl; [|reflexivity].
    apply obtuse_score_range in Hs. unfold Unionizer.MAX_SCORE.
    rewrite Z.mod_small by lia. reflexivity.
  - unfold Unionizer.acute_score, Unionizer.obtuse_score. rewrite Hdeg.
    split; reflexivity.
Qed.

(** At a right angle both scores are 127 and 128; on a linestring without
    length both are 255. *)
Lemma acute_score_complements_witness :
  let c := Inputs.right_angle in
  let z := Inputs.with_point in
  (Unionizer.degenerate c = false ∧ Unionizer.acute_score c = Some 128)
  ∧ (Unionizer.degenerate z = true ∧ Unionizer.acute_score z = Some 255).
Proof.
  intros c z. split.
  - split; [reflexivity|].
    destruct (acute_score_complements c) as [Hacute _].
    rewrite (Hacute eq_refl). reflexivity.
  - split; [reflexivity|].
    destruct (acute_score_complements z) as [_ Hboth].
    exact (proj1 (Hboth eq_refl)).
Defined.

(** C5, as stated, fails where a direction vector is (0, 0): for the
    linestring from the origin to (1, 0) and the one that stays at the
    origin the acute score is 255 and not 255 - 255. *)
Lemma acute_score_of_degenerate :
  ∃ c, Inputs.front_couple Unionizer.ACUTE 2 4 = Some c
       ∧ Unionizer.degenerate c = true
       ∧ ¬ Spec.acute_claim c.
Proof.
  eexists. split; [vm_compute; reflexivity|]. split; [reflexivity|].
  unfold Spec.acute_claim. vm_compute. discriminate.
Qed.

(** ** Tag reconciliation *)

Section SanitizeProps.
Import Mapnik Unionizer Notions.
Context `{ValueOps}.
Variables p1 p2 : nat.

Lemma attrs_frame_refl h : attrs_frame p1 h h.
Proof. done. Qed.

Lemma attrs_frame_trans h1 h2 h3 :
  attrs_frame p1 h1 h2 → attrs_frame p1 h2 h3 → attrs_frame p1 h1 h3.
Proof.
  intros (Ha & Hb & Hc) (Ha' & Hb' & Hc'). split; [|split].
  - intros q Hq. rewrite Ha' by done. by apply Ha.
  - congruence.
  - congruence.
Qed.

(** The attributes of the second partner, read in a heap where only the
    attributes of the first changed, and only under other keys. *)
Lemma attrs_frame_second h h' (key : string) :
  attrs_frame p1 h h' →
  (∀ k, k ≠ key → f_attrs (h' p1) !! k = f_attrs (h p1) !! k) →
  ∀ k, k ≠ key → f_attrs (h' p2) !! k = f_attrs (h p2) !! k.
Proof.
  intros (Hq & _ & _) Hk k Hne.
  destruct (decide (p2 = p1)) as [->|Hp]; [by apply Hk|].
  by rewrite Hq.
Qed.

Lemma has_key_lookup (f : feature) (key : string) :
  has_key f key = true ↔ is_Some (f_attrs f !! key).
Proof. unfold has_key. apply bool_decide_eq_true. Qed.

Lemma has_key_false (f : feature) (key : string) :
  has_key f key = false ↔ f_attrs f !! key = None.
Proof.
  unfold has_key. rewrite bool_decide_eq_false. rewrite eq_None_not_Some. done.
Qed.

Lemma put_null_heap h (key : string) (v : value) :
  f_attrs (h p1) !! key = Some v →
  ∃ f, put (h p1) key value_null = Some f
       ∧ f_attrs f = <[key := value_null]> (f_attrs (h p1))
       ∧ attrs_frame p1 h (<[p1 := f]> h).
Proof.
  intros Hv. unfold put.
  assert (has_key (h p1) key = true) as -> by (apply has_key_lookup; eauto).
  eexists. split; [reflexivity|]. split; [reflexivity|].
  split; [|split].
  - intros q Hq. by rewrite fn_lookup_insert_ne.
  - by rewrite fn_lookup_insert.
  - by rewrite fn_lookup_insert.
Qed.

Lemma sanitize_first_step (strategy : tag_strategy) h (key : string) :
  is_Some (f_attrs (h p1) !! key) →
  ∃ h', sanitize_first strategy p1 p2 h key = Some h'
        ∧ attrs_frame p1 h h'
        ∧ f_attrs (h' p1) !! key = first_pass p1 p2 strategy h key
        ∧ ∀ k, k ≠ key → f_attrs (h' p1) !! k = f_attrs (h p1) !! k.
Proof.
  intros [v Hv]. unfold sanitize_first, first_pass. rewrite Hv. simpl.
  destruct (put_null_heap h key v Hv) as (f & Hput & Hattrs & Hframe).
  assert (f_attrs (<[p1:=f]> h p1) !! key = Some value_null) as Hnull.
  { rewrite fn_lookup_insert, Hattrs. apply lookup_insert_eq. }
  assert (∀ k, k ≠ key → f_attrs (<[p1:=f]> h p1) !! k = f_attrs (h p1) !! k) as Hother.
  { intros k Hk. rewrite fn_lookup_insert, Hattrs. by apply lookup_insert_ne. }
  destruct (has_key (h p2) key) eqn:Hhas; simpl.
  - apply has_key_lookup in Hhas as [w Hw]. unfold get. rewrite Hw. simpl.
    destruct (value_ne v w).
    + rewrite Hput. simpl. eexists. split; [reflexivity|]. done.
    + exists h. done.
  - apply has_key_false in Hhas. rewrite Hhas.
    destruct strategy.
    + rewrite Hput. simpl. eexists. split; [reflexivity|]. done.
    + exists h. done.
Qed.

Lemma first_loop (strategy : tag_strategy) (ks : list string) : ∀ h,
  NoDup ks →
  (∀ k, k ∈ ks → is_Some (f_attrs (h p1) !! k)) →
  ∃ h', foldlM (sanitize_first strategy p1 p2) h ks = Some h'
        ∧ attrs_frame p1 h h'
        ∧ ∀ k, f_attrs (h' p1) !! k
               = if decide (k ∈ ks) then first_pass p1 p2 strategy h k
                 else f_attrs (h p1) !! k.
Proof.
  induction ks as [|key ks IH]; intros h Hnd Hks.
  - exists h. split; [done|]. split; [done|]. intros k.
    rewrite decide_False; [done|]. apply not_elem_of_nil.
  - apply NoDup_cons in Hnd as [Hkey Hnd].
    destruct (sanitize_first_step strategy h key) as (h1 & Hstep & Hframe & Hat & Hother).
    { apply Hks. left. }
    destruct (IH h1 Hnd) as (h' & Hfold & Hframe' & Hlook).
    { intros k Hk. rewrite Hother; [apply Hks; by right|]. intros ->. done. }
    exists h'. split; [simpl; rewrite Hstep; exact Hfold|].
    split; [eapply attrs_frame_trans; eassumption|].
    intros k. rewrite Hlook.
    destruct (decide (k = key)) as [->|Hne].
    + rewrite decide_False by done. rewrite decide_True by left. exact Hat.
    + destruct (decide (k ∈ ks)) as [Hin|Hnin].
      * rewrite decide_True by (by right). unfold first_pass.
        rewrite Hother by done.
        rewrite (attrs_frame_second h h1 key Hframe Hother k Hne). done.
      * rewrite decide_False; [by apply Hother|].
        intros [->|Hin]%elem_of_cons; done.
Qed.

Lemma sanitize_second_step h (key : string) :
  is_Some (f_attrs (h p2) !! key) →
  ∃ h', sanitize_second p1 p2 h key = Some h'
        ∧ attrs_frame p1 h h'
        ∧ (∀ k, f_attrs (h' p2) !! k = None → f_attrs (h p2) !! k = None)
        ∧ (∀ k, is_Some (f_attrs (h p2) !! k) → f_attrs (h' p2) !! k = f_attrs (h p2) !! k)
        ∧ f_attrs (h' p1) !! key
          = match f_attrs (h p1) !! key with
            | Some v => Some v
            | None => f_attrs (h p2) !! key
            end
        ∧ ∀ k, k ≠ key → f_attrs (h' p1) !! k = f_attrs (h p1) !! k.
Proof.
  intros [w Hw]. unfold sanitize_second. rewrite Hw. simpl.
  destruct (has_key (h p1) key) eqn:Hhas; simpl.
  - apply has_key_lookup in Hhas as [v Hv]. exists h. rewrite Hv. done.
  - apply has_key_false in Hhas. rewrite Hhas.
    assert (p2 ≠ p1) as Hp by (intros ->; congruence).
    eexists. split; [reflexivity|]. split; [|split; [|split; [|split]]].
    + split; [|split].
      * intros q Hq. by rewrite fn_lookup_insert_ne.
      * by rewrite fn_lookup_insert.
      * by rewrite fn_lookup_insert.
    + intros k. by rewrite fn_lookup_insert_ne.
    + intros k _. by rewrite fn_lookup_insert_ne.
    + rewrite fn_lookup_insert. simpl. apply lookup_insert_eq.
    + intros k Hk. rewrite fn_lookup_insert. simpl. by apply lookup_insert_ne.
Qed.

Lemma second_loop (ks : list string) : ∀ h,
  (∀ k, k ∈ ks → is_Some (f_attrs (h p2) !! k)) →
  ∃ h', foldlM (sanitize_second p1 p2) h ks = Some h'
        ∧ attrs_frame p1 h h'
        ∧ ∀ k, f_attrs (h' p1) !! k
               = match f_attrs (h p1) !! k with
                 | Some v => Some v
                 | None => if decide (k ∈ ks) then f_attrs (h p2) !! k else None
                 end.
Proof.
  induction ks as [|key ks IH]; intros h Hks.
  - exists h. split; [done|]. split; [done|]. intros k.
    rewrite decide_False by apply not_elem_of_nil. by destruct (_ !! k).
  - destruct (sanitize_second_step h key) as (h1 & Hstep & Hframe & _ & Hsame & Hat & Hother).
    { apply Hks. left. }
    destruct (IH h1) as (h' & Hfold & Hframe' & Hlook).
    { intros k Hk. rewrite Hsame; apply Hks; by right. }
    exists h'. split; [simpl; rewrite Hstep; exact Hfold|].
    split; [eapply attrs_frame_trans; eassumption|].
    intros k. rewrite Hlook.
    destruct (decide (k = key)) as [->|Hne].
    + rewrite Hat. rewrite (decide_True (P := key ∈ key :: ks)) by left.
      destruct (f_attrs (h p1) !! key) as [v|]; [done|].
      destruct (Hks key) as [w Hw]; [left|]. rewrite Hw. done.
    + rewrite Hother by done.
      destruct (f_attrs (h p1) !! k) as [v|]; [done|].
      destruct (decide (k ∈ ks)) as [Hin|Hnin].
      * rewrite decide_True by (by right). apply Hsame, Hks. by right.
      * rewrite decide_False; [done|]. intros [->|Hin]%elem_of_cons; done.
Qed.

Lemma elem_of_keys (f : feature) (key : string) :
  key ∈ keys f ↔ is_Some (f_attrs f !! key).
Proof.
  unfold keys. rewrite list_elem_of_fmap. split.
  - intros ([k v] & -> & Hin). apply elem_of_map_to_list in Hin. eauto.
  - intros [v Hv]. exists (key, v). split; [done|]. by apply elem_of_map_to_list.
Qed.

Lemma NoDup_keys (f : feature) : NoDup (keys f).
Proof. apply NoDup_fst_map_to_list. Qed.

End SanitizeProps.

Section SanitizeTags.
Import Mapnik Unionizer Notions.
Context `{ValueOps}.

(** [sanitize_tags] always returns, and touches nothing but the
    attributes of the first partner. *)
Lemma sanitize_tags_frame (strategy : tag_strategy) (couple : couple_t)
    (h : nat → feature) :
  ∃ h', sanitize_tags strategy couple h = Some h'
        ∧ attrs_frame (m_parent (fst couple)) h h'.
Proof.
  unfold sanitize_tags.
  set (p1 := m_parent (fst couple)). set (p2 := m_parent (snd couple)).
  destruct (first_loop p1 p2 strategy (keys (h p1)) h) as (h1 & Hfold1 & Hframe1 & _).
  { apply NoDup_keys. }
  { intros k. apply elem_of_keys. }
  rewrite Hfold1. simpl. destruct strategy.
  - exists h1. done.
  - destruct (second_loop p1 p2 (keys (h1 p2)) h1) as (h2 & Hfold2 & Hframe2 & _).
    { intros k. apply elem_of_keys. }
    exists h2. split; [exact Hfold2|]. eapply attrs_frame_trans; eassumption.
Qed.

(** C2, as amended.  Under the accumulate strategy the merge always
    completes, and afterwards the destination has: under every key of
    its own that the other feature has too, null if the two values
    differ and its own value if they do not; under every key of its own
    that the other feature lacks, its own value, unchanged; and under
    every key that only the other feature has, the value of the other
    feature.  No other feature changes. *)
Theorem sanitize_tags_accumulate (couple : couple_t) (h : nat → feature) :
  let p1 := m_parent (fst couple) in
  let p2 := m_parent (snd couple) in
  ∃ h', sanitize_tags ACCUMULATE couple h = Some h'
        ∧ (∀ q, q ≠ p1 → h' q = h q)
        ∧ ∀ key, f_attrs (h' p1) !! key
                 = match f_attrs (h p1) !! key with
                   | Some v =>
                       match f_attrs (h p2) !! key with
                       | Some w => Some (if value_ne v w then value_null else v)
                       | None => Some v
                       end
                   | None => f_attrs (h p2) !! key
                   end.
Proof.
  intros p1 p2. unfold sanitize_tags. fold p1 p2.
  destruct (first_loop p1 p2 ACCUMULATE (keys (h p1)) h) as (h1 & Hfold1 & Hframe1 & Hlook1).
  { apply NoDup_keys. }
  { intros k. apply elem_of_keys. }
  rewrite Hfold1. simpl.
  destruct (second_loop p1 p2 (keys (h1 p2)) h1) as (h2 & Hfold2 & Hframe2 & Hlook2).
  { intros k. apply elem_of_keys. }
  exists h2. split; [exact Hfold2|]. split.
  { intros q Hq. destruct Hframe1 as (Ha & _), Hframe2 as (Hb & _).
    rewrite Hb by done. by apply Ha. }
  intros key. rewrite Hlook2, Hlook1.
  destruct (decide (key ∈ keys (h p1))) as [Hin|Hnin].
  - apply elem_of_keys in Hin as [v Hv]. unfold first_pass. rewrite Hv.
    by destruct (f_attrs (h p2) !! key).
  - assert (f_attrs (h p1) !! key = None) as Hnone.
    { apply eq_None_not_Some. by rewrite <- elem_of_keys. }
    rewrite Hnone.
    assert (f_attrs (h1 p2) !! key = f_attrs (h p2) !! key) as Hsecond.
    { destruct (decide (p2 = p1)) as [Heq|Hne].
      - rewrite Heq, Hlook1, decide_False by done. done.
      - destruct Hframe1 as (Ha & _). by rewrite Ha. }
    rewrite Hsecond.
    destruct (decide (key ∈ keys (h1 p2))) as [Hin2|Hnin2]; [done|].
    symmetry. rewrite <- Hsecond. apply eq_None_not_Some. by rewrite <- elem_of_keys.
Qed.
End SanitizeTags.

Section SanitizeTagsExamples.
Import Mapnik Unionizer Examples Inputs.

(** C2, as stated, fails on the roads of the accumulate scenario: the
    first road keeps its [ref], which the second road lacks, where the
    intersect pass followed by the copy leaves null. *)
Lemma accumulate_keeps_unshared_key :
  ¬ ∃ h', sanitize_tags ACCUMULATE roads_couple (heap_of roads) = Some h'
          ∧ f_attrs (h' 0%nat) = Spec.accumulate tags_a tags_b.
Proof.
  intros (h' & Hs & Heq).
  assert ((h ← sanitize_tags ACCUMULATE roads_couple (heap_of roads);
           Some (f_attrs (h 0%nat) !! "ref")) = Some (Some (str "A1"))) as Href
    by (vm_compute; reflexivity).
  rewrite Hs in Href. simpl in Href. rewrite Heq in Href.
  vm_compute in Href. discriminate Href.
Qed.
End SanitizeTagsExamples.

(** ** The splice *)

Section SpliceProps.
Import Mapnik Unionizer.
Local Open Scope nat_scope.

Lemma erase_path_in (h : nat → feature) (p i : nat) :
  i < length (f_paths (h p)) →
  erase_path h p i = Some (<[p := set_paths (h p) (delete i (f_paths (h p)))]> h).
Proof.
  intros Hi. unfold erase_path. apply Nat.ltb_lt in Hi. rewrite Hi. reflexivity.
Qed.

Lemma erase_path_out (h : nat → feature) (p i : nat) :
  length (f_paths (h p)) ≤ i → erase_path h p i = None.
Proof.
  intros Hi. unfold erase_path. apply Nat.ltb_ge in Hi. rewrite Hi. reflexivity.
Qed.

(** What a couple that passed the filter is made of. *)
Lemma make_couple_Some (a b : candidate) (c : couple_t) :
  make_couple a b = Some c →
  c = (a, b)
  ∧ (m_parent a = m_parent b → m_index a ≠ m_index b)
  ∧ m_directional a = m_directional b
  ∧ (m_directional a = true → m_position a ≠ m_position b).
Proof.
  unfold make_couple. intros Hc.
  destruct ((m_index a =? m_index b) && (m_parent a =? m_parent b)) eqn:Hsame;
    [discriminate|].
  destruct (Bool.eqb (m_directional a) (m_directional b)) eqn:Hdir; simpl in Hc;
    [|discriminate].
  apply Bool.eqb_prop in Hdir.
  destruct (m_directional a && position_eqb (m_position a) (m_position b)) eqn:Hpos;
    [discriminate|].
  injection Hc as <-. split; [done|]. split; [|split; [done|]].
  - intros Hp Hi. rewrite Hp, Hi, !Nat.eqb_refl in Hsame. discriminate.
  - intros Ha Heq. rewrite Ha, Heq in Hpos. by destruct (m_position b).
Qed.

(** Two ends of one feature that keeps no direction make a couple
    exactly when they belong to different geometries. *)
Lemma make_couple_same_feature (a b : candidate) :
  m_parent a = m_parent b →
  m_directional a = false → m_directional b = false →
  make_couple a b = if decide (m_index a = m_index b) then None else Some (a, b).
Proof.
  intros Hp Ha Hb. unfold make_couple. rewrite Hp, Nat.eqb_refl, Ha, Hb. simpl.
  rewrite andb_true_r. case_decide as Hi.
  - apply Nat.eqb_eq in Hi. by rewrite Hi.
  - apply Nat.eqb_neq in Hi. by rewrite Hi.
Qed.

(** C10.  Take the front ends [a] and [b] of two geometries, at the
    indices i < j, of one feature that keeps no direction.  The filter
    makes them a couple.  The splice erases at i and then at j in the
    container that the first erase has shifted: when j was the last
    position the second erase is past the end, and otherwise the
    consumed geometry of [b] is still in the container, one position
    down, and what is gone is its successor. *)
Theorem front_front_same_feature_erase (h : nat → feature) (a b : candidate)
    (src1 src2 : geometry_type) :
  let paths := f_paths (h (m_parent a)) in
  m_position a = FRONT → m_position b = FRONT →
  m_parent a = m_parent b →
  m_directional a = false → m_directional b = false →
  paths !! m_index a = Some src1 →
  paths !! m_index b = Some src2 →
  m_index a < m_index b →
  make_couple a b = Some (a, b)
  ∧ (S (m_index b) = length paths → do_union (a, b) h = None)
  ∧ (S (m_index b) < length paths →
     ∃ h', do_union (a, b) h = Some ((a, b), h')
           ∧ f_paths (h' (m_parent a))
             = delete (m_index b) (delete (m_index a) paths)
                 ++ [front_to_front src1 src2]
           ∧ f_paths (h' (m_parent a)) !! (m_index b - 1) = Some src2
           ∧ ∀ k, m_index b ≤ k → k < length paths - 2 →
                  f_paths (h' (m_parent a)) !! k = paths !! S (S k)).
Proof.
  intros paths Ha Hb Hp Hda Hdb H1 H2 Hlt.
  split.
  { rewrite make_couple_same_feature by done. rewrite decide_False by lia. done. }
  assert (m_index b < length paths) as Hjlen by (eapply lookup_lt_Some; eassumption).
  assert (m_index a < length paths) as Hilen by lia.
  assert (do_union (a, b) h
          = h1 ← erase_path h (m_parent a) (m_index a);
            h2 ← erase_path h1 (m_parent b) (m_index b);
            Some ((a, b), <[m_parent a := set_paths (h2 (m_parent a))
                              (f_paths (h2 (m_parent a)) ++ [front_to_front src1 src2])]> h2))
    as ->.
  { unfold do_union. simpl. rewrite Ha, Hb. simpl.
    fold paths. rewrite H1. simpl. rewrite <- Hp. fold paths. rewrite H2. simpl.
    reflexivity. }
  rewrite erase_path_in by exact Hilen. simpl. rewrite <- Hp. fold paths.
  assert (length (delete (m_index a) paths) = length paths - 1) as Hlen1.
  { apply length_delete. eauto. }
  split.
  - intros Hlast. rewrite erase_path_out; [reflexivity|].
    rewrite fn_lookup_insert. simpl. lia.
  - intros Hmore. rewrite erase_path_in by (rewrite fn_lookup_insert; simpl; lia).
    simpl. eexists. split; [reflexivity|].
    rewrite !fn_lookup_insert. simpl.
    split; [reflexivity|].
    assert (length (delete (m_index b) (delete (m_index a) paths)) = length paths - 2)
      as Hlen2.
    { rewrite length_delete; [lia|]. apply lookup_lt_is_Some. lia. }
    split.
    + rewrite lookup_app_l by lia.
      rewrite list_lookup_delete_lt by lia.
      rewrite list_lookup_delete_ge by lia.
      replace (S (m_index b - 1)) with (m_index b) by lia. exact H2.
    + intros k Hk Hk2. rewrite lookup_app_l by lia.
      rewrite list_lookup_delete_ge by lia.
      rewrite list_lookup_delete_ge by lia. reflexivity.
Qed.
End SpliceProps.

Section SpliceExamples.
Import Mapnik Unionizer Examples Inputs.
Local Open Scope nat_scope.

(** With three spokes the splice of the first two leaves the second
    spoke in place and drops the third; with two spokes the second
    erase is past the end. *)
Lemma front_front_same_feature_erase_witness :
  (make_couple (spoke_front 0) (spoke_front 1) = Some (spoke_front 0, spoke_front 1)
   ∧ ∃ h', do_union (spoke_front 0, spoke_front 1) (heap_of fork3)
             = Some ((spoke_front 0, spoke_front 1), h')
           ∧ f_paths (h' 0)
             = [north; front_to_front east north])
  ∧ do_union (spoke_front 0, spoke_front 1) (heap_of fork2) = None.
Proof.
  split.
  - destruct (front_front_same_feature_erase (heap_of fork3)
                (spoke_front 0) (spoke_front 1) east north
                eq_refl eq_refl eq_refl eq_refl eq_refl eq_refl eq_refl
                (le_n 1)) as (Hcouple & _ & Hdefined).
    split; [exact Hcouple|].
    destruct Hdefined as (h' & Hunion & Hpaths & _); [simpl; lia|].
    exists h'. split; [exact Hunion|]. exact Hpaths.
  - destruct (front_front_same_feature_erase (heap_of fork2)
                (spoke_front 0) (spoke_front 1) east north
                eq_refl eq_refl eq_refl eq_refl eq_refl eq_refl eq_refl
                (le_n 1)) as (_ & Hlast & _).
    apply Hlast. reflexivity.
Defined.
End SpliceExamples.

(** ** One merge per feature and iteration *)


Section WalkProps.
Import Mapnik Unionizer Notions.
Context `{ValueOps}.
Local Open Scope nat_scope.

Lemma same_ids_refl h : same_ids h h.
Proof. done. Qed.

Lemma same_ids_trans h1 h2 h3 : same_ids h1 h2 → same_ids h2 h3 → same_ids h1 h3.
Proof. intros H12 H23 q. by rewrite H23. Qed.

Lemma same_ids_set_paths (h : nat → feature) (p : nat) (ps : list geometry_type) :
  same_ids h (<[p := set_paths (h p) ps]> h).
Proof.
  intros r. destruct (decide (p = r)) as [<-|Hne].
  - by rewrite fn_lookup_insert.
  - by rewrite fn_lookup_insert_ne.
Qed.

Lemma erase_path_ids (h h' : nat → feature) (p i : nat) :
  erase_path h p i = Some h' → same_ids h h'.
Proof.
  unfold erase_path. destruct (i <? _); [|discriminate]. intros [= <-].
  apply same_ids_set_paths.
Qed.

(** Splits a hypothesis [m ≫= f = Some y] into its steps. *)
Ltac split_binds H :=
  repeat match type of H with
         | _ ≫= _ = Some _ =>
             let x := fresh "x" in
             let Hx := fresh "Hx" in
             apply bind_Some in H as (x & Hx & H)
         end.

Lemma do_union_ids (c c' : couple_t) (h h' : nat → feature) :
  do_union c h = Some (c', h') →
  same_ids h h' ∧ (c' = c ∨ c' = (snd c, fst c)).
Proof.
  destruct c as [a b]. unfold do_union. simpl. intros Hu.
  repeat case_match; try discriminate; subst.
  all: split_binds Hu; injection Hu as <- <-.
  all: split; [|auto].
  all: repeat match goal with
              | Hx : erase_path _ _ _ = Some _ |- _ => apply erase_path_ids in Hx
              end.
  all: try (eapply same_ids_trans; [|eassumption]; apply same_ids_set_paths).
  eapply same_ids_trans; [|apply same_ids_set_paths].
  eapply same_ids_trans; eassumption.
Qed.

Lemma sanitize_tags_ids (strategy : tag_strategy) (c : couple_t) (h h' : nat → feature) :
  sanitize_tags strategy c h = Some h' → same_ids h h'.
Proof.
  destruct (sanitize_tags_frame strategy c h) as (h1 & -> & Hq & Hid & _).
  intros [= <-] q. destruct (decide (q = m_parent (fst c))) as [->|Hne]; [done|].
  by rewrite Hq.
Qed.

Lemma filter_none {A} (P : A → Prop) `{∀ x, Decision (P x)} (l : list A) :
  (∀ x, x ∈ l → ¬ P x) → filter P l = [].
Proof.
  induction l as [|x l IH]; intros Hl; [done|].
  rewrite filter_cons_False by (apply Hl; left). apply IH.
  intros y Hy. apply Hl. by right.
Qed.

Lemma walk_inv_start (h0 : nat → feature) : walk_inv h0 (mk_walk h0 ∅ []).
Proof.
  split; [done|]. split.
  - intros id. split; [set_solver|]. intros (c & Hc & _). by apply elem_of_nil in Hc.
  - intros id. simpl. lia.
Qed.

Lemma couple_ids_swap (h : nat → feature) (c : couple_t) (id : Z) :
  id ∈ couple_ids h (snd c, fst c) ↔ id ∈ couple_ids h c.
Proof. unfold couple_ids. simpl. rewrite !elem_of_cons, !elem_of_nil. tauto. Qed.

Lemma union_entry_skips (strategy : tag_strategy) (w : walk) (entry : score_t * couple_t) :
  (∃ id, id ∈ couple_ids (w_heap w) (snd entry) ∧ id ∈ w_unioned w) →
  union_entry strategy w entry = Some w.
Proof.
  intros (id & Hid & Hin). unfold union_entry.
  unfold couple_ids in Hid.
  apply elem_of_cons in Hid as [->|Hid].
  - rewrite bool_decide_eq_true_2 by done. done.
  - apply list_elem_of_singleton in Hid as ->.
    rewrite (bool_decide_eq_true_2 (_ ∈ _) Hin). by rewrite orb_true_r.
Qed.

Lemma union_entry_inv (strategy : tag_strategy) (h0 : nat → feature) (w w' : walk)
    (entry : score_t * couple_t) :
  walk_inv h0 w → union_entry strategy w entry = Some w' → walk_inv h0 w'.
Proof.
  intros (Hids & Hset & Hone). unfold union_entry.
  destruct (bool_decide (f_id (w_heap w (m_parent (snd entry).1)) ∈ w_unioned w)) eqn:H1;
    [intros [= <-]; done|].
  destruct (bool_decide (f_id (w_heap w (m_parent (snd entry).2)) ∈ w_unioned w)) eqn:H2;
    [intros [= <-]; done|].
  simpl. apply bool_decide_eq_false in H1, H2.
  destruct (do_union (snd entry) (w_heap w)) as [[c' h1]|] eqn:Hu; [|discriminate].
  simpl. destruct (sanitize_tags strategy c' h1) as [h2|] eqn:Hs; [|discriminate].
  simpl. intros [= <-].
  apply do_union_ids in Hu as [Hids1 Hc'].
  apply sanitize_tags_ids in Hs.
  assert (same_ids h0 h2) as Hids2.
  { eapply same_ids_trans; [|exact Hs]. eapply same_ids_trans; eassumption. }
  assert (∀ id, id ∈ couple_ids h0 c' ↔ id ∈ couple_ids h0 (snd entry)) as Hswap.
  { intros id. destruct Hc' as [->| ->]; [done|]. apply couple_ids_swap. }
  assert (∀ id, id ∈ couple_ids h0 c' → id ∉ w_unioned w) as Hfresh.
  { intros id Hid. apply Hswap in Hid. unfold couple_ids in Hid. rewrite <- !Hids in Hid.
    apply elem_of_cons in Hid as [->|Hid]; [done|].
    by apply list_elem_of_singleton in Hid as ->. }
  split; [exact Hids2|]. simpl. split.
  - intros id. rewrite !elem_of_union, !elem_of_singleton, Hset.
    rewrite !Hids2. split.
    + intros [->|[->|(c & Hc & Hid)]].
      * exists c'. split; [apply elem_of_app; right; left|]. unfold couple_ids. right. left.
      * exists c'. split; [apply elem_of_app; right; left|]. unfold couple_ids. left.
      * exists c. split; [apply elem_of_app; by left|done].
    + intros (c & [Hc|Hc]%elem_of_app & Hid).
      * right. right. eauto.
      * apply list_elem_of_singleton in Hc as ->. unfold couple_ids in Hid.
        apply elem_of_cons in Hid as [->|Hid]; [right; by left|].
        apply list_elem_of_singleton in Hid as ->. by left.
  - intros id. unfold merges_of_id. rewrite filter_app, length_app.
    destruct (decide (id ∈ couple_ids h0 c')) as [Hin|Hnin].
    + rewrite (filter_none _ (w_done w));
        [by rewrite (filter_cons_True (λ c, id ∈ couple_ids h0 c) c' [] Hin)|].
      intros c Hc Hid. apply (Hfresh id Hin). apply Hset. eauto.
    + rewrite (filter_cons_False (λ c, id ∈ couple_ids h0 c) c' [] Hnin), filter_nil. simpl.
      specialize (Hone id). unfold merges_of_id in Hone. lia.
Qed.

Lemma union_fold_inv (strategy : tag_strategy) (h0 : nat → feature)
    (scored : score_map) : ∀ w w',
  walk_inv h0 w → foldlM (union_entry strategy) w scored = Some w' → walk_inv h0 w'.
Proof.
  induction scored as [|entry scored IH]; intros w w' Hinv; simpl.
  - intros [= <-]. exact Hinv.
  - destruct (union_entry strategy w entry) as [w1|] eqn:Hstep; [|discriminate].
    simpl. apply IH. eapply union_entry_inv; eassumption.
Qed.

Lemma merges_of_by_id (h : nat → feature) (p : nat) (done : list couple_t) :
  length (merges_of p done) ≤ length (merges_of_id h (f_id (h p)) done).
Proof.
  unfold merges_of, merges_of_id.
  induction done as [|c done IH]; [done|].
  destruct (decide (p ∈ couple_ptrs c)) as [Hin|Hnin].
  - rewrite (filter_cons_True (λ c, p ∈ couple_ptrs c)) by done.
    rewrite filter_cons_True; [simpl; lia|].
    unfold couple_ptrs in Hin. unfold couple_ids.
    apply elem_of_cons in Hin as [->|Hin]; [left|].
    apply list_elem_of_singleton in Hin as ->. right. left.
  - rewrite (filter_cons_False (λ c, p ∈ couple_ptrs c)) by done.
    rewrite filter_cons. case_decide; simpl; lia.
Qed.

(** C8.  A couple of which a feature id is in the set of touched ids is
    skipped: the walk goes on unchanged.  After the walk the set holds
    exactly the ids of the features of the couples that went through
    [do_union], and every feature, picked by its id or by its address,
    is in at most one of these couples. *)
Theorem one_merge_per_feature (strategy : tag_strategy) :
  (∀ (w : walk) (entry : score_t * couple_t),
     (∃ id, id ∈ couple_ids (w_heap w) (snd entry) ∧ id ∈ w_unioned w) →
     union_entry strategy w entry = Some w)
  ∧ (∀ (scored : score_map) (h : nat → feature) (w : walk),
       union_walk scored strategy h = Some w →
       (∀ id, id ∈ w_unioned w ↔ ∃ c, c ∈ w_done w ∧ id ∈ couple_ids h c)
       ∧ (∀ id, length (merges_of_id h id (w_done w)) ≤ 1)
       ∧ (∀ p, length (merges_of p (w_done w)) ≤ 1)).
Proof.
  split; [apply union_entry_skips|].
  intros scored h w Hwalk.
  destruct (union_fold_inv strategy h scored _ _ (walk_inv_start h) Hwalk)
    as (_ & Hset & Hone).
  split; [exact Hset|]. split; [exact Hone|].
  intros p. etransitivity; [apply (merges_of_by_id h)|apply Hone].
Qed.
End WalkProps.

Section WalkExamples.
Import Mapnik Unionizer Notions Examples Inputs.
Local Open Scope nat_scope.

(** On the row of three linestrings two couples are scored, the middle
    feature is in both, and the walk unions the first only. *)
Lemma one_merge_per_feature_witness :
  ∃ scored w,
    row_scored = Some scored
    ∧ length scored = 2
    ∧ union_walk scored INTERSECT (heap_of row) = Some w
    ∧ length (w_done w) = 1
    ∧ ∀ p, length (merges_of p (w_done w)) ≤ 1.
Proof.
  destruct row_scored as [scored|] eqn:Hscored; [|vm_compute in Hscored; discriminate].
  vm_compute in Hscored. injection Hscored as <-.
  match goal with
  | |- ∃ scored w, _ = Some scored ∧ _ =>
      eexists; destruct (union_walk _ INTERSECT (heap_of row)) as [w|] eqn:Hwalk
  end.
  - exists w. split; [reflexivity|]. split; [reflexivity|]. split; [reflexivity|].
    split.
    + vm_compute in Hwalk. injection Hwalk as <-. reflexivity.
    + apply (proj2 (one_merge_per_feature INTERSECT) _ _ _ Hwalk).
  - vm_compute in Hwalk. discriminate Hwalk.
Defined.
End WalkExamples.

(** ** The score-ordered map *)

Section ScoreMapProps.
Import Mapnik Unionizer Notions.

(** [emplace] under a key that is taken changes nothing. *)
Lemma map_emplace_taken (k : score_t) (v : couple_t) (m : score_map) :
  Sorted Z.lt m.*1 → k ∈ m.*1 → map_emplace k v m = m.
Proof.
  induction m as [|[k' v'] m IH]; simpl.
  - intros _ Hin. by apply elem_of_nil in Hin.
  - intros Hsorted Hin. apply Sorted_StronglySorted in Hsorted; [|intros ???; lia].
    apply StronglySorted_inv in Hsorted as [Htail Hhead].
    destruct (k <? k') eqn:Hlt.
    + apply Z.ltb_lt in Hlt. apply elem_of_cons in Hin as [->|Hin]; [lia|].
      rewrite Forall_forall in Hhead. specialize (Hhead k Hin). lia.
    + destruct (k =? k') eqn:Heq; [done|].
      apply Z.eqb_neq in Heq. apply elem_of_cons in Hin as [?|Hin]; [done|].
      rewrite IH; [done| |done]. by apply StronglySorted_Sorted.
Qed.

(** The keys of the map stay in ascending order, each once. *)
Lemma map_emplace_sorted (k : score_t) (v : couple_t) (m : score_map) :
  Sorted Z.lt m.*1 → Sorted Z.lt (map_emplace k v m).*1.
Proof.
  induction m as [|[k' v'] m IH]; simpl; intros Hsorted.
  - repeat constructor.
  - destruct (k <? k') eqn:Hlt; simpl.
    + apply Z.ltb_lt in Hlt. constructor; [exact Hsorted|]. by constructor.
    + destruct (k =? k') eqn:Heq; [exact Hsorted|]. simpl.
      apply Z.ltb_ge in Hlt. apply Z.eqb_neq in Heq.
      apply Sorted_inv in Hsorted as [Htail Hhead].
      constructor; [by apply IH|].
      destruct m as [|[k'' v''] m]; simpl.
      * constructor. lia.
      * apply HdRel_inv in Hhead. simpl in Hhead.
        destruct (k <? k''); simpl; [constructor; lia|].
        destruct (k =? k''); simpl; constructor; lia.
Qed.

Lemma score_adjacent_collects (cmp : candidate → candidate → bool)
    (scorer : couple_t → option score_t) (c : candidate) (rest : list candidate) :
  ∀ pairs, score_adjacent cmp scorer c rest pairs
           = foldlM collect pairs (Spec.adjacent_pairs cmp scorer c rest).
Proof.
  induction rest as [|n rest IH]; intros pairs; simpl; [done|].
  destruct (cmp c n); [done|].
  destruct (make_couple c n) as [couple|]; simpl.
  - unfold collect at 2. simpl. destruct (scorer couple) as [s|]; simpl; [apply IH|done].
  - apply IH.
Qed.

(** [score_candidates] emplaces the compatible pairs of the adjacency
    groups in turn. *)
Lemma score_candidates_collects (cmp : candidate → candidate → bool)
    (scorer : couple_t → option score_t) (candidates : list candidate) :
  score_candidates cmp candidates scorer
  = foldlM collect [] (Spec.compatible_pairs cmp scorer candidates).
Proof.
  unfold score_candidates. generalize (@nil (score_t * couple_t)).
  induction candidates as [|c rest IH]; intros pairs; simpl; [done|].
  rewrite foldlM_app, score_adjacent_collects.
  destruct (foldlM collect pairs _); simpl; [apply IH|done].
Qed.

(** No two entries of the result have the same score. *)
Lemma score_candidates_sorted (cmp : candidate → candidate → bool)
    (scorer : couple_t → option score_t) (candidates : list candidate)
    (scored : score_map) :
  score_candidates cmp candidates scorer = Some scored → Sorted Z.lt scored.*1.
Proof.
  rewrite score_candidates_collects.
  assert (Sorted Z.lt (@nil (score_t * couple_t)).*1) as Hnil by constructor.
  revert Hnil. generalize (@nil (score_t * couple_t)).
  induction (Spec.compatible_pairs cmp scorer candidates) as [|[s couple] l IH];
    intros pairs Hpairs; simpl.
  - by intros [= <-].
  - unfold collect at 1. simpl. destruct s as [s|]; simpl; [|done].
    apply IH. by apply map_emplace_sorted.
Qed.
End ScoreMapProps.

Section ScoreMapExamples.
Import Mapnik Unionizer Examples Inputs.
Local Open Scope nat_scope.

(** C3.  On the four linestrings of [chains] the candidate multiset has
    two adjacency groups with one compatible couple each, both of greedy
    score 0.  [score_candidates] returns the first couple only: the
    second [emplace] under the key 0 is dropped.  One iteration then
    leaves three features where the two couples would leave two. *)
Theorem score_candidates_one_couple_per_score :
  let cmp := candidate_comparator [] (heap_of chains) in
  ∃ candidates,
    get_candidates (heap_of chains) [0; 1; 2; 3] [] [] GREEDY budget = Some candidates
    ∧ Spec.compatible_pairs cmp greedy candidates
      = [ (Some 0%Z, (end_of BACK 0 1%Q, end_of FRONT 1 1%Q));
          (Some 0%Z, (end_of BACK 2 6%Q, end_of FRONT 3 6%Q)) ]
    ∧ score_candidates cmp candidates greedy
      = Some [ (0%Z, (end_of BACK 0 1%Q, end_of FRONT 1 1%Q)) ]
    ∧ (λ r, length (fst r))
        <$> process greedy_once [0; 1; 2; 3] (heap_of chains) 100%Q 100%Q
      = Some 3.
Proof.
  intros cmp. eexists. split; [vm_compute; reflexivity|].
  split; [vm_compute; reflexivity|].
  split; [vm_compute; reflexivity|].
  vm_compute. reflexivity.
Qed.
End ScoreMapExamples.

(** ** Entries of the adminizer *)

Section EntriesProps.
Import Mapnik Adminizer Notions.
Local Open Scope nat_scope.

Lemma uint_incr_nth (n : nat) : uint_incr (nth_index n) = nth_index (S n).
Proof.
  unfold uint_incr, nth_index. rewrite Nat2N.inj_succ, <- N.add_1_r.
  rewrite N.Div0.add_mod_idemp_l. reflexivity.
Qed.

Lemma entry_step_inv (param : value) (st st' : list entry * N) (g : geometry_type)
    (sources : list (geometry_type * value)) :
  entries_inv st sources →
  entry_step param st g = Some st' →
  entries_inv st' (sources ++ source_of param g).
Proof.
  destruct st as [entries index]. intros (Hindex & Hseq & Hfrom).
  unfold entry_step, source_of. simpl in *.
  destruct (geometry_types_eqb (g_type g) Polygon).
  - destruct (make_boost_polygon g) as [poly|] eqn:Hpoly; simpl; [|discriminate].
    intros [= <-]. split; [|split]; simpl.
    + rewrite length_app. simpl. rewrite Nat.add_1_r, Hindex. apply uint_incr_nth.
    + rewrite fmap_app, length_app. simpl. rewrite Nat.add_1_r, seq_S, fmap_app.
      simpl. by rewrite Hseq, Hindex.
    + apply Forall2_app; [exact Hfrom|]. constructor; [|constructor]. done.
  - intros [= <-]. rewrite app_nil_r. done.
Qed.

Lemma flat_map_source (param : value) (paths : list geometry_type) :
  flat_map (source_of param) paths
  = map (λ g, (g, param))
      (List.filter (λ g, geometry_types_eqb (g_type g) Polygon) paths).
Proof.
  induction paths as [|g paths IH]; [reflexivity|].
  simpl. unfold source_of at 1.
  destruct (geometry_types_eqb (g_type g) Polygon); simpl; by rewrite IH.
Qed.

Lemma entry_steps_inv (param : value) (paths : list geometry_type) :
  ∀ st st' sources,
  entries_inv st sources →
  Unionizer.foldlM (entry_step param) st paths = Some st' →
  entries_inv st' (sources ++ flat_map (source_of param) paths).
Proof.
  induction paths as [|g paths IH]; intros st st' sources Hinv; simpl.
  - intros [= <-]. by rewrite app_nil_r.
  - destruct (entry_step param st g) as [st1|] eqn:Hstep; simpl; [|discriminate].
    intros Hrest. rewrite app_assoc. eapply IH; [|exact Hrest].
    eapply entry_step_inv; eassumption.
Qed.

Lemma feature_entries_inv (a : adminizer) (fset : list feature) :
  ∀ st st' sources,
  entries_inv st sources →
  Unionizer.foldlM (feature_entries a) st fset = Some st' →
  entries_inv st' (sources ++ polygon_sources (a_param_name a) fset).
Proof.
  induction fset as [|f fset IH]; intros st st' sources Hinv; simpl.
  - intros [= <-]. unfold polygon_sources. simpl. by rewrite app_nil_r.
  - destruct (feature_entries a st f) as [st1|] eqn:Hstep; simpl; [|discriminate].
    intros Hrest. unfold polygon_sources. simpl. rewrite app_assoc.
    eapply IH; [|exact Hrest]. rewrite <- flat_map_source.
    eapply entry_steps_inv; eassumption.
Qed.

(** Where every polygon lifts, the entries are built. *)
Lemma entry_steps_defined (param : value) (paths : list geometry_type) : ∀ st,
  Forall (λ src, is_Some (make_boost_polygon (fst src)))
    (flat_map (source_of param) paths) →
  is_Some (Unionizer.foldlM (entry_step param) st paths).
Proof.
  induction paths as [|g paths IH]; intros [entries index]; simpl; [eauto|].
  intros [Hg Hpaths]%Forall_app. unfold entry_step at 1. unfold source_of in Hg.
  destruct (geometry_types_eqb (g_type g) Polygon); simpl.
  - apply Forall_cons in Hg as [[poly Hpoly] _]. simpl in Hpoly.
    rewrite Hpoly. simpl. by apply IH.
  - by apply IH.
Qed.

Lemma feature_entries_defined (a : adminizer) (fset : list feature) : ∀ st,
  Forall (λ src, is_Some (make_boost_polygon (fst src)))
    (polygon_sources (a_param_name a) fset) →
  is_Some (Unionizer.foldlM (feature_entries a) st fset).
Proof.
  induction fset as [|f fset IH]; intros st; simpl; [eauto|].
  unfold polygon_sources. simpl. intros [Hf Hfset]%Forall_app.
  rewrite <- flat_map_source in Hf.
  destruct (entry_steps_defined _ _ st Hf) as [st1 Hst1].
  assert (feature_entries a st f = Some st1) as -> by exact Hst1.
  simpl. by apply IH.
Qed.

Lemma push_back_last_defined (rings : list (list point_2d)) (pt : point_2d) :
  rings ≠ [] → ∃ rings', push_back_last rings pt = Some rings' ∧ rings' ≠ [].
Proof.
  intros Hrings. unfold push_back_last.
  destruct (reverse rings) as [|last_ before] eqn:Hrev.
  - apply (f_equal reverse) in Hrev. rewrite reverse_involutive in Hrev. done.
  - eexists. split; [reflexivity|]. intros Happ. by apply app_eq_nil in Happ as [_ ?].
Qed.

Lemma polygon_step_defined (st : polygon_2d * double * double * N) (v : vertex) :
  rings_inv st → ∃ st', polygon_step st v = Some st' ∧ rings_inv st'.
Proof.
  destruct st as [[[poly prev_x] prev_y] ring_count]. unfold rings_inv, polygon_step.
  intros Hinv. destruct (v_cmd v).
  - eexists. split; [reflexivity|]. exact Hinv.
  - eexists. split; [reflexivity|].
    destruct (ring_count =? 0)%N eqn:Hzero; simpl.
    + left. apply N.eqb_eq in Hzero. by subst.
    + right. intros Happ. by apply app_eq_nil in Happ as [_ ?].
  - destruct (close_to _ _ _ _); [eexists; split; [reflexivity|exact Hinv]|].
    destruct (ring_count =? 1)%N eqn:Hone.
    + eexists. split; [reflexivity|]. simpl. exact Hinv.
    + apply N.eqb_neq in Hone. destruct Hinv as [?|Hinners]; [done|].
      destruct (push_back_last_defined _ (v_x v, v_y v) Hinners) as (inners' & -> & Hne).
      simpl. eexists. split; [reflexivity|]. simpl. by right.
  - eexists. split; [reflexivity|]. exact Hinv.
Qed.

Lemma polygon_steps_defined (vs : list vertex) : ∀ st,
  rings_inv st → is_Some (Unionizer.foldlM polygon_step st vs).
Proof.
  induction vs as [|v vs IH]; intros st Hinv; simpl; [eauto|].
  destruct (polygon_step_defined st v Hinv) as (st1 & -> & Hinv1). simpl.
  by apply IH.
Qed.

Lemma make_boost_polygon_defined (g : geometry_type) :
  starts_with_moveto g → is_Some (make_boost_polygon g).
Proof.
  unfold starts_with_moveto, make_boost_polygon.
  destruct (iterate (g_vertices g)) as [|v vs]; [simpl; eauto|].
  intros Hv.
  assert (polygon_step (mk_polygon [] [], 0%Q, 0%Q, 0%N) v
          = Some (mk_polygon [(v_x v, v_y v)] [], v_x v, v_y v, 1%N)) as Hfirst.
  { unfold polygon_step. rewrite Hv. reflexivity. }
  change (Unionizer.foldlM polygon_step (mk_polygon [] [], 0%Q, 0%Q, 0%N) (v :: vs))
    with (polygon_step (mk_polygon [] [], 0%Q, 0%Q, 0%N) v
            ≫= λ st, Unionizer.foldlM polygon_step st vs).
  rewrite Hfirst. simpl.
  destruct (polygon_steps_defined vs
              (mk_polygon [(v_x v, v_y v)] [], v_x v, v_y v, 1%N)) as [st ->].
  { left. reflexivity. }
  simpl. eauto.
Qed.

Lemma entries_inv_start : entries_inv ([], 0%N) [].
Proof. split; [reflexivity|]. split; [reflexivity|]. constructor. Qed.

(** C6.  The entries [make_entries] returns are, in order, one for each
    polygon geometry of the features of the featureset: the i-th entry
    has the index i (as an [unsigned int], so from 0 and up by one per
    entry), the lifted polygon of the i-th polygon geometry and the
    value that the feature of this geometry has under [param_name];
    other geometries give no entry.  The entries are built whenever
    the polygon geometries begin with a move-to. *)
Theorem make_entries_indexed (a : adminizer) (env : box2d) :
  let sources := polygon_sources (a_param_name a) (a_datasource a env) in
  (∀ entries, make_entries a env = Some entries →
     e_index <$> entries = nth_index <$> seq 0 (length entries)
     ∧ ((N.of_nat (length entries) ≤ 2 ^ 32)%N →
        e_index <$> entries = N.of_nat <$> seq 0 (length entries))
     ∧ Forall2 (λ e src, make_boost_polygon (fst src) = Some (e_polygon e)
                         ∧ e_value e = snd src) entries sources)
  ∧ (Forall (λ src, starts_with_moveto (fst src)) sources →
     is_Some (make_entries a env)).
Proof.
  intros sources. unfold make_entries. split.
  - intros entries.
    destruct (Unionizer.foldlM (feature_entries a) ([], 0%N) (a_datasource a env))
      as [st|] eqn:Hfold; simpl; [|discriminate].
    intros [= <-].
    destruct (feature_entries_inv a _ _ _ [] entries_inv_start Hfold)
      as (_ & Hseq & Hfrom).
    split; [exact Hseq|]. split; [|exact Hfrom].
    intros Hsmall. rewrite Hseq. apply Forall_fmap_ext, Forall_seq.
    intros i Hi. unfold nth_index. apply N.mod_small. lia.
  - intros Hsources.
    destruct (feature_entries_defined a (a_datasource a env) ([], 0%N)) as [st ->].
    { eapply Forall_impl; [exact Hsources|]. intros src. apply make_boost_polygon_defined. }
    simpl. eauto.
Qed.
End EntriesProps.

Section EntriesExamples.
Import Mapnik Adminizer Notions Examples Inputs.
Local Open Scope nat_scope.

(** The two regions have three polygons, a point and a line: three
    entries, with the indices 0, 1, 2 and the values of the regions. *)
Lemma make_entries_indexed_witness :
  ∃ entries,
    make_entries admin box2d_default = Some entries
    ∧ e_index <$> entries = [0; 1; 2]%N
    ∧ e_value <$> entries = [str "P0"; str "P0"; str "P1"].
Proof.
  destruct (make_entries_indexed admin box2d_default) as [Hentries Hdefined].
  destruct Hdefined as [entries He].
  { repeat constructor. }
  exists entries. split; [exact He|].
  destruct (Hentries entries He) as (Hindex & _ & _). rewrite Hindex.
  vm_compute in He. injection He as <-. split; reflexivity.
Defined.
End EntriesExamples.

(** ** The updater of the adminizer *)

Section UpdaterProps.
Import Mapnik Adminizer Notions.
Context `{BoostGeometry}.

Lemma update_index (u : param_updater) (e : entry) :
  m_index (update u e) = N.min (e_index e) (m_index u)
  ∧ m_param_name (update u e) = m_param_name u.
Proof.
  unfold update. destruct (e_index e <? m_index u)%N eqn:Hlt; simpl.
  - apply N.ltb_lt in Hlt. split; [lia|done].
  - apply N.ltb_ge in Hlt. split; [lia|done].
Qed.

Lemma update_ge (u : param_updater) (e : entry) :
  (m_index u ≤ e_index e)%N → update u e = u.
Proof. intros Hge. unfold update. apply N.ltb_ge in Hge. by rewrite Hge. Qed.

Lemma update_inv (u : param_updater) (e : entry) :
  updater_inv u → updater_inv (update u e).
Proof.
  unfold updater_inv, update. intros Hu.
  destruct (e_index e <? m_index u)%N; [reflexivity|exact Hu].
Qed.

Lemma updates_inv (es : list entry) : ∀ u,
  updater_inv u → updater_inv (foldl update u es).
Proof.
  induction es as [|e es IH]; intros u Hu; [exact Hu|].
  simpl. apply IH, update_inv, Hu.
Qed.

Lemma written_decreasing (es : list entry) : ∀ u,
  decreasing (m_index u) (e_index <$> written u es).
Proof.
  induction es as [|e es IH]; intros u; [exact I|].
  simpl. specialize (IH (update u e)). unfold update in *.
  destruct (e_index e <? m_index u)%N eqn:Hlt; simpl in *.
  - apply N.ltb_lt in Hlt. split; [exact Hlt|exact IH].
  - exact IH.
Qed.

Lemma written_attrs (es : list entry) : ∀ u,
  f_attrs (m_feature (foldl update u es))
  = foldl (λ attrs e, <[m_param_name u := e_value e]> attrs)
      (f_attrs (m_feature u)) (written u es).
Proof.
  induction es as [|e es IH]; intros u; [reflexivity|].
  simpl. rewrite IH. unfold update.
  destruct (e_index e <? m_index u)%N; reflexivity.
Qed.

Lemma zero_is_final (es : list entry) (u : param_updater) :
  m_index u = 0%N → foldl update u es = u.
Proof.
  intros Hzero. induction es as [|e es IH]; [reflexivity|].
  simpl. rewrite update_ge by lia. exact IH.
Qed.

Lemma assigns_defined (g : geom) (entries : list entry) (vs : list value_t) : ∀ u,
  Forall (λ v, is_Some (entries !! N.to_nat (snd v))) vs →
  is_Some (Unionizer.foldlM (assign g entries) u vs).
Proof.
  induction vs as [|v vs IH]; intros u; [simpl; eauto|].
  intros [[e He] Hvs]%Forall_cons. rewrite foldlM_cons.
  assert (assign g entries u v
          = Some (if intersects g (e_polygon e) then update u e else u)) as ->
    by (unfold assign; rewrite He; reflexivity).
  simpl. by apply IH.
Qed.

(** Against the index built from the entries, [try_update] stays
    inside the vector of entries. *)
Lemma try_update_defined (g : geom) (entries : list entry) (u : param_updater) :
  is_Some (try_update (make_index entries) g entries u).
Proof.
  unfold try_update. apply assigns_defined. apply Forall_forall. intros v Hv.
  unfold make_index in Hv.
  apply rtree_query_packed in Hv.
  apply elem_of_lookup_imap in Hv as (i & e & -> & He). simpl.
  apply lookup_lt_is_Some. apply lookup_lt_Some in He.
  assert (N.of_nat i mod 2 ^ 32 ≤ N.of_nat i)%N by (apply N.Div0.mod_le).
  lia.
Qed.

(** [try_update] hands to the updater, in turn, entries of [entries]
    that meet the geometry. *)
Lemma assigns_are_updates (g : geom) (entries : list entry) (vs : list value_t) :
  ∀ u u', Unionizer.foldlM (assign g entries) u vs = Some u' →
  ∃ es, u' = foldl update u es
        ∧ Forall (λ e, e ∈ entries ∧ intersects g (e_polygon e) = true) es.
Proof.
  induction vs as [|v vs IH]; intros u u'; simpl.
  - intros [= <-]. exists []. done.
  - destruct (assign g entries u v) as [u1|] eqn:Hstep; simpl; [|discriminate].
    unfold assign in Hstep.
    destruct (entries !! N.to_nat (snd v)) as [e|] eqn:He; simpl in Hstep; [|discriminate].
    injection Hstep as <-.
    destruct (intersects g (e_polygon e)) eqn:Hmeet; intros Hfold.
    + destruct (IH _ _ Hfold) as (es & -> & Hes). exists (e :: es).
      split; [reflexivity|]. constructor; [|exact Hes].
      split; [|exact Hmeet]. eapply list_elem_of_lookup_2. exact He.
    + apply IH. exact Hfold.
Qed.

Lemma geometry_is_updates (index : rtree) (entries : list entry)
    (u u' : param_updater) (g : geometry_type) :
  adminize_geometry index entries u g = Some u' →
  ∃ es, u' = foldl update u es ∧ Forall (λ e, e ∈ entries) es.
Proof.
  unfold adminize_geometry, try_update. intros Hg.
  assert (∃ bg, Unionizer.foldlM (assign bg entries) u
                  (rtree_query index (return_envelope bg)) = Some u'
          ∨ u' = u) as (bg & [Hfold| ->]).
  { destruct (g_type g).
    - exists (multi_point []). right. by injection Hg.
    - eexists. left. exact Hg.
    - destruct (make_boost_linestring g); [|discriminate]. eexists. left. exact Hg.
    - destruct (make_boost_polygon g); [|discriminate]. eexists. left. exact Hg. }
  - destruct (assigns_are_updates _ _ _ _ _ Hfold) as (es & -> & Hes).
    exists es. split; [reflexivity|]. eapply Forall_impl; [exact Hes|]. by intros e [He _].
  - exists []. done.
Qed.

Lemma paths_are_updates (index : rtree) (entries : list entry)
    (paths : list geometry_type) : ∀ u u',
  adminize_paths index entries u paths = Some u' →
  ∃ es, u' = foldl update u es ∧ Forall (λ e, e ∈ entries) es.
Proof.
  induction paths as [|g paths IH]; intros u u'; simpl.
  - intros [= <-]. exists []. done.
  - destruct (adminize_geometry index entries u g) as [u1|] eqn:Hg; [|discriminate].
    simpl. destruct (geometry_is_updates _ _ _ _ _ Hg) as (es1 & -> & Hes1).
    destruct (m_finished (foldl update u es1)).
    + intros [= <-]. exists es1. done.
    + intros Hrest. destruct (IH _ _ Hrest) as (es2 & -> & Hes2).
      exists (es1 ++ es2). split; [by rewrite foldl_app|]. by apply Forall_app.
Qed.

(** C9.  Over any entries handed to the updater in turn, the entries it
    writes have strictly decreasing indices, the first below the index
    the updater started with, and the attributes change by these writes
    alone; once the index is 0 no entry changes the updater.  The pass
    over a feature starts at the largest index and is such a sequence
    of calls on entries of the vector, its [m_finished] is set exactly
    when the index 0 was written, and once [m_finished] is set after a
    geometry the loop returns without the geometries that remain. *)
Theorem param_updater_monotone :
  (∀ (u : param_updater) (es : list entry),
     decreasing (m_index u) (e_index <$> written u es)
     ∧ f_attrs (m_feature (foldl update u es))
       = foldl (λ attrs e, <[m_param_name u := e_value e]> attrs)
           (f_attrs (m_feature u)) (written u es))
  ∧ (∀ (u : param_updater) (es : list entry),
       m_index u = 0%N → foldl update u es = u)
  ∧ (∀ (index : rtree) (entries : list entry) (f : feature) (name : string)
       (paths : list geometry_type) (u' : param_updater),
       adminize_paths index entries (param_updater_new f name) paths = Some u' →
       (∃ es, u' = foldl update (param_updater_new f name) es
              ∧ Forall (λ e, e ∈ entries) es
              ∧ decreasing uint_max (e_index <$> written (param_updater_new f name) es)
              ∧ f_attrs (m_feature u')
                = foldl (λ attrs e, <[name := e_value e]> attrs) (f_attrs f)
                    (written (param_updater_new f name) es))
       ∧ (m_finished u' = true ↔ m_index u' = 0%N))
  ∧ (∀ (index : rtree) (entries : list entry) (u u' : param_updater)
       (g : geometry_type) (rest : list geometry_type),
       adminize_geometry index entries u g = Some u' →
       m_finished u' = true →
       adminize_paths index entries u (g :: rest) = Some u').
Proof.
  split; [|split; [|split]].
  - intros u es. split; [apply written_decreasing|apply written_attrs].
  - intros u es. apply zero_is_final.
  - intros index entries f name paths u' Hpaths.
    destruct (paths_are_updates _ _ _ _ _ Hpaths) as (es & -> & Hes).
    split.
    { exists es. split; [reflexivity|]. split; [exact Hes|].
      split; [apply (written_decreasing es (param_updater_new f name))|].
      apply (written_attrs es (param_updater_new f name)). }
    assert (updater_inv (foldl update (param_updater_new f name) es)) as Hinv.
    { apply updates_inv. reflexivity. }
    rewrite Hinv. apply N.eqb_eq.
  - intros index entries u u' g rest Hg Hfin. simpl. rewrite Hg. simpl.
    by rewrite Hfin.
Qed.
End UpdaterProps.

Section UpdaterExamples.
Import Mapnik Adminizer Notions Examples Inputs.
Local Open Scope nat_scope.

(** Of four entries handed over with the indices 1, 2, 0, 1 the updater
    writes the first and the third.  The place lies in the region of
    index 0: its first point sets [m_finished] and its second point is
    not visited. *)
Lemma param_updater_monotone_witness :
  (let u := param_updater_new place "iso" in
   let es := [entry_of 2%Q "P1" 1%N; entry_of 4%Q "P2" 2%N;
              entry_of 1%Q "P0" 0%N; entry_of 2%Q "P1" 1%N] in
   written u es = [entry_of 2%Q "P1" 1%N; entry_of 1%Q "P0" 0%N]
   ∧ decreasing (m_index u) (e_index <$> written u es))
  ∧ ∃ entries u',
      make_entries admin box2d_default = Some entries
      ∧ adminize_geometry (make_index entries) entries
          (param_updater_new place "iso") (point (1 # 2)%Q (1 # 2)%Q) = Some u'
      ∧ adminize_paths (make_index entries) entries
          (param_updater_new place "iso") (f_paths place) = Some u'
      ∧ m_index u' = 0%N
      ∧ f_attrs (m_feature u') !! "iso" = Some (str "P0").
Proof.
  destruct (param_updater_monotone (H := example_backend))
    as (Hwrites & _ & Hpass & Hexit).
  split.
  - split; [reflexivity|]. apply Hwrites.
  - destruct (make_entries admin box2d_default) as [entries|] eqn:He;
      vm_compute in He; [injection He as <-|discriminate He].
    match goal with
    | |- ∃ entries u', Some ?es = Some entries ∧ _ =>
        destruct (adminize_geometry (make_index es) es
                    (param_updater_new place "iso") (point (1 # 2)%Q (1 # 2)%Q))
          as [u'|] eqn:Hfirst
    end.
    + eexists _, u'. split; [reflexivity|]. split; [exact Hfirst|].
      assert (m_finished u' = true) as Hfinished
        by (vm_compute in Hfirst; injection Hfirst as <-; reflexivity).
      pose proof (Hexit _ _ _ _ _ [point (3 # 2)%Q (3 # 2)%Q] Hfirst Hfinished) as Hpaths.
      split; [exact Hpaths|].
      split; [apply (Hpass _ _ _ _ _ _ Hpaths); exact Hfinished|].
      vm_compute in Hfirst. injection Hfirst as <-. reflexivity.
    + vm_compute in Hfirst. discriminate Hfirst.
Defined.
End UpdaterExamples.

(** ** Configuration errors *)

Section ConfigProps.
Import Mapnik Ptree Unionizer.
Context `{Translators}.

Lemma string_to_heuristic_None (s : string) :
  s ≠ "greedy" → s ≠ "obtuse" → s ≠ "acute" → string_to_heuristic s = None.
Proof.
  intros H1 H2 H3. unfold string_to_heuristic.
  apply String.eqb_neq in H1, H2, H3. by rewrite H1, H2, H3.
Qed.

Lemma string_to_strategy_None (s : string) :
  s ≠ "intersect" → s ≠ "accumulate" → string_to_strategy s = None.
Proof.
  intros H1 H2. unfold string_to_strategy.
  apply String.eqb_neq in H1, H2. by rewrite H1, H2.
Qed.

Lemma ratio_rejected (r : double) :
  ¬ (0 < r ∧ r <= 1 # 2)%Q → dle r 0%Q || dgt r (1 # 2)%Q = true.
Proof.
  intros Hout. unfold dle, dgt, dlt.
  destruct (Qle_bool r 0) eqn:Hzero; [reflexivity|].
  destruct (Qle_bool r (1 # 2)) eqn:Hhalf; [|reflexivity].
  exfalso. apply Hout. split.
  - apply Qnot_le_lt. intros Hle. apply Qle_bool_iff in Hle. congruence.
  - by apply Qle_bool_iff.
Qed.

(** C7.  [create_unionizer] throws, and so returns no unionizer, when
    the configuration has a [union_heuristic] other than greedy, obtuse
    or acute, or a [tag_strategy] other than intersect or accumulate,
    or an [angle_union_sample_ratio] that reads as a number outside
    (0, 0.5]; [create_adminizer] throws, and returns no adminizer, when
    the configuration has no [param_name]. *)
Theorem constructors_reject_bad_config (config : ptree) :
  (∀ s, get_optional_string config "union_heuristic" = Some s →
        s ≠ "greedy" → s ≠ "obtuse" → s ≠ "acute" →
        ∃ e, create_unionizer config = Throw e)
  ∧ (∀ s, get_optional_string config "tag_strategy" = Some s →
          s ≠ "intersect" → s ≠ "accumulate" →
          ∃ e, create_unionizer config = Throw e)
  ∧ (∀ c r, get_child_optional config "angle_union_sample_ratio" = Some c →
            to_double (data c) = Some r →
            ¬ (0 < r ∧ r <= 1 # 2)%Q →
            ∃ e, create_unionizer config = Throw e)
  ∧ (∀ cache : Adminizer.DatasourceCache,
       get_child_optional config "param_name" = None →
       ∃ e, Adminizer.create_adminizer config = Throw e).
Proof.
  split; [|split; [|split]].
  - intros s Hs H1 H2 H3. unfold create_unionizer, get_string_or.
    rewrite Hs. simpl. rewrite string_to_heuristic_None by done. eauto.
  - intros s Hs H1 H2. unfold create_unionizer.
    destruct (string_to_heuristic _); [|eauto].
    unfold get_string_or at 1. rewrite Hs. simpl.
    rewrite string_to_strategy_None by done. eauto.
  - intros c r Hc Hr Hout. unfold create_unionizer.
    destruct (string_to_heuristic _); [|eauto].
    destruct (string_to_strategy _); [|eauto].
    unfold get_double_or. rewrite Hc. simpl. rewrite Hr. simpl.
    rewrite ratio_rejected by done. eauto.
  - intros cache Hnone. unfold Adminizer.create_adminizer, Adminizer.adminizer_new.
    unfold get_string, get_optional_string. rewrite Hnone. simpl. eauto.
Qed.
End ConfigProps.

Section ConfigExamples.
Import Mapnik Ptree Unionizer Examples Inputs.

(** Four configurations that are refused, and one that is not. *)
Lemma constructors_reject_bad_config_witness :
  create_unionizer (config_of [("union_heuristic", "fancy")])
    = Throw (runtime_error "fancy is not supported, try `greedy, obtuse or acute'")
  ∧ (∃ e, create_unionizer (config_of [("tag_strategy", "union")]) = Throw e)
  ∧ (∃ e, create_unionizer (config_of [("angle_union_sample_ratio", "0.7")]) = Throw e)
  ∧ (∃ e, @Adminizer.create_adminizer (example_cache [])
            (config_of [("datasource", "")]) = Throw e)
  ∧ is_ok (create_unionizer (config_of [("angle_union_sample_ratio", "0.5")])) = true.
Proof.
  split; [|split; [|split; [|split]]].
  - destruct (constructors_reject_bad_config
                (config_of [("union_heuristic", "fancy")])) as (Hheuristic & _).
    destruct (Hheuristic "fancy" eq_refl) as [e He]; [done..|].
    rewrite He. vm_compute in He. injection He as <-. reflexivity.
  - destruct (constructors_reject_bad_config
                (config_of [("tag_strategy", "union")])) as (_ & Hstrategy & _).
    apply (Hstrategy "union" eq_refl); done.
  - destruct (constructors_reject_bad_config
                (config_of [("angle_union_sample_ratio", "0.7")])) as (_ & _ & Hratio & _).
    apply (Hratio (Node "0.7" []) (7 # 10)%Q eq_refl eq_refl).
    intros [_ Hle]. unfold Qle in Hle. simpl in Hle. lia.
  - destruct (constructors_reject_bad_config
                (config_of [("datasource", "")])) as (_ & _ & _ & Hparam).
    apply (Hparam (example_cache []) eq_refl).
  - reflexivity.
Defined.
End ConfigExamples.

(** * Further properties *)

(** ** The copy loops of [do_union] *)

Section CopyLoops.
Import Mapnik Unionizer Notions Further.
Local Open Scope nat_scope.

Lemma copy_vertex_line_to (src dst : geometry_type) (pos : nat) (v : vertex) :
  g_vertices src !! pos = Some v → v_cmd v ≠ SEG_END →
  copy_vertex src pos false dst = extended dst [as_line_to v].
Proof.
  intros Hv Hcmd. unfold copy_vertex. rewrite Hv.
  destruct (v_cmd v); done.
Qed.

Lemma copy_vertex_move_to (src dst : geometry_type) (pos : nat) (v : vertex) :
  g_vertices src !! pos = Some v → v_cmd v ≠ SEG_END →
  copy_vertex src pos true dst = extended dst [as_move_to v].
Proof.
  intros Hv Hcmd. unfold copy_vertex. rewrite Hv.
  destruct (v_cmd v); done.
Qed.

Lemma extended_extended (dst : geometry_type) (vs ws : list vertex) :
  extended (extended dst vs) ws = extended dst (vs ++ ws).
Proof. unfold extended. simpl. by rewrite app_assoc. Qed.

Lemma extended_nil (dst : geometry_type) : extended dst [] = dst.
Proof. destruct dst. unfold extended. simpl. by rewrite app_nil_r. Qed.

(** The forward loop from position [k] on. *)
Lemma copy_forward (src : geometry_type) (n : nat) : ∀ k dst,
  no_end src → k + n = g_size src →
  foldl (λ d i, copy_vertex src i false d) dst (seq k n)
  = extended dst (as_line_to <$> drop k (g_vertices src)).
Proof.
  induction n as [|n IH]; intros k dst Hsrc Hk; simpl.
  - rewrite drop_ge by (unfold g_size in Hk; lia). simpl. by rewrite extended_nil.
  - destruct (lookup_lt_is_Some_2 (g_vertices src) k) as [v Hv];
      [unfold g_size in Hk; lia|].
    rewrite (copy_vertex_line_to _ _ _ v Hv).
    2: { unfold no_end in Hsrc. rewrite Forall_forall in Hsrc. apply Hsrc.
         eapply list_elem_of_lookup_2. exact Hv. }
    rewrite IH by (done || lia). rewrite extended_extended.
    by rewrite (drop_S _ _ _ Hv).
Qed.

(** The backward loop: [i] from [k] on visits the positions below
    [size - k], from the highest down. *)
Lemma copy_backward (src : geometry_type) (n : nat) : ∀ k dst,
  no_end src → k + n = g_size src →
  foldl (λ d i, copy_vertex src ((g_size src - i) - 1) false d) dst (seq k n)
  = extended dst (as_line_to <$> reverse (take (g_size src - k) (g_vertices src))).
Proof.
  induction n as [|n IH]; intros k dst Hsrc Hk; simpl.
  - replace (g_size src - k) with 0 by lia. simpl. by rewrite extended_nil.
  - destruct (lookup_lt_is_Some_2 (g_vertices src) (g_size src - k - 1)) as [v Hv];
      [unfold g_size in *; lia|].
    rewrite (copy_vertex_line_to _ _ _ v Hv).
    2: { unfold no_end in Hsrc. rewrite Forall_forall in Hsrc. apply Hsrc.
         eapply list_elem_of_lookup_2. exact Hv. }
    rewrite IH by (done || lia). rewrite extended_extended.
    replace (g_size src - k) with (S (g_size src - k - 1)) by lia.
    rewrite (take_S_r _ _ _ Hv), reverse_app. simpl.
    replace (g_size src - S k) with (g_size src - k - 1) by lia. done.
Qed.
End CopyLoops.

(** ** The splices of [do_union] *)

Section SpliceCases.
Import Mapnik Unionizer Notions Further.
Local Open Scope nat_scope.

Lemma append_then_erase (h : nat → feature) (first second : candidate)
    (merged src : geometry_type) :
  f_paths (h (m_parent second)) !! m_index second = Some src →
  ∃ h', erase_path
          (<[m_parent first :=
               set_paths (h (m_parent first))
                 (<[m_index first := merged]> (f_paths (h (m_parent first))))]> h)
          (m_parent second) (m_index second) = Some h'
        ∧ spliced h h' first second merged.
Proof.
  intros Hsrc. apply lookup_lt_Some in Hsrc.
  set (p1 := m_parent first) in *. set (p2 := m_parent second) in *.
  rewrite erase_path_in.
  2: { destruct (decide (p1 = p2)) as [Heq|Hne].
       - rewrite Heq, fn_lookup_insert. simpl. rewrite length_insert. exact Hsrc.
       - by rewrite fn_lookup_insert_ne. }
  eexists. split; [reflexivity|]. unfold spliced. fold p1 p2.
  split; [|split; [|split]].
  - intros Hne. rewrite fn_lookup_insert_ne by done. rewrite fn_lookup_insert. simpl.
    rewrite fn_lookup_insert. simpl. rewrite fn_lookup_insert_ne by done. done.
  - intros Heq. rewrite <- Heq. by rewrite !fn_lookup_insert.
  - intros q Hq1 Hq2. by rewrite !fn_lookup_insert_ne.
  - intros q. destruct (decide (p2 = q)) as [<-|Hq2].
    + rewrite fn_lookup_insert. simpl. destruct (decide (p1 = p2)) as [<-|Hne].
      * by rewrite fn_lookup_insert.
      * by rewrite fn_lookup_insert_ne.
    + rewrite fn_lookup_insert_ne by done. destruct (decide (p1 = q)) as [<-|Hq1].
      * by rewrite fn_lookup_insert.
      * by rewrite fn_lookup_insert_ne.
Qed.

(** X1.  A back end and a front end of two different geometries: when
    the source stores no [SEG_END], [do_union] appends to the geometry
    of the back end the vertices of the other one from its second
    vertex on, as line-to vertices, and removes the other geometry from
    its feature; the couple comes back with the back end first, in
    whichever order it was given; no id, no attribute and no other
    feature changes. *)
Theorem do_union_back_front (h : nat → feature) (a b : candidate)
    (dst src : geometry_type) :
  m_position a = BACK → m_position b = FRONT →
  same_geometry a b = false →
  f_paths (h (m_parent a)) !! m_index a = Some dst →
  f_paths (h (m_parent b)) !! m_index b = Some src →
  no_end src →
  ∃ h', do_union (a, b) h = Some ((a, b), h')
        ∧ do_union (b, a) h = Some ((a, b), h')
        ∧ spliced h h' a b (appended dst src).
Proof.
  intros Ha Hb Hsame Hdst Hsrc Hend.
  destruct (append_then_erase h a b (appended dst src) src Hsrc) as (h' & Herase & Hspliced).
  exists h'.
  assert (foldl (λ d i, copy_vertex src i false d) dst (seq 1 (g_size src - 1))
          = appended dst src) as Hloop.
  { destruct (g_vertices src) as [|v vs] eqn:Hvs.
    - unfold g_size, appended. rewrite Hvs. simpl. by rewrite extended_nil.
    - apply copy_forward; [done|]. unfold g_size. rewrite Hvs. simpl. lia. }
  split; [|split; [|exact Hspliced]].
  - unfold do_union. simpl. rewrite Ha, Hb. simpl. rewrite Hsame, Hdst. simpl.
    rewrite Hsrc. simpl. rewrite Hloop, Herase. reflexivity.
  - unfold do_union. simpl. rewrite Ha, Hb. simpl. rewrite Hsame, Hdst. simpl.
    rewrite Hsrc. simpl. rewrite Hloop, Herase. reflexivity.
Qed.

(** X2.  Two back ends of two different geometries: [do_union] appends
    to the geometry of the first the vertices of the second in reverse,
    from its last but one down to its first, as line-to vertices, and
    removes the second geometry from its feature. *)
Theorem do_union_back_back (h : nat → feature) (a b : candidate)
    (dst src : geometry_type) :
  m_position a = BACK → m_position b = BACK →
  same_geometry a b = false →
  f_paths (h (m_parent a)) !! m_index a = Some dst →
  f_paths (h (m_parent b)) !! m_index b = Some src →
  no_end src →
  ∃ h', do_union (a, b) h = Some ((a, b), h')
        ∧ spliced h h' a b (appended_reversed dst src).
Proof.
  intros Ha Hb Hsame Hdst Hsrc Hend.
  destruct (append_then_erase h a b (appended_reversed dst src) src Hsrc)
    as (h' & Herase & Hspliced).
  exists h'.
  assert (foldl (λ d i, copy_vertex src ((g_size src - i) - 1) false d) dst
            (seq 1 (g_size src - 1))
          = appended_reversed dst src) as Hloop.
  { destruct (g_vertices src) as [|v vs] eqn:Hvs.
    - unfold g_size, appended_reversed. rewrite Hvs. simpl. rewrite take_nil.
      by rewrite extended_nil.
    - apply copy_backward; [done|]. unfold g_size. rewrite Hvs. simpl. lia. }
  split; [|exact Hspliced].
  unfold do_union. simpl. rewrite Ha, Hb. simpl. rewrite Hsame, Hdst. simpl.
  rewrite Hsrc. simpl. rewrite Hloop, Herase. reflexivity.
Qed.

Lemma foldl_seq_ext {A} (f g : A → nat → A) (n : nat) : ∀ k d,
  (∀ i d, k ≤ i → f d i = g d i) → foldl f d (seq k n) = foldl g d (seq k n).
Proof.
  induction n as [|n IH]; intros k d Hfg; [done|].
  cbn [seq foldl]. rewrite Hfg by lia. apply IH. intros i d' Hi. apply Hfg. lia.
Qed.

(** The vertices of the geometry that the front to front splice builds. *)
Lemma front_to_front_vertices (src1 src2 : geometry_type) :
  no_end src1 → no_end src2 →
  g_vertices (front_to_front src1 src2)
  = relabel (reverse (g_vertices src1)) ++ (as_line_to <$> drop 1 (g_vertices src2)).
Proof.
  intros H1 H2. unfold front_to_front.
  assert (foldl (λ d i, copy_vertex src1 ((g_size src1 - i) - 1) (i =? 0) d)
            geometry_new (seq 0 (g_size src1))
          = extended geometry_new (relabel (reverse (g_vertices src1)))) as ->.
  { destruct (g_size src1) as [|n] eqn:Hsize.
    - unfold g_size in Hsize. apply nil_length_inv in Hsize. rewrite Hsize. done.
    - cbn [seq foldl Nat.eqb]. replace (S n - 0 - 1) with n by lia.
      destruct (lookup_lt_is_Some_2 (g_vertices src1) n) as [v Hv];
        [unfold g_size in Hsize; lia|].
      rewrite (copy_vertex_move_to _ _ _ v Hv).
      2: { unfold no_end in H1. rewrite Forall_forall in H1. apply H1.
           eapply list_elem_of_lookup_2. exact Hv. }
      rewrite (foldl_seq_ext _ (λ d i, copy_vertex src1 ((g_size src1 - i) - 1) false d)).
      2: { intros i d Hi. rewrite Hsize. destruct i; [lia|done]. }
      rewrite copy_backward by (done || lia). rewrite extended_extended.
      f_equal. rewrite Hsize.
      replace (S n - 1) with n by lia.
      assert (g_vertices src1 = take n (g_vertices src1) ++ [v]) as Hsplit.
      { rewrite <- (take_S_r _ _ _ Hv). rewrite take_ge; [done|].
        unfold g_size in Hsize. lia. }
      assert (reverse (g_vertices src1) = v :: reverse (take n (g_vertices src1))) as ->
        by (rewrite Hsplit at 1; by rewrite reverse_app).
      done. }
  destruct (g_vertices src2) as [|v vs] eqn:Hvs.
  - unfold g_size. rewrite Hvs. simpl. by rewrite app_nil_r.
  - rewrite copy_forward; [|done|unfold g_size; rewrite Hvs; simpl; lia].
    simpl. by rewrite Hvs.
Qed.
End SpliceCases.


Section FrontFront.
Import Mapnik Unionizer Notions Further.
Local Open Scope nat_scope.

(** X3.  Two front ends, of two features or with the second at a lower
    position of the same feature: [do_union] builds a new geometry, the
    first reversed (its first vertex a move-to) followed by the second
    from its second vertex on, removes both geometries and adds the new
    one at the end of the geometries of the first feature. *)
Theorem do_union_front_front (h : nat → feature) (a b : candidate)
    (src1 src2 : geometry_type) :
  let p1 := m_parent a in
  let p2 := m_parent b in
  let merged := front_to_front src1 src2 in
  m_position a = FRONT → m_position b = FRONT →
  f_paths (h p1) !! m_index a = Some src1 →
  f_paths (h p2) !! m_index b = Some src2 →
  no_end src1 → no_end src2 →
  p1 ≠ p2 ∨ m_index b < m_index a →
  g_vertices merged
  = relabel (reverse (g_vertices src1)) ++ (as_line_to <$> drop 1 (g_vertices src2))
  ∧ ∃ h', do_union (a, b) h = Some ((a, b), h')
          ∧ (p1 ≠ p2 →
               f_paths (h' p1) = delete (m_index a) (f_paths (h p1)) ++ [merged]
               ∧ f_paths (h' p2) = delete (m_index b) (f_paths (h p2)))
          ∧ (p1 = p2 →
               f_paths (h' p1)
               = delete (m_index b) (delete (m_index a) (f_paths (h p1))) ++ [merged])
          ∧ (∀ q, q ≠ p1 → q ≠ p2 → h' q = h q)
          ∧ (∀ q, f_id (h' q) = f_id (h q) ∧ f_attrs (h' q) = f_attrs (h q)).
Proof.
  intros p1 p2 merged Ha Hb H1 H2 Hend1 Hend2 Hcase.
  split; [by apply front_to_front_vertices|].
  pose proof (lookup_lt_Some _ _ _ H1) as Hlen1.
  pose proof (lookup_lt_Some _ _ _ H2) as Hlen2.
  assert (do_union (a, b) h
          = h1 ← erase_path h p1 (m_index a);
            h2 ← erase_path h1 p2 (m_index b);
            Some ((a, b), <[p1 := set_paths (h2 p1) (f_paths (h2 p1) ++ [merged])]> h2))
    as ->.
  { unfold do_union. simpl. rewrite Ha, Hb. simpl. fold p1 p2.
    rewrite H1. simpl. rewrite H2. reflexivity. }
  rewrite erase_path_in by exact Hlen1. simpl.
  rewrite erase_path_in.
  2: { destruct (decide (p1 = p2)) as [Heq|Hne].
       - rewrite <- Heq, fn_lookup_insert. simpl.
         rewrite length_delete by eauto. destruct Hcase as [?|Hlt]; [done|]. lia.
       - by rewrite fn_lookup_insert_ne. }
  simpl. eexists. split; [reflexivity|].
  split; [|split; [|split]].
  - intros Hne. rewrite fn_lookup_insert.
    rewrite (fn_lookup_insert_ne _ p2 p1) by done.
    rewrite (fn_lookup_insert_ne _ p1 p2) by done.
    rewrite !fn_lookup_insert. simpl.
    rewrite (fn_lookup_insert_ne _ p1 p2) by done. done.
  - intros Heq. rewrite <- Heq. by rewrite !fn_lookup_insert.
  - intros q Hq1 Hq2. by rewrite !fn_lookup_insert_ne.
  - intros q. destruct (decide (p1 = q)) as [<-|Hq1].
    + rewrite fn_lookup_insert. simpl. destruct (decide (p2 = p1)) as [->|Hne].
      * by rewrite !fn_lookup_insert.
      * rewrite fn_lookup_insert_ne by done. by rewrite fn_lookup_insert.
    + rewrite fn_lookup_insert_ne by done. destruct (decide (p2 = q)) as [<-|Hq2].
      * rewrite fn_lookup_insert. simpl. by rewrite fn_lookup_insert_ne.
      * by rewrite !fn_lookup_insert_ne.
Qed.
End FrontFront.

(** ** Couples, tags and the map of scores *)

Section CoupleProps.
Import Mapnik Unionizer Notions Further.

(** X4.  [make_couple] does not depend on the order of the two
    candidates; the couple it makes is the two candidates in the order
    given, never two ends of one geometry, both directional or neither,
    and when directional a back end with a front end, which the greedy
    scorer gives the score 0. *)
Theorem make_couple_filter :
  (∀ a b, is_Some (make_couple a b) ↔ is_Some (make_couple b a))
  ∧ (∀ a b c, make_couple a b = Some c →
       c = (a, b)
       ∧ same_geometry a b = false
       ∧ m_directional a = m_directional b
       ∧ (m_directional a = true →
            m_position a ≠ m_position b ∧ greedy_score c = 0)).
Proof.
  split.
  - assert (∀ a b, is_Some (make_couple a b) → is_Some (make_couple b a)) as Hone.
    { intros a b [c Hc]. apply make_couple_Some in Hc as (_ & Hgeom & Hdir & Hpos).
      unfold make_couple.
      destruct ((m_index b =? m_index a)%nat && (m_parent b =? m_parent a)%nat) eqn:Hsame.
      { apply andb_true_iff in Hsame as [Hi Hp].
        apply Nat.eqb_eq in Hi, Hp. exfalso. by apply Hgeom. }
      rewrite Hdir, Bool.eqb_reflx. simpl.
      destruct (m_directional b) eqn:Hb; simpl; [|eauto].
      destruct (position_eqb (m_position b) (m_position a)) eqn:Hposb; [|eauto].
      exfalso. apply Hpos; [congruence|].
      by destruct (m_position a), (m_position b). }
    intros a b. split; apply Hone.
  - intros a b c Hc. pose proof Hc as Hc'.
    apply make_couple_Some in Hc as (-> & Hgeom & Hdir & Hpos).
    split; [done|]. split; [|split; [done|]].
    + unfold same_geometry. apply andb_false_iff.
      destruct (decide (m_parent a = m_parent b)) as [Hp|Hp].
      * left. apply Nat.eqb_neq. by apply Hgeom.
      * right. by apply Nat.eqb_neq.
    + intros Ha. specialize (Hpos Ha). split; [done|].
      unfold greedy_score. simpl.
      by destruct (m_position a), (m_position b).
Qed.
End CoupleProps.

Section IntersectProps.
Import Mapnik Unionizer Notions Further.
Context `{ValueOps}.

(** X5.  Under the intersect strategy [sanitize_tags] is defined on
    every couple and changes the attributes of the first feature only:
    a key that the second feature lacks or holds with another value
    becomes null, every other key keeps its value, and no key is added
    or removed. *)
Theorem sanitize_tags_intersect (couple : couple_t) (h : nat → feature) :
  let p1 := m_parent (fst couple) in
  let p2 := m_parent (snd couple) in
  ∃ h', sanitize_tags INTERSECT couple h = Some h'
        ∧ (∀ q, q ≠ p1 → h' q = h q)
        ∧ f_id (h' p1) = f_id (h p1)
        ∧ f_paths (h' p1) = f_paths (h p1)
        ∧ ∀ key, f_attrs (h' p1) !! key
                 = match f_attrs (h p1) !! key with
                   | Some v =>
                       match f_attrs (h p2) !! key with
                       | Some w => Some (if value_ne v w then value_null else v)
                       | None => Some value_null
                       end
                   | None => None
                   end.
Proof.
  intros p1 p2. unfold sanitize_tags. fold p1 p2.
  destruct (first_loop p1 p2 INTERSECT (keys (h p1)) h) as (h1 & Hfold & Hframe & Hlook).
  { apply NoDup_keys. }
  { intros k. apply elem_of_keys. }
  rewrite Hfold. simpl. exists h1. split; [done|].
  destruct Hframe as (Hq & Hid & Hpaths). split; [exact Hq|]. split; [exact Hid|].
  split; [exact Hpaths|].
  intros key. rewrite Hlook. case_decide as Hin; [done|].
  assert (f_attrs (h p1) !! key = None) as ->; [|done].
  apply eq_None_not_Some. by rewrite <- elem_of_keys.
Qed.
End IntersectProps.

Section ScoreMapMore.
Import Mapnik Unionizer Notions Further.
Local Open Scope Z_scope.

Lemma sorted_keys_above (k : score_t) (m : score_map) :
  Sorted Z.lt (k :: m.*1) → ∀ k', k' ∈ m.*1 → k < k'.
Proof.
  intros Hsorted. apply Sorted_StronglySorted in Hsorted; [|intros ???; lia].
  apply StronglySorted_inv in Hsorted as [_ Hall]. rewrite Forall_forall in Hall.
  exact Hall.
Qed.

Lemma elem_of_map_emplace (k : score_t) (v : couple_t) (m : score_map)
    (s : score_t) (c : couple_t) :
  Sorted Z.lt m.*1 →
  (s, c) ∈ map_emplace k v m ↔ (s, c) ∈ m ∨ (s = k ∧ c = v ∧ k ∉ m.*1).
Proof.
  induction m as [|[k' v'] m IH]; intros Hsorted.
  - cbn [map_emplace]. rewrite list_elem_of_singleton. split.
    + intros Heq. injection Heq as H1 H2. subst. right.
      split; [done|]. split; [done|]. apply not_elem_of_nil.
    + intros [Hin|(-> & -> & _)]; [by apply elem_of_nil in Hin|done].
  - rewrite fmap_cons in Hsorted. cbn [fst] in Hsorted.
    pose proof (sorted_keys_above k' m Hsorted) as Habove.
    apply Sorted_inv in Hsorted as [Htail _].
    rewrite fmap_cons, not_elem_of_cons. cbn [fst map_emplace].
    destruct (k <? k') eqn:Hlt.
    + apply Z.ltb_lt in Hlt. rewrite (elem_of_cons _ (s, c) (k, v)). split.
      * intros [Heq|Hin]; [injection Heq as H1 H2; subst|by left]. right.
        split; [done|]. split; [done|]. split; [lia|].
        intros Hin. specialize (Habove _ Hin). lia.
      * intros [Hin|(-> & -> & _)]; [by right|by left].
    + apply Z.ltb_ge in Hlt. destruct (k =? k') eqn:Heq.
      * apply Z.eqb_eq in Heq. subst k'. split; [by left|].
        intros [Hin|(_ & _ & Hnot & _)]; done.
      * apply Z.eqb_neq in Heq.
        rewrite (elem_of_cons _ (s, c) (k', v')), (elem_of_cons m (s, c) (k', v')).
        rewrite (IH Htail). split.
        -- intros [Hhead|[Hin|(-> & -> & Hnot)]]; [by left; left|by left; right|].
           right. done.
        -- intros [[Hhead|Hin]|(-> & -> & _ & Hnot)]; [by left|by right; left|].
           right. right. done.
Qed.

Lemma keys_map_emplace (k : score_t) (v : couple_t) (m : score_map) (s : score_t) :
  s ∈ (map_emplace k v m).*1 ↔ s = k ∨ s ∈ m.*1.
Proof.
  induction m as [|[k' v'] m IH]; simpl.
  - rewrite list_elem_of_singleton, elem_of_nil. tauto.
  - destruct (k <? k') eqn:Hlt; simpl.
    + rewrite !elem_of_cons. tauto.
    + destruct (k =? k') eqn:Heq; simpl.
      * apply Z.eqb_eq in Heq. subst. rewrite !elem_of_cons. tauto.
      * rewrite !elem_of_cons, IH. tauto.
Qed.

Lemma first_scored_app (s : score_t) (l1 l2 : list (option score_t * couple_t)) :
  first_scored s (l1 ++ l2)
  = match first_scored s l1 with Some c => Some c | None => first_scored s l2 end.
Proof.
  induction l1 as [|[s' c] l1 IH]; simpl; [done|]. by case_decide.
Qed.

Lemma first_scored_None (s : score_t) (l : list (option score_t * couple_t)) :
  first_scored s l = None ↔ Some s ∉ l.*1.
Proof.
  induction l as [|[s' c] l IH]; simpl.
  - split; [intros _; apply not_elem_of_nil|done].
  - case_decide as Hs.
    + split; [done|]. intros Hnot. exfalso. apply Hnot. subst. left.
    + rewrite IH, not_elem_of_cons. split; [by split|by intros [_ ?]].
Qed.


Lemma collect_collected (m m' : score_map) (done : list (option score_t * couple_t))
    (sc : option score_t * couple_t) :
  collected m done → collect m sc = Some m' → collected m' (done ++ [sc]).
Proof.
  intros (Hsorted & Hkeys & Hfirst). destruct sc as [[k|] v]; [|discriminate].
  unfold collect. simpl. intros [= <-]. split; [|split].
  - by apply map_emplace_sorted.
  - intros s. rewrite keys_map_emplace, fmap_app, elem_of_app, Hkeys. simpl.
    rewrite list_elem_of_singleton. split.
    + intros [->|Hin]; [by right|by left].
    + intros [Hin|[= ->]]; [by right|by left].
  - intros s c. rewrite (elem_of_map_emplace k v m s c Hsorted), first_scored_app, Hfirst.
    destruct (first_scored s done) as [c'|] eqn:Hdone.
    + split; [|by left]. intros [?|(-> & -> & Hnot)]; [done|].
      exfalso. apply Hnot, Hkeys. apply dec_stable. intros Hno.
      apply first_scored_None in Hno. congruence.
    + apply first_scored_None in Hdone. simpl. case_decide as Hs.
      * injection Hs as ->. split.
        -- intros [?|(_ & -> & _)]; done.
        -- intros [= ->]. right. split; [done|]. split; [done|]. by rewrite Hkeys.
      * split; [|done]. intros [?|(-> & _)]; done.
Qed.

Lemma collects_collected (pairs : list (option score_t * couple_t)) :
  ∀ m done scored,
  collected m done → foldlM collect m pairs = Some scored →
  collected scored (done ++ pairs).
Proof.
  induction pairs as [|sc pairs IH]; intros m done scored Hm; simpl.
  - intros [= <-]. by rewrite app_nil_r.
  - destruct (collect m sc) as [m1|] eqn:Hstep; simpl; [|done].
    intros Hrest. replace (done ++ sc :: pairs) with ((done ++ [sc]) ++ pairs)
      by (by rewrite <- (assoc_L (++))).
    eapply IH; [|exact Hrest]. eapply collect_collected; eassumption.
Qed.

Lemma score_candidates_first (cmp : candidate → candidate → bool)
    (scorer : couple_t → option score_t) (candidates : list candidate)
    (scored : score_map) :
  score_candidates cmp candidates scorer = Some scored →
  Sorted Z.lt scored.*1
  ∧ ∀ s c, (s, c) ∈ scored
           ↔ first_scored s (Spec.compatible_pairs cmp scorer candidates) = Some c.
Proof.
  rewrite score_candidates_collects. intros Hfold.
  assert (collected [] []) as Hstart.
  { split; [constructor|]. split.
    - intros s. simpl. split; intros Hin; by apply elem_of_nil in Hin.
    - intros s c. split; [|done]. intros Hin. by apply elem_of_nil in Hin. }
  destruct (collects_collected _ [] [] scored Hstart Hfold) as (Hsorted & _ & Hfirst).
  done.
Qed.

Lemma first_scored_elem_of (s : score_t) (c : couple_t)
    (pairs : list (option score_t * couple_t)) :
  first_scored s pairs = Some c → (Some s, c) ∈ pairs.
Proof.
  induction pairs as [|[s' c'] pairs IH]; simpl; [done|].
  case_decide as Hs.
  - intros [= ->]. subst s'. apply elem_of_cons. by left.
  - intros Hrest. apply elem_of_cons. right. by apply IH.
Qed.

Lemma adjacent_pairs_scored (cmp : candidate → candidate → bool)
    (scorer : couple_t → option score_t) (c : candidate) (rest : list candidate)
    (sc : option score_t * couple_t) :
  sc ∈ Spec.adjacent_pairs cmp scorer c rest →
  sc.1 = scorer sc.2 ∧ ∃ n, n ∈ rest ∧ make_couple c n = Some sc.2.
Proof.
  induction rest as [|n rest IH]; simpl.
  - intros Hin. by apply elem_of_nil in Hin.
  - destruct (cmp c n); [intros Hin; by apply elem_of_nil in Hin|].
    rewrite elem_of_app. intros [Hin|Hin].
    + destruct (make_couple c n) as [couple|] eqn:Hcouple.
      * apply list_elem_of_singleton in Hin as ->. simpl. split; [done|].
        exists n. split; [apply elem_of_cons; by left|done].
      * by apply elem_of_nil in Hin.
    + destruct (IH Hin) as (Hs & n' & Hn' & Hc). split; [done|].
      exists n'. split; [apply elem_of_cons; by right|done].
Qed.

Lemma compatible_pairs_scored (cmp : candidate → candidate → bool)
    (scorer : couple_t → option score_t) (candidates : list candidate)
    (sc : option score_t * couple_t) :
  sc ∈ Spec.compatible_pairs cmp scorer candidates →
  sc.1 = scorer sc.2
  ∧ ∃ a b, a ∈ candidates ∧ b ∈ candidates ∧ make_couple a b = Some sc.2.
Proof.
  induction candidates as [|c rest IH]; simpl.
  - intros Hin. by apply elem_of_nil in Hin.
  - rewrite elem_of_app. intros [Hin|Hin].
    + apply adjacent_pairs_scored in Hin as (Hs & n & Hn & Hc). split; [done|].
      exists c, n. split; [apply elem_of_cons; by left|].
      split; [apply elem_of_cons; by right|done].
    + destruct (IH Hin) as (Hs & a & b & Ha & Hb & Hc). split; [done|].
      exists a, b. split; [apply elem_of_cons; by right|].
      split; [apply elem_of_cons; by right|done].
Qed.

(** X6.  The map that [score_candidates] returns is in strictly
    ascending order of the scores and holds, under each score, the
    first of the compatible pairs of adjacent candidates with that
    score; each of its couples is made by [make_couple] from two of the
    candidates and stands under the score the scorer gives it. *)
Theorem score_candidates_first_per_score (cmp : candidate → candidate → bool)
    (scorer : couple_t → option score_t) (candidates : list candidate)
    (scored : score_map) :
  score_candidates cmp candidates scorer = Some scored →
  Sorted Z.lt scored.*1
  ∧ (∀ s c, (s, c) ∈ scored
            ↔ first_scored s (Spec.compatible_pairs cmp scorer candidates) = Some c)
  ∧ ∀ s c, (s, c) ∈ scored →
           scorer c = Some s
           ∧ ∃ a b, a ∈ candidates ∧ b ∈ candidates ∧ make_couple a b = Some c.
Proof.
  intros Hscored. destruct (score_candidates_first _ _ _ _ Hscored) as [Hsorted Hfirst].
  split; [done|]. split; [done|]. intros s c Hin.
  apply Hfirst, first_scored_elem_of, compatible_pairs_scored in Hin as [Hs Hab].
  done.
Qed.

(** X7.  With the greedy scorer [score_candidates] returns at most
    three couples, whatever the number of candidates: the scores are
    among 0, 127 and 255. *)
Theorem greedy_scores_at_most_three (cmp : candidate → candidate → bool)
    (candidates : list candidate) (scored : score_map) :
  score_candidates cmp candidates (scorer_of GREEDY) = Some scored →
  (length scored ≤ 3)%nat ∧ ∀ s, s ∈ scored.*1 → s ∈ [0; 127; 255].
Proof.
  intros Hscored.
  destruct (score_candidates_first _ _ _ _ Hscored) as [Hsorted Hfirst].
  assert (∀ s, s ∈ scored.*1 → s ∈ [0; 127; 255]) as Hkeys.
  { intros s ([s' c] & -> & Hin)%list_elem_of_fmap. simpl.
    apply Hfirst, first_scored_elem_of, compatible_pairs_scored in Hin as [Hs _].
    simpl in Hs. injection Hs as ->. unfold greedy_score.
    rewrite !elem_of_cons.
    destruct (negb _); [by left|]. destruct (position_eqb _ _); right; [by left|by right; left]. }
  split; [|exact Hkeys].
  rewrite <- (length_fmap fst scored).
  change 3%nat with (length [0; 127; 255]). apply submseteq_length.
  apply NoDup_submseteq; [|exact Hkeys].
  apply Sorted_StronglySorted in Hsorted; [|intros ???; lia].
  clear -Hsorted. induction Hsorted as [|k l Hl IH Hall]; constructor; [|done].
  rewrite Forall_forall in Hall. intros Hin. apply Hall in Hin. lia.
Qed.
End ScoreMapMore.


(** ** The adminizer: which entry a feature gets *)

Section WinnerProps.
Import Mapnik Adminizer Notions Further.
Context `{BoostGeometry}.

Lemma put_new_put_new (f : feature) (key : string) (v w : value) :
  put_new (put_new f key v) key w = put_new f key w.
Proof. unfold put_new. simpl. by rewrite insert_insert_eq. Qed.

Lemma updates_above (es : list entry) : ∀ u,
  Forall (λ e, (m_index u ≤ e_index e)%N) es → foldl update u es = u.
Proof.
  induction es as [|e es IH]; intros u; [done|].
  intros [He Hes]%Forall_cons. simpl. rewrite update_ge by exact He. by apply IH.
Qed.

Lemma index_names_entry (entries : list entry) (e e' : entry) :
  NoDup (e_index <$> entries) → e ∈ entries → e' ∈ entries →
  e_index e' = e_index e → e' = e.
Proof.
  induction entries as [|e0 entries IH]; [intros _ He; by apply elem_of_nil in He|].
  rewrite fmap_cons, NoDup_cons. intros [Hout Hnodup].
  rewrite !elem_of_cons. intros [->|He] [->|He'] Heq.
  - reflexivity.
  - exfalso. apply Hout. rewrite <- Heq. apply list_elem_of_fmap. by exists e'.
  - exfalso. apply Hout. rewrite Heq. apply list_elem_of_fmap. by exists e.
  - by apply IH.
Qed.

Lemma updates_lowest (es : list entry) : ∀ u e,
  lowest e es →
  (∀ e', e' ∈ es → e_index e' = e_index e → e' = e) →
  (e_index e < m_index u)%N →
  foldl update u es = wrote u e.
Proof.
  induction es as [|e0 es IH]; intros u e [Hin Hlow] Hname Hlt.
  { by apply elem_of_nil in Hin. }
  simpl. unfold update at 2.
  destruct (e_index e0 <? m_index u)%N eqn:Hwrite.
  - destruct (decide (e_index e0 = e_index e)) as [Heq|Hne].
    + assert (e0 = e) as -> by (apply Hname; [apply elem_of_cons; by left|done]).
      apply updates_above. apply Forall_forall. intros e' He'. simpl.
      apply Hlow. apply elem_of_cons. by right.
    + assert (e_index e < e_index e0)%N as Hbelow.
      { assert (e_index e ≤ e_index e0)%N by (apply Hlow, elem_of_cons; by left). lia. }
      apply elem_of_cons in Hin as [->|Hin]; [lia|].
      rewrite (IH _ e); [unfold wrote; simpl; by rewrite put_new_put_new| |..|exact Hbelow].
      * split; [exact Hin|]. intros e' He'. apply Hlow, elem_of_cons. by right.
      * intros e' He'. apply Hname, elem_of_cons. by right.
  - apply N.ltb_ge in Hwrite.
    apply elem_of_cons in Hin as [->|Hin]; [lia|].
    apply IH; [|intros e' He'; apply Hname, elem_of_cons; by right|exact Hlt].
    split; [exact Hin|]. intros e' He'. apply Hlow, elem_of_cons. by right.
Qed.

Lemma assigns_hits (g : geom) (entries : list entry) (vs : list value_t) :
  ∀ u u', Unionizer.foldlM (assign g entries) u vs = Some u' →
  u' = foldl update u (hits g entries vs).
Proof.
  induction vs as [|v vs IH]; intros u u'; simpl.
  - by intros [= <-].
  - destruct (assign g entries u v) as [u1|] eqn:Hstep; simpl; [|discriminate].
    unfold assign in Hstep. unfold hits. simpl.
    destruct (entries !! N.to_nat (snd v)) as [e|]; simpl in *; [|discriminate].
    injection Hstep as <-.
    destruct (intersects g (e_polygon e)); intros Hfold; by apply IH.
Qed.

Lemma hits_entries (g : geom) (entries : list entry) (vs : list value_t) (e : entry) :
  e ∈ hits g entries vs → e ∈ entries ∧ intersects g (e_polygon e) = true.
Proof.
  unfold hits. rewrite list_elem_of_omap. intros (v & _ & Hv).
  destruct (entries !! N.to_nat (snd v)) as [e'|] eqn:He'; simpl in Hv; [|discriminate].
  destruct (intersects g (e_polygon e')) eqn:Hmeet; [|discriminate].
  injection Hv as ->. split; [|done]. eapply list_elem_of_lookup_2. exact He'.
Qed.

(** X8.  [try_update] keeps the updater when the query brings no
    intersecting entry below its index, and otherwise leaves it as
    written by the intersecting entry of the lowest index, in whatever
    order the index returns the values. *)
Theorem try_update_lowest_index (index : rtree) (g : geom) (entries : list entry)
    (u u' : param_updater) :
  NoDup (e_index <$> entries) →
  try_update index g entries u = Some u' →
  let found := hits g entries (rtree_query index (return_envelope g)) in
  (Forall (λ e, (m_index u ≤ e_index e)%N) found → u' = u)
  ∧ (∀ e, lowest e found → (e_index e < m_index u)%N → u' = wrote u e).
Proof.
  intros Hnodup Htry found. unfold try_update in Htry.
  apply assigns_hits in Htry. fold found in Htry. subst u'. split.
  - apply updates_above.
  - intros e Hlow Hlt. apply updates_lowest; [exact Hlow| |exact Hlt].
    intros e' He' Heq. apply (index_names_entry entries); [done|..|done].
    + destruct Hlow as [He _]. by apply hits_entries in He as [? _].
    + by apply hits_entries in He' as [? _].
Qed.

Lemma adminized_refl (name : string) (entries : list entry) (f : feature) :
  adminized name entries f f.
Proof. split; [done|]. split; [done|]. split; [done|]. by left. Qed.

Lemma update_adminized (entries : list entry) (u : param_updater) (e : entry)
    (f : feature) :
  e ∈ entries →
  adminized (m_param_name u) entries f (m_feature u) →
  adminized (m_param_name u) entries f (m_feature (update u e)).
Proof.
  intros He (Hid & Hpaths & Hother & Hname). unfold update.
  destruct (e_index e <? m_index u)%N; [|done]. unfold put_new. simpl.
  split; [done|]. split; [done|]. split.
  - intros key Hkey. cbn [f_attrs]. rewrite lookup_insert_ne by done. by apply Hother.
  - right. exists e. split; [done|]. cbn [f_attrs].
    destruct Hname as [->|(e0 & _ & ->)]; [done|]. by rewrite insert_insert_eq.
Qed.

Lemma updates_adminized (entries : list entry) (es : list entry) (f : feature) :
  ∀ u, Forall (λ e, e ∈ entries) es →
  adminized (m_param_name u) entries f (m_feature u) →
  adminized (m_param_name u) entries f (m_feature (foldl update u es)).
Proof.
  induction es as [|e es IH]; intros u; [done|].
  intros [He Hes]%Forall_cons Hu. simpl.
  pose proof (update_index u e) as [_ Hname]. rewrite <- Hname.
  apply IH; [done|]. rewrite Hname. by apply update_adminized.
Qed.

Lemma adminize_feature_adminized (a : adminizer) (f f' : feature) (index : rtree)
    (entries : list entry) :
  adminize_feature a f index entries = Some f' →
  adminized (a_param_name a) entries f f'.
Proof.
  unfold adminize_feature. intros Hf.
  destruct (adminize_paths _ _ _ _) as [u'|] eqn:Hpaths; [|discriminate].
  injection Hf as <-.
  destruct (paths_are_updates _ _ _ _ _ Hpaths) as (es & -> & Hes).
  apply (updates_adminized entries es f (param_updater_new f (a_param_name a)) Hes).
  apply adminized_refl.
Qed.

(** X9.  The pass of the adminizer over a layer gives back the features
    of the layer in their order, each with its id, its geometries and
    all attributes other than [param_name] as they were, and with
    [param_name], where the feature changed at all, set to the value of
    an entry built from the datasource. *)
Theorem process_adminized (feature_envelope : feature → box2d) (a : adminizer)
    (layer layer' : list feature) :
  process feature_envelope a layer = Some layer' →
  ∃ entries,
    make_entries a (envelope feature_envelope layer) = Some entries
    ∧ Forall2 (adminized (a_param_name a) entries) layer layer'.
Proof.
  unfold process. intros Hprocess.
  destruct (make_entries a _) as [entries|]; [|discriminate]. simpl in Hprocess.
  exists entries. split; [done|].
  apply mapM_Some in Hprocess. eapply Forall2_impl; [exact Hprocess|].
  intros f f'. apply adminize_feature_adminized.
Qed.

Lemma linestring_step_defined (st : multi_linestring_2d * double * double)
    (v : vertex) :
  fst (fst st) ≠ [] →
  ∃ st', linestring_step st v = Some st' ∧ fst (fst st') ≠ [].
Proof.
  destruct st as [[line prev_x] prev_y]. simpl. intros Hline.
  unfold linestring_step. destruct (v_cmd v).
  - by eexists.
  - eexists. split; [reflexivity|]. simpl.
    intros Happ. by apply app_eq_nil in Happ as [_ ?].
  - destruct (close_to _ _ _ _); [by eexists|].
    destruct (push_back_last_defined line (v_x v, v_y v) Hline) as (line' & -> & Hne).
    by eexists.
  - by eexists.
Qed.

Lemma linestring_steps_defined (vs : list vertex) : ∀ st,
  fst (fst st) ≠ [] → is_Some (Unionizer.foldlM linestring_step st vs).
Proof.
  induction vs as [|v vs IH]; intros st Hline; simpl; [eauto|].
  destruct (linestring_step_defined st v Hline) as (st' & -> & Hne).
  simpl. by apply IH.
Qed.

Lemma make_boost_linestring_defined (g : geometry_type) :
  starts_with_moveto g → is_Some (make_boost_linestring g).
Proof.
  unfold starts_with_moveto, make_boost_linestring.
  destruct (iterate (g_vertices g)) as [|v vs]; [simpl; eauto|].
  intros Hv. rewrite foldlM_cons.
  assert (linestring_step ([], 0%Q, 0%Q) v
          = Some ([[(v_x v, v_y v)]], v_x v, v_y v)) as ->
    by (unfold linestring_step; rewrite Hv; reflexivity).
  simpl.
  destruct (linestring_steps_defined vs ([[(v_x v, v_y v)]], v_x v, v_y v)) as [st ->];
    [done|]. simpl. eauto.
Qed.

Lemma adminize_geometry_defined (entries : list entry) (u : param_updater)
    (g : geometry_type) :
  liftable g → is_Some (adminize_geometry (make_index entries) entries u g).
Proof.
  unfold liftable, adminize_geometry. intros Hg. destruct (g_type g).
  - eauto.
  - apply try_update_defined.
  - destruct (make_boost_linestring_defined g) as [line ->]; [by apply Hg; left|].
    simpl. apply try_update_defined.
  - destruct (make_boost_polygon_defined g) as [poly ->]; [by apply Hg; right|].
    simpl. apply try_update_defined.
Qed.

Lemma adminize_paths_defined (entries : list entry) (paths : list geometry_type) :
  ∀ u, Forall liftable paths →
  is_Some (adminize_paths (make_index entries) entries u paths).
Proof.
  induction paths as [|g paths IH]; intros u; [simpl; eauto|].
  intros [Hg Hpaths]%Forall_cons. simpl.
  destruct (adminize_geometry_defined entries u g Hg) as [u1 ->]. simpl.
  destruct (m_finished u1); [eauto|by apply IH].
Qed.

(** X10.  The pass of the adminizer is defined, with no access outside the
    vector of entries and no ring or line missing, whenever the polygons
    of the datasource and the linestrings and polygons of the layer
    begin with a move-to. *)
Theorem process_defined (feature_envelope : feature → box2d) (a : adminizer)
    (layer : list feature) :
  Forall (λ src, starts_with_moveto (fst src))
    (polygon_sources (a_param_name a)
       (a_datasource a (envelope feature_envelope layer))) →
  Forall (λ f, Forall liftable (f_paths f)) layer →
  is_Some (process feature_envelope a layer).
Proof.
  intros Hsources Hlayer. unfold process.
  destruct (feature_entries_defined a
              (a_datasource a (envelope feature_envelope layer)) ([], 0%N))
    as [st Hst].
  { eapply Forall_impl; [exact Hsources|]. intros src. apply make_boost_polygon_defined. }
  unfold make_entries. rewrite Hst. simpl.
  apply mapM_is_Some. eapply Forall_impl; [exact Hlayer|].
  intros f Hf. simpl. unfold adminize_feature.
  destruct (adminize_paths_defined (fst st) (f_paths f)
              (param_updater_new f (a_param_name a)) Hf) as [u' ->].
  simpl. eauto.
Qed.

End WinnerProps.


(** ** The unionizer: what a pass changes *)

(** Splits a hypothesis [m ≫= f = Some y] into its steps. *)
Ltac split_steps H :=
  repeat match type of H with
         | _ ≫= _ = Some _ =>
             let x := fresh "x" in
             let Hx := fresh "Hx" in
             apply bind_Some in H as (x & Hx & H)
         end.

Section PassProps.
Import Mapnik Unionizer Notions Further.
Context `{ValueOps}.
Local Open Scope nat_scope.

Lemma erase_path_frame (h h' : nat → feature) (p i : nat) :
  erase_path h p i = Some h' → ∀ q, q ≠ p → h' q = h q.
Proof.
  unfold erase_path. destruct (i <? _); [|discriminate]. intros [= <-] q Hq.
  by rewrite fn_lookup_insert_ne.
Qed.

Lemma do_union_frame (c c' : couple_t) (h h' : nat → feature) :
  do_union c h = Some (c', h') →
  ∀ q, q ≠ m_parent (fst c) → q ≠ m_parent (snd c) → h' q = h q.
Proof.
  destruct c as [a b]. unfold do_union. simpl. intros Hu q Ha Hb.
  repeat case_match; try discriminate; subst.
  all: split_steps Hu; injection Hu as <- <-.
  all: repeat match goal with
              | Hc : (_, _) = (_, _) |- _ => injection Hc as <- <-
              end.
  all: repeat match goal with
              | Hx : erase_path _ _ _ = Some _ |- _ =>
                  apply erase_path_frame with (q := q) in Hx; [|done]
              end.
  all: rewrite ?fn_lookup_insert_ne in * by done.
  all: congruence.
Qed.

Lemma union_entry_frame (strategy : tag_strategy) (w w' : walk)
    (entry : score_t * couple_t) :
  union_entry strategy w entry = Some w' →
  ∀ q, q ≠ m_parent (fst (snd entry)) → q ≠ m_parent (snd (snd entry)) →
       w_heap w' q = w_heap w q.
Proof.
  unfold union_entry. intros Hstep q H1 H2.
  destruct (_ || _); [by injection Hstep as <-|].
  destruct (do_union (snd entry) (w_heap w)) as [[c' h1]|] eqn:Hu; [|discriminate].
  simpl in Hstep.
  destruct (sanitize_tags_frame strategy c' h1) as (h2 & Hs & Hframe & _).
  rewrite Hs in Hstep. simpl in Hstep. injection Hstep as <-. simpl.
  pose proof (do_union_frame _ _ _ _ Hu q H1 H2) as <-.
  apply Hframe.
  apply do_union_ids in Hu as [_ [->| ->]]; done.
Qed.

Lemma size_add_one (x : Z) (X : gset Z) : size ({[x]} ∪ X) ≤ 1 + size X.
Proof.
  rewrite size_union_alt, size_singleton.
  assert (size (X ∖ {[x]}) ≤ size X); [|lia].
  apply subseteq_size, subseteq_difference_l. done.
Qed.

Lemma union_entry_grows (strategy : tag_strategy) (w w' : walk)
    (entry : score_t * couple_t) :
  union_entry strategy w entry = Some w' →
  w_unioned w ⊆ w_unioned w'
  ∧ size (w_unioned w') ≤ size (w_unioned w) + 2
  ∧ (w_unioned w = ∅ → w_unioned w' ≠ ∅).
Proof.
  unfold union_entry.
  destruct (bool_decide (f_id (w_heap w (m_parent (snd entry).1)) ∈ w_unioned w)) eqn:H1.
  { apply bool_decide_eq_true in H1. simpl.
    intros Heq. assert (w' = w) as -> by congruence.
    split; [done|]. split; [lia|]. intros Hempty. rewrite Hempty in H1.
    by apply not_elem_of_empty in H1. }
  destruct (bool_decide (f_id (w_heap w (m_parent (snd entry).2)) ∈ w_unioned w)) eqn:H2.
  { apply bool_decide_eq_true in H2. simpl.
    intros Heq. assert (w' = w) as -> by congruence.
    split; [done|]. split; [lia|]. intros Hempty. rewrite Hempty in H2.
    by apply not_elem_of_empty in H2. }
  simpl. intros Hstep.
  destruct (do_union (snd entry) (w_heap w)) as [[c' h1]|]; simpl in Hstep;
    [|discriminate Hstep].
  destruct (sanitize_tags strategy c' h1) as [h2|]; simpl in Hstep;
    [|discriminate Hstep].
  injection Hstep as <-. simpl. split; [|split].
  - apply union_subseteq_r', union_subseteq_r.
  - pose proof (size_add_one (f_id (h2 (m_parent c'.2)))
                  ({[f_id (h2 (m_parent c'.1))]} ∪ w_unioned w)).
    pose proof (size_add_one (f_id (h2 (m_parent c'.1))) (w_unioned w)).
    lia.
  - intros _ Hempty.
    assert (f_id (h2 (m_parent c'.2))
            ∈ ({[f_id (h2 (m_parent c'.2))]}
                 ∪ ({[f_id (h2 (m_parent c'.1))]} ∪ w_unioned w) : gset Z)) as Hin
      by (apply elem_of_union_l, elem_of_singleton; reflexivity).
    rewrite Hempty in Hin. by apply not_elem_of_empty in Hin.
Qed.

Lemma union_walk_grows (strategy : tag_strategy) (scored : score_map) : ∀ w w',
  foldlM (union_entry strategy) w scored = Some w' →
  w_unioned w ⊆ w_unioned w'
  ∧ size (w_unioned w') ≤ size (w_unioned w) + 2 * length scored.
Proof.
  induction scored as [|entry scored IH]; intros w w'; simpl.
  - intros [= <-]. split; [done|lia].
  - destruct (union_entry strategy w entry) as [w1|] eqn:Hstep; [|discriminate].
    simpl. intros Hrest. apply union_entry_grows in Hstep as (Hsub & Hsize & _).
    apply IH in Hrest as [Hsub' Hsize']. split; [by etrans|lia].
Qed.

(** X12.  [union_candidates] returns the count 0 exactly on an empty map of
    scored couples, and then leaves the features alone; the count is at
    most twice the number of scored couples. *)
Theorem union_candidates_count (scored : score_map) (strategy : tag_strategy)
    (ids_tag : option string) (h h' : nat → feature) (count : nat) :
  union_candidates scored strategy ids_tag h = Some (count, h') →
  (count = 0 ↔ scored = [])
  ∧ (scored = [] → h' = h)
  ∧ count ≤ 2 * length scored.
Proof.
  unfold union_candidates, union_walk. intros Hu.
  destruct (foldlM _ _ scored) as [w|] eqn:Hwalk; [|discriminate].
  injection Hu as <- <-. split; [|split].
  - split.
    + intros Hsize. destruct scored as [|entry scored]; [done|]. exfalso.
      simpl in Hwalk.
      destruct (union_entry strategy _ entry) as [w1|] eqn:Hstep; [|discriminate].
      simpl in Hwalk. apply union_entry_grows in Hstep as (_ & _ & Hfirst).
      apply union_walk_grows in Hwalk as [Hsub _].
      apply size_empty_iff in Hsize.
      apply Hfirst; [done|]. apply leibniz_equiv. apply equiv_empty.
      etrans; [exact Hsub|]. by rewrite Hsize.
    + intros ->. by injection Hwalk as <-.
  - intros ->. by injection Hwalk as <-.
  - apply union_walk_grows in Hwalk as [_ Hsize]. cbn [w_unioned] in Hsize.
    rewrite size_empty in Hsize. lia.
Qed.
End PassProps.

(** ** The candidates of a layer *)

Section CandidateProps.
Import Mapnik Unionizer Notions Further.
Context `{ValueOps}.
Local Open Scope nat_scope.

Lemma elem_of_multiset_emplace (cmp : candidate → candidate → bool)
    (c x : candidate) (cs : list candidate) :
  x ∈ multiset_emplace cmp c cs ↔ x = c ∨ x ∈ cs.
Proof.
  induction cs as [|c' cs IH]; simpl.
  - by rewrite elem_of_cons.
  - destruct (cmp c c').
    + by rewrite elem_of_cons.
    + rewrite !elem_of_cons, IH. tauto.
Qed.

Lemma candidate_new_end (h : nat → feature) (pos : position) (i p : nat)
    (dir : bool) (heuristic : union_heuristic) (distance : double * double)
    (g : geometry_type) :
  f_paths (h p) !! i = Some g → eligible g = true →
  ∃ c, candidate_new h pos i p dir heuristic distance = Some c
       ∧ m_position c = pos ∧ m_index c = i ∧ m_parent c = p
       ∧ m_directional c = dir ∧ line_end h c.
Proof.
  intros Hg Heligible. unfold candidate_new. rewrite Hg.
  pose proof Heligible as Hsize. unfold eligible in Hsize.
  apply andb_true_iff in Hsize as [_ Hsize]. apply Nat.ltb_lt in Hsize.
  destruct (lookup_lt_is_Some_2 (g_vertices g) (end_position pos g)) as [v Hv].
  { unfold end_position, g_size in *. destruct pos; lia. }
  unfold end_position in Hv.
  cbn [mbind option_bind]. rewrite Hv. cbn [mbind option_bind].
  assert (∀ c, m_position c = pos → m_index c = i → m_parent c = p →
               m_x c = v_x v → m_y c = v_y v → line_end h c) as Hend.
  { intros c Hpos Hi Hp Hx Hy. exists g, v. rewrite Hp, Hi, Hpos. done. }
  destruct heuristic.
  - eexists. split; [reflexivity|]. cbn [m_position m_index m_parent m_directional].
    repeat split. by apply Hend.
  - destruct (curve_approximator.get_approximation _) as [dx dy].
    eexists. split; [reflexivity|]. cbn [m_position m_index m_parent m_directional].
    repeat split. by apply Hend.
  - destruct (curve_approximator.get_approximation _) as [dx dy].
    eexists. split; [reflexivity|]. cbn [m_position m_index m_parent m_directional].
    repeat split. by apply Hend.
Qed.

Lemma add_candidates_from_ends (cmp : candidate → candidate → bool)
    (h : nat → feature) (p : nat) (heuristic : union_heuristic) (dir : bool)
    (distance : double * double) (idxs : list nat) : ∀ cands,
  Forall (λ i, i < num_geometries (h p)) idxs →
  ∃ cands',
    add_candidates_from cmp h p heuristic dir distance idxs cands = Some cands'
    ∧ (∀ c, c ∈ cands' →
         c ∈ cands ∨ (m_parent c = p ∧ m_directional c = dir ∧ line_end h c))
    ∧ (∀ c, c ∈ cands → c ∈ cands')
    ∧ (∀ i g pos, i ∈ idxs → f_paths (h p) !! i = Some g → eligible g = true →
         ∃ c, c ∈ cands' ∧ m_position c = pos ∧ m_index c = i ∧ m_parent c = p).
Proof.
  induction idxs as [|i idxs IH]; intros cands.
  { intros _. exists cands. split; [done|]. split; [by left|]. split; [done|].
    intros i g pos Hi. by apply elem_of_nil in Hi. }
  intros [Hi Hidxs]%Forall_cons. simpl.
  destruct (lookup_lt_is_Some_2 (f_paths (h p)) i Hi) as [g Hg]. rewrite Hg. simpl.
  fold (eligible g). destruct (eligible g) eqn:Heligible.
  - destruct (candidate_new_end h FRONT i p dir heuristic distance g Hg Heligible)
      as (front & -> & Hfpos & Hfi & Hfp & Hfdir & Hfend).
    destruct (candidate_new_end h BACK i p dir heuristic distance g Hg Heligible)
      as (back & -> & Hbpos & Hbi & Hbp & Hbdir & Hbend).
    simpl.
    destruct (IH (multiset_emplace cmp back (multiset_emplace cmp front cands)) Hidxs)
      as (cands' & -> & Hsound & Hkeep & Hcomplete).
    exists cands'. split; [done|]. split; [|split].
    + intros c Hc. apply Hsound in Hc as [Hc|Hc]; [|by right].
      apply elem_of_multiset_emplace in Hc as [->|Hc]; [by right|].
      apply elem_of_multiset_emplace in Hc as [->|Hc]; [by right|by left].
    + intros c Hc. apply Hkeep. rewrite !elem_of_multiset_emplace. auto.
    + intros i' g' pos [->|Hi']%elem_of_cons Hg' Heligible'.
      * destruct pos.
        -- exists front. split; [|done]. apply Hkeep.
           rewrite !elem_of_multiset_emplace. auto.
        -- exists back. split; [|done]. apply Hkeep.
           rewrite !elem_of_multiset_emplace. auto.
      * by apply (Hcomplete i' g').
  - simpl. destruct (IH cands Hidxs) as (cands' & -> & Hsound & Hkeep & Hcomplete).
    exists cands'. split; [done|]. split; [done|]. split; [done|].
    intros i' g' pos [->|Hi']%elem_of_cons Hg' Heligible'.
    + congruence.
    + by apply (Hcomplete i' g').
Qed.

Lemma get_candidates_from_ends (h : nat → feature) (tags directional_tags : list string)
    (heuristic : union_heuristic) (distance : double * double) (layer : list nat) :
  ∀ cands,
  ∃ cands',
    get_candidates_from h tags directional_tags heuristic distance layer cands
    = Some cands'
    ∧ (∀ c, c ∈ cands' → c ∈ cands ∨ end_of_line h layer tags directional_tags c)
    ∧ (∀ c, c ∈ cands → c ∈ cands')
    ∧ (∀ p i g pos, p ∈ layer → unionable (h p) tags = true →
         f_paths (h p) !! i = Some g → eligible g = true →
         ∃ c, c ∈ cands' ∧ m_position c = pos ∧ m_index c = i ∧ m_parent c = p).
Proof.
  induction layer as [|p layer IH]; intros cands.
  { exists cands. split; [done|]. split; [by left|]. split; [done|].
    intros p i g pos Hp. by apply elem_of_nil in Hp. }
  simpl. destruct (unionable (h p) tags) eqn:Hunionable; simpl.
  - unfold add_candidates.
    destruct (add_candidates_from_ends (candidate_comparator tags h) h p heuristic
                (existsb (has_key (h p)) directional_tags) distance
                (seq 0 (num_geometries (h p))) cands)
      as (cands1 & -> & Hsound1 & Hkeep1 & Hcomplete1).
    { apply Forall_forall. intros i Hi%elem_of_seq. lia. }
    simpl. destruct (IH cands1) as (cands' & -> & Hsound & Hkeep & Hcomplete).
    exists cands'. split; [done|]. split; [|split].
    + intros c Hc. apply Hsound in Hc as [Hc|(Hin & Hrest)].
      * apply Hsound1 in Hc as [Hc|(Hp & Hdir & Hend)]; [by left|]. right.
        split; [rewrite Hp; apply elem_of_cons; by left|].
        rewrite Hp. done.
      * right. split; [apply elem_of_cons; by right|done].
    + intros c Hc. by apply Hkeep, Hkeep1.
    + intros p' i g pos [->|Hp']%elem_of_cons Hunionable' Hg Heligible.
      * destruct (Hcomplete1 i g pos) as (c & Hc & Hfields); [|done..|].
        { apply elem_of_seq. apply lookup_lt_Some in Hg. unfold num_geometries. lia. }
        exists c. split; [by apply Hkeep|done].
      * by apply (Hcomplete p' i g).
  - destruct (IH cands) as (cands' & -> & Hsound & Hkeep & Hcomplete).
    exists cands'. split; [done|]. split; [|split; [done|]].
    + intros c Hc. apply Hsound in Hc as [Hc|(Hin & Hrest)]; [by left|].
      right. split; [apply elem_of_cons; by right|done].
    + intros p' i g pos [->|Hp']%elem_of_cons Hunionable' Hg Heligible.
      * congruence.
      * by apply (Hcomplete p' i g).
Qed.

Lemma get_candidates_sound (h : nat → feature) (layer : list nat)
    (tags directional_tags : list string) (heuristic : union_heuristic)
    (distance : double * double) (cands : list candidate) :
  get_candidates h layer tags directional_tags heuristic distance = Some cands →
  Forall (end_of_line h layer tags directional_tags) cands.
Proof.
  unfold get_candidates. intros Hcands.
  destruct (get_candidates_from_ends h tags directional_tags heuristic distance layer [])
    as (cands' & Heq & Hsound & _).
  rewrite Hcands in Heq. injection Heq as <-.
  apply Forall_forall. intros c Hc. apply Hsound in Hc as [Hc|Hc]; [|done].
  by apply elem_of_nil in Hc.
Qed.

(** X13.  [get_candidates] is defined on every layer, and its candidates
    are the two ends of every linestring of more than one vertex in the
    unionable features of the layer, and nothing else: each candidate
    sits at the first or the last vertex of such a linestring, with the
    coordinates of that vertex, and is directional exactly when its
    feature has a direction tag. *)
Theorem get_candidates_ends (h : nat → feature) (layer : list nat)
    (tags directional_tags : list string) (heuristic : union_heuristic)
    (distance : double * double) :
  ∃ cands,
    get_candidates h layer tags directional_tags heuristic distance = Some cands
    ∧ Forall (end_of_line h layer tags directional_tags) cands
    ∧ ∀ p i g pos, p ∈ layer → unionable (h p) tags = true →
        f_paths (h p) !! i = Some g → eligible g = true →
        ∃ c, c ∈ cands ∧ m_position c = pos ∧ m_index c = i ∧ m_parent c = p.
Proof.
  unfold get_candidates.
  destruct (get_candidates_from_ends h tags directional_tags heuristic distance layer [])
    as (cands & -> & Hsound & _ & Hcomplete).
  exists cands. split; [done|]. split; [|done].
  apply Forall_forall. intros c Hc. apply Hsound in Hc as [Hc|Hc]; [|done].
  by apply elem_of_nil in Hc.
Qed.
End CandidateProps.

(** ** What the passes keep *)

Section KeepProps.
Import Mapnik Unionizer Notions Further.
Context `{ValueOps}.
Local Open Scope nat_scope.

Lemma kept_refl (layer : list nat) (h : nat → feature) : kept layer h h.
Proof. done. Qed.

Lemma kept_trans (layer : list nat) (h1 h2 h3 : nat → feature) :
  kept layer h1 h2 → kept layer h2 h3 → kept layer h1 h3.
Proof.
  intros (Hid & Hout & Hnum & Hkeys) (Hid' & Hout' & Hnum' & Hkeys').
  split; [|split; [|split]].
  - intros q. by rewrite Hid'.
  - intros q Hq. rewrite Hout' by done. by apply Hout.
  - intros q. etrans; [apply Hnum'|apply Hnum].
  - intros q key Hkey. by apply Hkeys', Hkeys.
Qed.

Lemma erase_path_count (h h' : nat → feature) (p i : nat) :
  erase_path h p i = Some h' →
  (∀ q, q ≠ p → h' q = h q)
  ∧ num_geometries (h' p) + 1 = num_geometries (h p)
  ∧ f_attrs (h' p) = f_attrs (h p).
Proof.
  unfold erase_path. destruct (i <? _) eqn:Hi; [|discriminate]. intros [= <-].
  apply Nat.ltb_lt in Hi. split; [|split].
  - intros q Hq. by rewrite fn_lookup_insert_ne.
  - rewrite fn_lookup_insert. unfold num_geometries. simpl.
    rewrite length_delete by (by apply lookup_lt_is_Some_2). lia.
  - by rewrite fn_lookup_insert.
Qed.

Lemma append_count (h h' : nat → feature) (p1 p2 i1 i2 : nat) (dst : geometry_type) :
  erase_path (<[p1 := set_paths (h p1) (<[i1 := dst]> (f_paths (h p1)))]> h) p2 i2
  = Some h' →
  ∀ q, num_geometries (h' q) ≤ num_geometries (h q)
       ∧ f_attrs (h' q) = f_attrs (h q).
Proof.
  intros (Hout & Hnum & Hattrs)%erase_path_count q.
  assert (∀ r, num_geometries
                 (<[p1 := set_paths (h p1) (<[i1 := dst]> (f_paths (h p1)))]> h r)
               = num_geometries (h r)
               ∧ f_attrs (<[p1 := set_paths (h p1) (<[i1 := dst]> (f_paths (h p1)))]> h r)
                 = f_attrs (h r)) as Hsame.
  { intros r. destruct (decide (p1 = r)) as [<-|Hne].
    - rewrite fn_lookup_insert. unfold num_geometries. simpl.
      by rewrite length_insert.
    - by rewrite fn_lookup_insert_ne. }
  destruct (decide (q = p2)) as [->|Hq].
  - destruct (Hsame p2) as [Hn Ha]. split; [lia|congruence].
  - rewrite Hout by done. destruct (Hsame q) as [Hn Ha]. split; [lia|done].
Qed.

Lemma do_union_count (c c' : couple_t) (h h' : nat → feature) :
  do_union c h = Some (c', h') →
  ∀ q, num_geometries (h' q) ≤ num_geometries (h q)
       ∧ f_attrs (h' q) = f_attrs (h q).
Proof.
  destruct c as [a b]. unfold do_union. simpl. intros Hu q.
  repeat case_match; try discriminate; subst.
  all: split_steps Hu; injection Hu as <- <-.
  all: repeat match goal with
              | Hc : (_, _) = (_, _) |- _ => injection Hc as <- <-
              end.
  all: try (eapply append_count; eassumption).
  match goal with
  | H1 : erase_path h _ _ = Some ?h1, H2 : erase_path ?h1 _ _ = Some ?h2 |- _ =>
      apply erase_path_count in H1 as (Hout1 & Hnum1 & Hattrs1);
      apply erase_path_count in H2 as (Hout2 & Hnum2 & Hattrs2)
  end.
  destruct (decide (m_parent a = q)) as [<-|Hqa].
  - rewrite fn_lookup_insert. unfold num_geometries in *. simpl.
    rewrite length_app. simpl.
    destruct (decide (m_parent a = m_parent b)) as [Hab|Hab].
    + rewrite Hab in *. split; [lia|congruence].
    + rewrite Hout2 in * by done. split; [lia|congruence].
  - rewrite fn_lookup_insert_ne by done.
    destruct (decide (q = m_parent b)) as [->|Hqb].
    + rewrite Hout1 in * by done. split; [lia|congruence].
    + rewrite Hout2, Hout1 by done. done.
Qed.

Lemma sanitize_tags_keeps (strategy : tag_strategy) (c : couple_t)
    (h h' : nat → feature) :
  sanitize_tags strategy c h = Some h' →
  attrs_frame (m_parent (fst c)) h h'
  ∧ ∀ key, is_Some (f_attrs (h (m_parent (fst c))) !! key)
           → is_Some (f_attrs (h' (m_parent (fst c))) !! key).
Proof.
  unfold sanitize_tags.
  set (p1 := m_parent (fst c)). set (p2 := m_parent (snd c)).
  destruct (first_loop p1 p2 strategy (keys (h p1)) h) as (h1 & Hfold1 & Hframe1 & Hat1).
  { apply NoDup_keys. }
  { intros k. apply elem_of_keys. }
  rewrite Hfold1. simpl.
  assert (∀ key, is_Some (f_attrs (h p1) !! key) → is_Some (f_attrs (h1 p1) !! key))
    as Hkeys1.
  { intros key [v Hv]. rewrite Hat1. rewrite decide_True by (apply elem_of_keys; eauto).
    unfold first_pass. rewrite Hv. destruct (f_attrs (h p2) !! key); eauto. }
  destruct strategy.
  - intros [= <-]. done.
  - destruct (second_loop p1 p2 (keys (h1 p2)) h1) as (h2 & Hfold2 & Hframe2 & Hat2).
    { intros k. apply elem_of_keys. }
    rewrite Hfold2. intros [= <-]. split.
    + eapply attrs_frame_trans; eassumption.
    + intros key Hkey. apply Hkeys1 in Hkey as [v Hv]. rewrite Hat2, Hv. eauto.
Qed.

Lemma union_entry_kept (strategy : tag_strategy) (layer : list nat) (w w' : walk)
    (entry : score_t * couple_t) :
  m_parent (fst (snd entry)) ∈ layer → m_parent (snd (snd entry)) ∈ layer →
  union_entry strategy w entry = Some w' →
  kept layer (w_heap w) (w_heap w').
Proof.
  intros Hp1 Hp2 Hstep.
  pose proof (union_entry_frame _ _ _ _ Hstep) as Hframe.
  unfold union_entry in Hstep.
  destruct (_ || _); [injection Hstep as <-; apply kept_refl|].
  destruct (do_union (snd entry) (w_heap w)) as [[c' h1]|] eqn:Hu; simpl in Hstep;
    [|discriminate Hstep].
  destruct (sanitize_tags strategy c' h1) as [h2|] eqn:Hs; simpl in Hstep;
    [|discriminate Hstep].
  injection Hstep as <-. simpl in *.
  pose proof (do_union_count _ _ _ _ Hu) as Hcount.
  pose proof (do_union_ids _ _ _ _ Hu) as [Hids _].
  pose proof (sanitize_tags_ids _ _ _ _ Hs) as Hids'.
  apply sanitize_tags_keeps in Hs as [(Hq & _ & Hpaths) Hkeys].
  split; [|split; [|split]].
  - intros q. rewrite Hids'. apply Hids.
  - intros q Hq'. apply Hframe; intros ->; done.
  - intros q. destruct (Hcount q) as [Hle _].
    destruct (decide (q = m_parent (fst c'))) as [->|Hne].
    + unfold num_geometries in *. by rewrite Hpaths.
    + by rewrite Hq.
  - intros q key Hkey. destruct (Hcount q) as [_ Hattrs]. rewrite <- Hattrs in Hkey.
    destruct (decide (q = m_parent (fst c'))) as [->|Hne].
    + by apply Hkeys.
    + by rewrite Hq.
Qed.

Lemma union_walk_kept (strategy : tag_strategy) (layer : list nat)
    (scored : score_map) : ∀ w w',
  Forall (λ entry, m_parent (fst (snd entry)) ∈ layer
                   ∧ m_parent (snd (snd entry)) ∈ layer) scored →
  foldlM (union_entry strategy) w scored = Some w' →
  kept layer (w_heap w) (w_heap w').
Proof.
  induction scored as [|entry scored IH]; intros w w'; simpl.
  - intros _ [= <-]. apply kept_refl.
  - intros [[Hp1 Hp2] Hscored]%Forall_cons.
    destruct (union_entry strategy w entry) as [w1|] eqn:Hstep; [|discriminate].
    simpl. intros Hrest. eapply kept_trans.
    + eapply union_entry_kept; eassumption.
    + by apply IH.
Qed.

Lemma scored_in_layer (h : nat → feature) (layer : list nat)
    (tags directional_tags : list string) (heuristic : union_heuristic)
    (distance : double * double) (cmp : candidate → candidate → bool)
    (scorer : couple_t → option score_t) (candidates : list candidate)
    (scored : score_map) :
  get_candidates h layer tags directional_tags heuristic distance = Some candidates →
  score_candidates cmp candidates scorer = Some scored →
  Forall (λ entry, m_parent (fst (snd entry)) ∈ layer
                   ∧ m_parent (snd (snd entry)) ∈ layer) scored.
Proof.
  intros Hcands Hscored.
  pose proof (get_candidates_sound _ _ _ _ _ _ _ Hcands) as Hends.
  apply score_candidates_first in Hscored as [_ Hfirst].
  apply Forall_forall. intros [s c] Hin.
  apply Hfirst, first_scored_elem_of, compatible_pairs_scored in Hin
    as (_ & a & b & Ha & Hb & Hc).
  apply make_couple_Some in Hc as (Hc & _). simpl in Hc. subst c. simpl.
  rewrite Forall_forall in Hends.
  split; [by apply (Hends a Ha)|by apply (Hends b Hb)].
Qed.

Lemma process_loop_kept (u : unionizer) (distance : double * double)
    (layer : list nat) (iterations : nat) : ∀ h layer' h',
  process_loop u distance iterations layer h = Some (layer', h') →
  layer' = cull h' layer ∧ kept layer h h'.
Proof.
  induction iterations as [|n IH]; intros h layer' h'; simpl.
  - intros [= <- <-]. split; [done|apply kept_refl].
  - intros Hloop.
    destruct (get_candidates h layer _ _ _ _) as [cands|] eqn:Hcands;
      simpl in Hloop; [|discriminate Hloop].
    destruct (score_candidates _ cands _) as [scored|] eqn:Hscored;
      simpl in Hloop; [|discriminate Hloop].
    destruct (union_candidates scored _ _ h) as [[count h1]|] eqn:Hunion;
      simpl in Hloop; [|discriminate Hloop].
    assert (kept layer h h1) as Hkept.
    { unfold union_candidates, union_walk in Hunion.
      destruct (foldlM _ _ scored) as [w|] eqn:Hwalk; [|discriminate Hunion].
      injection Hunion as _ <-.
      apply (union_walk_kept _ layer) in Hwalk; [exact Hwalk|].
      eapply scored_in_layer; eassumption. }
    destruct (count =? 0).
    + injection Hloop as <- <-. done.
    + apply IH in Hloop as [-> Hkept']. split; [done|].
      eapply kept_trans; eassumption.
Qed.

(** X14.  [process] returns the features of the layer that still have a
    geometry, in their order; no feature changes its id, no feature
    outside the layer changes at all, no feature gains a geometry and no
    feature loses an attribute key. *)
Theorem process_keeps (u : unionizer) (layer layer' : list nat)
    (h h' : nat → feature) (extent_width extent_height : double) :
  process u layer h extent_width extent_height = Some (layer', h') →
  layer' = cull h' layer
  ∧ Forall (λ p, p ∈ layer ∧ f_paths (h' p) ≠ []) layer'
  ∧ kept layer h h'.
Proof.
  unfold process. intros Hloop. apply process_loop_kept in Hloop as [-> Hkept].
  split; [done|]. split; [|done].
  apply Forall_forall. intros p Hp. unfold cull in Hp.
  apply list_elem_of_filter in Hp as [Hnum Hp]. split; [done|].
  intros Hnil. apply Hnum. unfold num_geometries. by rewrite Hnil.
Qed.
End KeepProps.


(** ** The sample budget of the curve approximator *)

Section Budget.
Import Mapnik Unionizer Notions Further.
Import curve_approximator.
Local Open Scope Q_scope.


Lemma dlt_lt (a b : Q) : dlt a b = true ↔ a < b.
Proof.
  unfold dlt. rewrite negb_true_iff. split.
  - intros Hle. apply Qnot_le_lt. intros Hba. apply Qle_bool_iff in Hba. congruence.
  - intros Hlt. destruct (Qle_bool b a) eqn:Hle; [|done].
    apply Qle_bool_iff in Hle. lra.
Qed.

Lemma dlt_ge (a b : Q) : dlt a b = false ↔ b <= a.
Proof.
  unfold dlt. rewrite negb_false_iff. apply Qle_bool_iff.
Qed.



End Budget.

(** ** The order of the candidates *)

Section OrderProps.
Import Mapnik Unionizer Notions Further.
Context `{ValueOps}.

Lemma comparator_lt (h : nat → feature) (a b : candidate) :
  candidate_comparator [] h a b = true
  ↔ (m_x a < m_x b)%Q ∨ ((m_x a == m_x b)%Q ∧ (m_y a < m_y b)%Q).
Proof.
  unfold candidate_comparator, dgt. simpl.
  destruct (dlt (m_x a) (m_x b)) eqn:H1.
  { apply dlt_lt in H1. split; [by left|done]. }
  apply dlt_ge in H1.
  destruct (dlt (m_x b) (m_x a)) eqn:H2.
  { apply dlt_lt in H2. split; [done|]. intros [?|[? _]]; lra. }
  apply dlt_ge in H2.
  destruct (dlt (m_y a) (m_y b)) eqn:H3.
  { apply dlt_lt in H3. split; [|done]. intros _. right. split; [lra|done]. }
  apply dlt_ge in H3.
  destruct (dlt (m_y b) (m_y a)); (split; [done|]); intros [?|[_ ?]]; lra.
Qed.

Lemma comparator_before (h : nat → feature) (a b : candidate) :
  candidate_comparator [] h b a = false ↔ before a b.
Proof.
  rewrite <- not_true_iff_false, comparator_lt. unfold before. split.
  - intros Hnot.
    destruct (Qlt_le_dec (m_x a) (m_x b)) as [?|Hx]; [by left|]. right.
    destruct (Qlt_le_dec (m_x b) (m_x a)) as [?|Hx']; [exfalso; apply Hnot; by left|].
    split; [lra|].
    destruct (Qlt_le_dec (m_y b) (m_y a)) as [?|Hy]; [|done].
    exfalso. apply Hnot. right. split; [lra|done].
  - intros [?|[? ?]] [?|[? ?]]; lra.
Qed.

Lemma before_trans (a b c : candidate) : before a b → before b c → before a c.
Proof.
  unfold before. intros [?|[? ?]] [?|[? ?]].
  - left. lra.
  - left. lra.
  - left. lra.
  - right. split; lra.
Qed.

Lemma emplace_ordered (h : nat → feature) (c : candidate) (cs : list candidate) :
  StronglySorted before cs →
  StronglySorted before (multiset_emplace (candidate_comparator [] h) c cs).
Proof.
  induction 1 as [|c' cs Hcs IH Hall]; simpl.
  { constructor; [constructor|constructor]. }
  destruct (candidate_comparator [] h c c') eqn:Hcmp.
  - assert (before c c') as Hcc'.
    { apply comparator_lt in Hcmp. unfold before. destruct Hcmp as [?|[? ?]].
      - by left.
      - right. split; [done|lra]. }
    constructor; [by constructor|]. constructor; [done|].
    eapply Forall_impl; [exact Hall|]. intros r Hr. by eapply before_trans.
  - apply comparator_before in Hcmp. constructor; [exact IH|].
    apply Forall_forall. intros r Hr.
    apply elem_of_multiset_emplace in Hr as [->|Hr]; [done|].
    rewrite Forall_forall in Hall. by apply Hall.
Qed.

Lemma add_candidates_from_inv (Inv : list candidate → Prop)
    (cmp : candidate → candidate → bool) (h : nat → feature) (p : nat)
    (heuristic : union_heuristic) (dir : bool) (distance : double * double)
    (idxs : list nat) :
  (∀ c cs, Inv cs → Inv (multiset_emplace cmp c cs)) →
  ∀ cands cands', Inv cands →
  add_candidates_from cmp h p heuristic dir distance idxs cands = Some cands' →
  Inv cands'.
Proof.
  intros Hemplace. induction idxs as [|i idxs IH]; intros cands cands' Hinv; simpl.
  { by intros [= <-]. }
  destruct (f_paths (h p) !! i) as [g|]; simpl; [|discriminate].
  destruct (_ && _); simpl.
  - destruct (candidate_new h FRONT _ _ _ _ _) as [front|]; simpl; [|discriminate].
    destruct (candidate_new h BACK _ _ _ _ _) as [back|]; simpl; [|discriminate].
    apply IH. by apply Hemplace, Hemplace.
  - by apply IH.
Qed.

Lemma get_candidates_from_inv (Inv : list candidate → Prop) (h : nat → feature)
    (tags directional_tags : list string) (heuristic : union_heuristic)
    (distance : double * double) (layer : list nat) :
  (∀ c cs, Inv cs → Inv (multiset_emplace (candidate_comparator tags h) c cs)) →
  ∀ cands cands', Inv cands →
  get_candidates_from h tags directional_tags heuristic distance layer cands
  = Some cands' →
  Inv cands'.
Proof.
  intros Hemplace. induction layer as [|p layer IH]; intros cands cands' Hinv; simpl.
  { by intros [= <-]. }
  destruct (negb (unionable (h p) tags)); simpl; [by apply IH|].
  destruct (add_candidates _ h p cands _ _ _) as [cands1|] eqn:Hadd; simpl;
    [|discriminate].
  apply IH. unfold add_candidates in Hadd.
  eapply add_candidates_from_inv; [exact Hemplace|exact Hinv|exact Hadd].
Qed.

Lemma get_candidates_sorted (h : nat → feature) (layer : list nat)
    (directional_tags : list string) (heuristic : union_heuristic)
    (distance : double * double) (cands : list candidate) :
  get_candidates h layer [] directional_tags heuristic distance = Some cands →
  StronglySorted before cands.
Proof.
  unfold get_candidates. intros Hcands.
  eapply (get_candidates_from_inv (StronglySorted before)); [|constructor|exact Hcands].
  intros c cs. apply emplace_ordered.
Qed.

(** X17.  Without match tags the comparator of the candidates is a strict
    weak ordering, the order by [x] and then by [y], and the candidates
    of a layer come out in that order. *)
Theorem candidates_ordered (h : nat → feature) (layer : list nat)
    (directional_tags : list string) (heuristic : union_heuristic)
    (distance : double * double) :
  let cmp := candidate_comparator [] h in
  (∀ a, cmp a a = false)
  ∧ (∀ a b c, cmp a b = true → cmp b c = true → cmp a c = true)
  ∧ (∀ a b c, cmp a b = false → cmp b a = false →
              cmp b c = false → cmp c b = false →
              cmp a c = false ∧ cmp c a = false)
  ∧ ∃ cands,
      get_candidates h layer [] directional_tags heuristic distance = Some cands
      ∧ StronglySorted before cands.
Proof.
  intros cmp. split; [|split; [|split]].
  - intros a. apply comparator_before. right. split; [reflexivity|apply Qle_refl].
  - intros a b c Hab%comparator_lt Hbc%comparator_lt. apply comparator_lt.
    destruct Hab as [?|[? ?]], Hbc as [?|[? ?]].
    + left. lra.
    + left. lra.
    + left. lra.
    + right. split; lra.
  - intros a b c Hab%comparator_before Hba%comparator_before
      Hbc%comparator_before Hcb%comparator_before.
    split; apply comparator_before; eapply before_trans; eassumption.
  - destruct (get_candidates_from_ends h [] directional_tags heuristic distance layer [])
      as (cands & Hcands & _).
    exists cands. split; [done|]. by eapply get_candidates_sorted.
Qed.
End OrderProps.

(** ** The couples that are scored *)

Section MeetProps.
Import Mapnik Unionizer Notions Further.
Context `{ValueOps}.

Lemma adjacent_pairs_adjacent (cmp : candidate → candidate → bool)
    (scorer : couple_t → option score_t) (c : candidate) (rest : list candidate)
    (sc : option score_t * couple_t) :
  sc ∈ Spec.adjacent_pairs cmp scorer c rest →
  fst (snd sc) = c ∧ snd (snd sc) ∈ rest ∧ cmp c (snd (snd sc)) = false.
Proof.
  induction rest as [|n rest IH]; simpl.
  - intros Hin. by apply elem_of_nil in Hin.
  - destruct (cmp c n) eqn:Hcmp; [intros Hin; by apply elem_of_nil in Hin|].
    rewrite elem_of_app. intros [Hin|Hin].
    + destruct (make_couple c n) as [couple|] eqn:Hcouple.
      * apply list_elem_of_singleton in Hin as ->. simpl.
        apply make_couple_Some in Hcouple as [-> _]. simpl.
        split; [done|]. split; [apply elem_of_cons; by left|done].
      * by apply elem_of_nil in Hin.
    + destruct (IH Hin) as (Hc & Hrest & Hn). split; [done|].
      split; [apply elem_of_cons; by right|done].
Qed.

Lemma compatible_pairs_meet (h : nat → feature) (scorer : couple_t → option score_t)
    (cands : list candidate) (sc : option score_t * couple_t) :
  StronglySorted before cands →
  sc ∈ Spec.compatible_pairs (candidate_comparator [] h) scorer cands →
  before (fst (snd sc)) (snd (snd sc)) ∧ before (snd (snd sc)) (fst (snd sc)).
Proof.
  induction 1 as [|c rest Hrest IH Hall]; simpl.
  - intros Hin. by apply elem_of_nil in Hin.
  - rewrite elem_of_app. intros [Hin|Hin]; [|by apply IH].
    apply adjacent_pairs_adjacent in Hin as (-> & Hn & Hcmp).
    rewrite Forall_forall in Hall. split; [by apply Hall|].
    by apply comparator_before in Hcmp.
Qed.

(** X18.  Without match tags, every couple that [score_candidates] returns
    for the candidates of a layer joins two different ends of eligible
    linestrings of the layer that lie in one and the same point, and
    stands under the score its scorer gives it. *)
Theorem scored_couples_meet (h : nat → feature) (layer : list nat)
    (directional_tags : list string) (heuristic : union_heuristic)
    (distance : double * double) (scorer : couple_t → option score_t)
    (cands : list candidate) (scored : score_map) :
  get_candidates h layer [] directional_tags heuristic distance = Some cands →
  score_candidates (candidate_comparator [] h) cands scorer = Some scored →
  Forall (λ entry,
            let a := fst (snd entry) in
            let b := snd (snd entry) in
            scorer (snd entry) = Some (fst entry)
            ∧ (m_x a == m_x b)%Q ∧ (m_y a == m_y b)%Q
            ∧ end_of_line h layer [] directional_tags a
            ∧ end_of_line h layer [] directional_tags b
            ∧ same_geometry a b = false) scored.
Proof.
  intros Hcands Hscored.
  pose proof (get_candidates_sorted _ _ _ _ _ _ Hcands) as Hsorted.
  pose proof (get_candidates_sound _ _ _ _ _ _ _ Hcands) as Hends.
  apply score_candidates_first in Hscored as [_ Hfirst].
  apply Forall_forall. intros [s c] Hin. simpl.
  apply Hfirst, first_scored_elem_of in Hin.
  pose proof (compatible_pairs_meet h scorer cands _ Hsorted Hin) as [Hab Hba].
  apply compatible_pairs_scored in Hin as (Hs & a & b & Ha & Hb & Hc).
  simpl in *. pose proof Hc as Hfilter.
  apply make_couple_Some in Hc as (-> & Hgeom & _). simpl in *.
  rewrite Forall_forall in Hends.
  split; [done|].
  assert ((m_x a == m_x b)%Q ∧ (m_y a == m_y b)%Q) as [Hx Hy].
  { unfold before in Hab, Hba. destruct Hab as [?|[? ?]], Hba as [?|[? ?]];
      split; lra. }
  split; [done|]. split; [done|]. split; [by apply Hends|]. split; [by apply Hends|].
  unfold same_geometry. apply andb_false_iff.
  destruct (decide (m_parent a = m_parent b)) as [Hp|Hp].
  - left. apply Nat.eqb_neq. by apply Hgeom.
  - right. by apply Nat.eqb_neq.
Qed.
End MeetProps.


(** ** The further properties on the inputs *)

Section SpliceExamples.
Import Mapnik Unionizer Notions Further Examples Inputs.
Local Open Scope nat_scope.

(** The two roads: the second is appended to the first. *)
Lemma do_union_back_front_witness :
  ∃ h', do_union roads_couple (heap_of roads) = Some (roads_couple, h')
        ∧ f_paths (h' 0) = [linestring [(0, 0); (1, 0); (2, 0)]%Q]
        ∧ f_paths (h' 1) = [].
Proof.
  destruct (do_union_back_front (heap_of roads) (fst roads_couple) (snd roads_couple)
              (linestring [(0, 0); (1, 0)]%Q) (linestring [(1, 0); (2, 0)]%Q))
    as (h' & Hunion & _ & Hdiff & _); [reflexivity..| |].
  { repeat constructor; discriminate. }
  exists h'. split; [exact Hunion|].
  destruct Hdiff as [Hfirst Hsecond]; [discriminate|].
  split; [exact Hfirst|exact Hsecond].
Defined.

(** The second and the third linestring of the row end in one point. *)
Lemma do_union_back_back_witness :
  ∃ h', do_union (end_of BACK 1 2%Q, end_of BACK 2 2%Q) (heap_of row)
        = Some ((end_of BACK 1 2%Q, end_of BACK 2 2%Q), h')
        ∧ f_paths (h' 1) = [linestring [(1, 0); (2, 0); (3, 0)]%Q]
        ∧ f_paths (h' 2) = [].
Proof.
  destruct (do_union_back_back (heap_of row) (end_of BACK 1 2%Q) (end_of BACK 2 2%Q)
              (linestring [(1, 0); (2, 0)]%Q) (linestring [(3, 0); (2, 0)]%Q))
    as (h' & Hunion & Hdiff & _); [reflexivity..| |].
  { repeat constructor; discriminate. }
  exists h'. split; [exact Hunion|].
  destruct Hdiff as [Hfirst Hsecond]; [discriminate|].
  split; [exact Hfirst|exact Hsecond].
Defined.

(** The first two linestrings of the star start in the origin. *)
Lemma do_union_front_front_witness :
  ∃ h', do_union (front 0 1%Q 0%Q, front 1 1%Q 0%Q) (heap_of star)
        = Some ((front 0 1%Q 0%Q, front 1 1%Q 0%Q), h')
        ∧ g_vertices <$> f_paths (h' 0)
          = [[mk_vertex 2 0 SEG_MOVETO; mk_vertex 0 0 SEG_LINETO;
              mk_vertex 4 0 SEG_LINETO]%Q]
        ∧ f_paths (h' 1) = [].
Proof.
  destruct (do_union_front_front (heap_of star) (front 0 1%Q 0%Q) (front 1 1%Q 0%Q)
              (linestring [(0, 0); (2, 0)]%Q) (linestring [(0, 0); (4, 0)]%Q))
    as (Hvertices & h' & Hunion & Hdiff & _); [reflexivity..| | | |].
  { repeat constructor; discriminate. }
  { repeat constructor; discriminate. }
  { left. discriminate. }
  exists h'. split; [exact Hunion|].
  destruct Hdiff as [Hfirst Hsecond]; [discriminate|].
  split; [|exact Hsecond].
  change (h' (m_parent (front 0 1%Q 0%Q))) with (h' 0) in Hfirst.
  rewrite Hfirst. reflexivity.
Defined.

(** The couple of the two roads. *)
Lemma make_couple_filter_witness :
  make_couple (fst roads_couple) (snd roads_couple) = Some roads_couple
  ∧ is_Some (make_couple (snd roads_couple) (fst roads_couple))
  ∧ same_geometry (fst roads_couple) (snd roads_couple) = false.
Proof.
  destruct make_couple_filter as [Hsym Hmade].
  split; [reflexivity|]. split.
  - apply Hsym. by eexists.
  - apply (Hmade _ _ roads_couple). reflexivity.
Defined.
End SpliceExamples.

Section ScoredExamples.
Import Mapnik Unionizer Notions Further Examples Inputs.
Local Open Scope nat_scope.

(** The row of three linestrings: one couple under 0, one under 127. *)
Lemma score_candidates_first_per_score_witness :
  ∃ cands scored,
    get_candidates (heap_of row) [0; 1; 2] [] [] GREEDY budget = Some cands
    ∧ score_candidates (candidate_comparator [] (heap_of row)) cands greedy
      = Some scored
    ∧ Sorted Z.lt scored.*1
    ∧ scored.*1 = [0; 127]%Z.
Proof.
  destruct (get_candidates (heap_of row) [0; 1; 2] [] [] GREEDY budget)
    as [cands|] eqn:Hcands; [|vm_compute in Hcands; discriminate Hcands].
  exists cands.
  destruct (score_candidates (candidate_comparator [] (heap_of row)) cands greedy)
    as [scored|] eqn:Hscored.
  - exists scored. split; [reflexivity|]. split; [reflexivity|].
    split; [apply (score_candidates_first_per_score _ _ _ _ Hscored)|].
    vm_compute in Hcands. injection Hcands as <-.
    vm_compute in Hscored. injection Hscored as <-. reflexivity.
  - exfalso. vm_compute in Hcands. injection Hcands as <-.
    vm_compute in Hscored. discriminate Hscored.
Defined.

Lemma greedy_scores_at_most_three_witness :
  ∃ cands scored,
    get_candidates (heap_of star) [0; 1; 2; 3; 4] [] [] GREEDY budget = Some cands
    ∧ score_candidates (candidate_comparator [] (heap_of star)) cands
        (scorer_of GREEDY) = Some scored
    ∧ length cands = 10
    ∧ length scored ≤ 3.
Proof.
  destruct (get_candidates (heap_of star) [0; 1; 2; 3; 4] [] [] GREEDY budget)
    as [cands|] eqn:Hcands; [|vm_compute in Hcands; discriminate Hcands].
  exists cands.
  destruct (score_candidates (candidate_comparator [] (heap_of star)) cands
              (scorer_of GREEDY)) as [scored|] eqn:Hscored.
  - exists scored. split; [reflexivity|]. split; [reflexivity|].
    split; [|apply (greedy_scores_at_most_three _ _ _ Hscored)].
    vm_compute in Hcands. injection Hcands as <-. reflexivity.
  - exfalso. vm_compute in Hcands. injection Hcands as <-.
    vm_compute in Hscored. discriminate Hscored.
Defined.

Lemma scored_couples_meet_witness :
  ∃ cands scored,
    get_candidates (heap_of row) [0; 1; 2] [] [] GREEDY budget = Some cands
    ∧ score_candidates (candidate_comparator [] (heap_of row)) cands greedy
      = Some scored
    ∧ Forall (λ entry, (m_x (fst (snd entry)) == m_x (snd (snd entry)))%Q
                       ∧ (m_y (fst (snd entry)) == m_y (snd (snd entry)))%Q) scored.
Proof.
  destruct (get_candidates (heap_of row) [0; 1; 2] [] [] GREEDY budget)
    as [cands|] eqn:Hcands; [|vm_compute in Hcands; discriminate Hcands].
  exists cands.
  destruct (score_candidates (candidate_comparator [] (heap_of row)) cands greedy)
    as [scored|] eqn:Hscored.
  - exists scored. split; [reflexivity|]. split; [reflexivity|].
    eapply Forall_impl;
      [apply (scored_couples_meet _ _ _ _ _ _ _ _ Hcands Hscored)|].
    intros entry (_ & Hx & Hy & _). split; [exact Hx|exact Hy].
  - exfalso. vm_compute in Hcands. injection Hcands as <-.
    vm_compute in Hscored. discriminate Hscored.
Defined.

(** The two roads are merged: both ids are counted. *)
Lemma union_candidates_count_witness :
  ∃ count h',
    union_candidates [(0%Z, roads_couple)] INTERSECT None (heap_of roads)
    = Some (count, h')
    ∧ count ≠ 0 ∧ count ≤ 2.
Proof.
  destruct (union_candidates [(0%Z, roads_couple)] INTERSECT None (heap_of roads))
    as [[count h']|] eqn:Hunion; [|vm_compute in Hunion; discriminate Hunion].
  exists count, h'. split; [reflexivity|].
  destruct (union_candidates_count _ _ _ _ _ _ Hunion) as (Hzero & _ & Hle).
  split; [|exact Hle]. intros Hcount. apply Hzero in Hcount. discriminate Hcount.
Defined.

(** One pass over the row. *)
Lemma process_keeps_witness :
  ∃ layer' h',
    process greedy_once [0; 1; 2] (heap_of row) 100%Q 100%Q = Some (layer', h')
    ∧ layer' = cull h' [0; 1; 2]
    ∧ kept [0; 1; 2] (heap_of row) h'.
Proof.
  destruct (process greedy_once [0; 1; 2] (heap_of row) 100%Q 100%Q)
    as [[layer' h']|] eqn:Hprocess; [|vm_compute in Hprocess; discriminate Hprocess].
  exists layer', h'. split; [reflexivity|].
  destruct (process_keeps _ _ _ _ _ _ _ Hprocess) as (Hcull & _ & Hkept).
  split; [exact Hcull|exact Hkept].
Defined.


(** The intersection of the tags of the two roads. *)
Lemma sanitize_tags_intersect_witness :
  ∃ h', sanitize_tags INTERSECT roads_couple (heap_of roads) = Some h'
        ∧ f_attrs (h' 0) !! "road" = Some (str "main")
        ∧ f_attrs (h' 0) !! "ref" = Some value_null
        ∧ f_attrs (h' 0) !! "name" = None.
Proof.
  destruct (sanitize_tags_intersect roads_couple (heap_of roads))
    as (h' & Hsanitize & _ & _ & _ & Hattrs).
  exists h'. split; [exact Hsanitize|].
  split; [exact (Hattrs "road")|]. split; [exact (Hattrs "ref")|exact (Hattrs "name")].
Defined.

(** The six ends of the row, by their [x]. *)
Lemma get_candidates_ends_witness :
  ∃ cands,
    get_candidates (heap_of row) [0; 1; 2] [] [] GREEDY budget = Some cands
    ∧ length cands = 6
    ∧ Forall (end_of_line (heap_of row) [0; 1; 2] [] []) cands.
Proof.
  destruct (get_candidates_ends (heap_of row) [0; 1; 2] [] [] GREEDY budget)
    as (cands & Hcands & Hsound & _).
  exists cands. split; [exact Hcands|]. split; [|exact Hsound].
  vm_compute in Hcands. injection Hcands as <-. reflexivity.
Defined.

Lemma candidates_ordered_witness :
  ∃ cands,
    get_candidates (heap_of row) [0; 1; 2] [] [] GREEDY budget = Some cands
    ∧ StronglySorted before cands
    ∧ m_x <$> cands = [0; 1; 1; 2; 2; 3]%Q.
Proof.
  destruct (candidates_ordered (heap_of row) [0; 1; 2] [] GREEDY budget)
    as (_ & _ & _ & cands & Hcands & Hsorted).
  exists cands. split; [exact Hcands|]. split; [exact Hsorted|].
  vm_compute in Hcands. injection Hcands as <-. reflexivity.
Defined.
End ScoredExamples.

Section AdminExamples.
Import Mapnik Adminizer Notions Further Examples Inputs.
Local Open Scope nat_scope.

(** The point (3/2, 3/2) lies in the squares of side 2 and 4, the
    entries 1 and 2: it gets the value of entry 1. *)
Lemma try_update_lowest_index_witness :
  ∃ entries u',
    make_entries admin box2d_default = Some entries
    ∧ try_update (make_index entries) (multi_point [(3 # 2, 3 # 2)%Q]) entries
        (param_updater_new place "iso") = Some u'
    ∧ m_index u' = 1%N
    ∧ f_attrs (m_feature u') !! "iso" = Some (str "P0").
Proof.
  destruct (make_entries admin box2d_default) as [entries|] eqn:Hentries;
    [|vm_compute in Hentries; discriminate Hentries].
  vm_compute in Hentries. injection Hentries as <-.
  match goal with
  | |- ∃ entries u', Some ?es = Some entries ∧ _ => exists es
  end.
  match goal with
  | |- ∃ u', _ ∧ try_update ?index ?g ?es ?u = Some u' ∧ _ =>
      destruct (try_update index g es u) as [u'|] eqn:Htry;
        [|vm_compute in Htry; discriminate Htry];
      exists u'; split; [reflexivity|]; split; [reflexivity|];
      destruct (try_update_lowest_index index g es u u') as [_ Hlowest];
        [apply (bool_decide_unpack _); vm_compute; exact I|exact Htry|]
  end.
  rewrite (Hlowest (mk_entry
                      (mk_polygon [(0, 0); (2, 0); (2, 2); (0, 2); (0, 0)]%Q [])
                      (str "P0") 1%N)).
  - split; reflexivity.
  - split.
    + apply list_elem_of_In. vm_compute. left. reflexivity.
    + intros e' He'%list_elem_of_In. vm_compute in He'.
      destruct He' as [<-|[<-|[]]]; simpl; lia.
  - vm_compute. reflexivity.
Defined.

(** The place lies in the region of index 0 and takes its value. *)
Lemma process_adminized_witness :
  ∃ layer' entries,
    process feature_box admin [place] = Some layer'
    ∧ make_entries admin (envelope feature_box [place]) = Some entries
    ∧ Forall2 (adminized "iso" entries) [place] layer'.
Proof.
  destruct (process feature_box admin [place]) as [layer'|] eqn:Hprocess;
    [|vm_compute in Hprocess; discriminate Hprocess].
  destruct (process_adminized _ _ _ _ Hprocess) as (entries & Hentries & Hall).
  exists layer', entries. split; [reflexivity|]. split; [exact Hentries|exact Hall].
Defined.

(** The regions, a place and a line. *)
Lemma process_defined_witness :
  is_Some (process feature_box admin [place; near]).
Proof.
  apply process_defined.
  - repeat constructor.
  - repeat constructor; intros [Htype|Htype]; (reflexivity || discriminate Htype).
Defined.

End AdminExamples.


